(** * TTLDictionary: a dictionary whose entries carry a time-to-live

    A shallow embedding of [ttl_dictionary.py] and of the two [heapq]
    routines it calls, followed by the properties of the expiring map.

    Modelling decisions.
    - Every public method runs under [self.lock], so a method call is one
      atomic transition of the pair [(data, expiry_times)].  The collector
      thread contributes transitions that run [_clean_expired_unsafe].
    - A method that raises leaves the two attributes as they were when the
      exception left the method: every transition returns an outcome and
      the state it leaves.
    - A key is any hashable object; the keys here are [None], integers and
      strings, for which [==] is plain equality.  Two strings or two
      integers are ordered; every other pair of distinct keys makes [<]
      raise [TypeError], which shows inside [heapq] when two expiry times
      are equal.
    - [time.time()] is passed to each transition as a clock reading, a
      float of integral value; TTLs are Python integers.  The sum
      [time.time() + ttl_seconds] is the float sum: the integer is
      converted (or [OverflowError] is raised) and the sum is rounded to 53
      significant bits, to infinity beyond the largest float.
    - A Python [dict] keeps insertion order, which [keys()], [values()] and
      [items()] expose: [data] is an association list in insertion order. *)

From Stdlib Require Import ZArith String.
From stdpp Require Import base tactics option list strings.

Local Open Scope string_scope.
Local Open Scope Z_scope.
Local Open Scope list_scope.

(** ** Python values *)

#[warnings="-register-all"]
Inductive pyval : Type :=
| PyNone : pyval
| PyInt (n : Z) : pyval
| PyStr (s : string) : pyval
| PyTuple (items : list pyval) : pyval.

(** The keys of the map. *)
Inductive pykey : Type :=
| KNone
| KInt (n : Z)
| KStr (s : string).

#[global] Instance pykey_eq_dec : EqDecision pykey.
Proof. solve_decision. Defined.

#[global] Instance pykey_inhabited : Inhabited pykey := populate KNone.

Inductive exn : Type :=
| KeyError
| IndexError
| ValueError
| TypeError
| OverflowError.

(** The result of a call: a returned value or a raised exception. *)
Inductive outcome (A : Type) : Type :=
| Returned (a : A)
| Raised (e : exn).

Arguments Returned {A} a.
Arguments Raised {A} e.

Abbreviation key := pykey (only parsing).

(** [a < b] on keys; [None] is the [TypeError] of an unsupported
    comparison (also [None < None]). *)
Definition key_ltb (a b : key) : option bool :=
  match a, b with
  | KInt x, KInt y => Some (x <? y)
  | KStr x, KStr y => Some (String.ltb x y)
  | _, _ => None
  end.

(** ** Floats of integral value *)

(** Floats have 53 significant bits and stay below [2 ** 1024]. *)
Definition float_limit : Z := 2 ^ 1024.

(** The float nearest to an integer, ties going to the even significand.
    The result may reach [float_limit], which no finite float does. *)
Definition round53 (z : Z) : Z :=
  let a := Z.abs z in
  if a <? 2 ^ 53 then z
  else
    let e := Z.log2 a - 52 in
    let q := a / 2 ^ e in
    let r := a mod 2 ^ e in
    let half := 2 ^ (e - 1) in
    let q' := if r <? half then q
              else if half <? r then q + 1
              else if Z.even q then q else q + 1 in
    Z.sgn z * (q' * 2 ^ e).

(** The conversion of a Python integer to a float, as [float + int] makes
    it: [OverflowError] when the integer is too large. *)
Definition float_of_int (n : Z) : outcome Z :=
  let r := round53 n in
  if float_limit <=? Z.abs r then Raised OverflowError else Returned r.

(** ** Deadlines: [time.time() + ttl_seconds] or [float("inf")] *)

Inductive deadline : Type :=
| Finite (t : Z)
| Never.

#[global] Instance deadline_eq_dec : EqDecision deadline.
Proof. solve_decision. Defined.

#[global] Instance deadline_inhabited : Inhabited deadline := populate Never.

(** The sum of two floats: rounded, [inf] when it overflows upwards.  An
    overflow downwards gives [-inf], written [Finite (- float_limit)], a
    reading below every finite float. *)
Definition float_add (x y : Z) : deadline :=
  let r := round53 (x + y) in
  if float_limit <=? r then Never
  else if r <=? - float_limit then Finite (- float_limit)
  else Finite r.

(** [a < b] on floats, with [inf] above every finite reading. *)
Definition deadline_ltb (a b : deadline) : bool :=
  match a, b with
  | Finite x, Finite y => x <? y
  | Finite _, Never => true
  | Never, _ => false
  end.

(** [expiry <= now], the test of the sweep loop; [now] is always finite. *)
Definition deadline_leb (a : deadline) (now : Z) : bool :=
  match a with
  | Finite x => x <=? now
  | Never => false
  end.

(** An element of [expiry_times]: the tuple [(expiry_time, key)]. *)
Abbreviation item := (deadline * pykey)%type (only parsing).

(** Python's [<] on 2-tuples: the first differing component decides, and
    comparing it may raise. *)
Definition item_ltb (a b : item) : option bool :=
  if decide (a.1 = b.1)
  then (if decide (a.2 = b.2) then Some false else key_ltb a.2 b.2)
  else Some (deadline_ltb a.1 b.1).

(** ** The [dict] holding the values, in insertion order *)

Abbreviation dict := (list (pykey * pyval)) (only parsing).

(** [d[k]] / [d.get(k)]: [None] is a missing key. *)
Fixpoint dict_get (k : key) (d : dict) : option pyval :=
  match d with
  | [] => None
  | (k', v) :: d' => if decide (k = k') then Some v else dict_get k d'
  end.

(** [k in d] *)
Definition dict_contains (k : key) (d : dict) : bool :=
  match dict_get k d with Some _ => true | None => false end.

(** [d[k] = v]: an existing key keeps its position, a new key goes last. *)
Fixpoint dict_set (k : key) (v : pyval) (d : dict) : dict :=
  match d with
  | [] => [(k, v)]
  | (k', v') :: d' =>
      if decide (k = k') then (k', v) :: d' else (k', v') :: dict_set k v d'
  end.

(** [del d[k]]: [None] is [KeyError]. *)
Fixpoint dict_del (k : key) (d : dict) : option dict :=
  match d with
  | [] => None
  | (k', v') :: d' =>
      if decide (k = k') then Some d'
      else match dict_del k d' with
           | Some d'' => Some ((k', v') :: d'')
           | None => None
           end
  end.

(** ** [heapq]: the binary heap kept in a list

    The routines of the standard library's [heapq] that the class calls,
    with their two helpers, in the shape of [heapq.py]: an item travels
    through the list and is written where it comes to rest.  When a
    comparison raises, the list is left as CPython's [_heapq] leaves it:
    that implementation exchanges the travelling item with its neighbour
    at every step, so the item stands where it had arrived and the list
    still holds the same elements. *)

Module heapq.

(** The [while pos > startpos] loop of [_siftdown].  [pos] strictly
    decreases, so [pos] units of fuel are enough. *)
Fixpoint _siftdown_loop (fuel : nat) (heap : list item)
    (startpos pos : nat) (newitem : item) : outcome unit * list item :=
  match fuel with
  | O => (Returned tt, <[pos := newitem]> heap)
  | S fuel' =>
      if decide (startpos < pos)%nat then
        let parentpos := Nat.div2 (pos - 1) in
        let parent := heap !!! parentpos in
        match item_ltb newitem parent with
        | Some true =>
            _siftdown_loop fuel' (<[pos := parent]> heap)
              startpos parentpos newitem
        | Some false => (Returned tt, <[pos := newitem]> heap)
        | None => (Raised TypeError, <[pos := newitem]> heap)
        end
      else (Returned tt, <[pos := newitem]> heap)
  end.

Definition _siftdown (heap : list item) (startpos pos : nat)
    : outcome unit * list item :=
  _siftdown_loop pos heap startpos pos (heap !!! pos).

(** The [while childpos < endpos] loop of [_siftup]: the smaller child
    moves up until a leaf is reached.  Returns the list and the position
    of the hole.  [pos] strictly increases below [endpos]. *)
Fixpoint _siftup_loop (fuel : nat) (heap : list item)
    (endpos pos : nat) : outcome unit * (list item * nat) :=
  match fuel with
  | O => (Returned tt, (heap, pos))
  | S fuel' =>
      let childpos := (2 * pos + 1)%nat in
      if decide (childpos < endpos)%nat then
        let rightpos := (childpos + 1)%nat in
        let smaller :=
          if decide (rightpos < endpos)%nat
          then match item_ltb (heap !!! childpos) (heap !!! rightpos) with
               | Some true => Some childpos
               | Some false => Some rightpos
               | None => None
               end
          else Some childpos in
        match smaller with
        | Some childpos =>
            _siftup_loop fuel' (<[pos := heap !!! childpos]> heap)
              endpos childpos
        | None => (Raised TypeError, (heap, pos))
        end
      else (Returned tt, (heap, pos))
  end.

Definition _siftup (heap : list item) (pos : nat)
    : outcome unit * list item :=
  let endpos := length heap in
  let startpos := pos in
  let newitem := heap !!! pos in
  match _siftup_loop endpos heap endpos pos with
  | (Returned _, (heap, pos)) =>
      _siftdown (<[pos := newitem]> heap) startpos pos
  | (Raised e, (heap, pos)) => (Raised e, <[pos := newitem]> heap)
  end.

(** [heappush(heap, item)] *)
Definition heappush (heap : list item) (it : item)
    : outcome unit * list item :=
  let heap := heap ++ [it] in
  _siftdown heap 0 (length heap - 1).

(** [heappop(heap)]: [IndexError] on an empty list; when a comparison
    raises, the first element is already gone from the list. *)
Definition heappop (heap : list item) : outcome item * list item :=
  match last heap with
  | None => (Raised IndexError, heap)
  | Some lastelt =>
      let heap := removelast heap in
      match heap with
      | [] => (Returned lastelt, [])
      | returnitem :: _ =>
          match _siftup (<[0%nat := lastelt]> heap) 0 with
          | (Returned _, heap) => (Returned returnitem, heap)
          | (Raised e, heap) => (Raised e, heap)
          end
      end
  end.

End heapq.

(** ** The class [TTLDictionary] *)

(** The two attributes guarded by [self.lock].  The lock, the collector
    thread and its stop flag carry no data of the map. *)
Record TTLDictionary : Type := mkTTL {
  data : dict;
  expiry_times : list item
}.

(** [__init__]: an empty [dict] and an empty heap. *)
Definition __init__ : TTLDictionary := mkTTL [] [].

(** The condition of the [while] in [_clean_expired_unsafe]:
    [self.expiry_times and self.expiry_times[0][0] <= now]. *)
Definition clean_cond (now : Z) (s : TTLDictionary) : bool :=
  match expiry_times s with
  | [] => false
  | (expiry_time, _) :: _ => deadline_leb expiry_time now
  end.

(** The body of that loop: pop the first pair, delete its key, and swallow
    the [KeyError] of a key that is already gone.  An exception of
    [heappop] leaves the loop and the method with the key still stored. *)
Definition clean_body (s : TTLDictionary) : outcome unit * TTLDictionary :=
  match heapq.heappop (expiry_times s) with
  | (Raised e, heap) => (Raised e, mkTTL (data s) heap)
  | (Returned (_, key), heap) =>
      match dict_del key (data s) with
      | Some d => (Returned tt, mkTTL d heap)
      | None => (Returned tt, mkTTL (data s) heap)
      end
  end.

(** Every iteration shortens the heap by one, so [len(expiry_times)]
    iterations are enough (see [clean_loop_fuel]). *)
Fixpoint clean_loop (fuel : nat) (now : Z) (s : TTLDictionary)
    : outcome unit * TTLDictionary :=
  match fuel with
  | O => (Returned tt, s)
  | S fuel' =>
      if clean_cond now s then
        match clean_body s with
        | (Returned _, s') => clean_loop fuel' now s'
        | (Raised e, s') => (Raised e, s')
        end
      else (Returned tt, s)
  end.

Definition _clean_expired_unsafe (now : Z) (s : TTLDictionary)
    : outcome unit * TTLDictionary :=
  clean_loop (length (expiry_times s)) now s.

(** The list comprehension
    [[(expiry_time, k) for expiry_time, k in self.expiry_times if k != key]]. *)
Definition without_key (k : key) (heap : list item) : list item :=
  filter (λ it : item, it.2 ≠ k) heap.

(** The first half of [__setitem__]: split the argument into the value and
    the absolute expiry time; [now] is the reading of [time.time()]. *)
Definition unpack_value_and_ttl (now : Z) (value_and_ttl : pyval)
    : outcome (pyval * deadline) :=
  match value_and_ttl with
  | PyTuple items =>
      match items with
      | [value; ttl_seconds] =>
          match ttl_seconds with
          | PyNone => Returned (value, Never)
          | PyInt n =>
              match float_of_int n with
              | Returned f => Returned (value, float_add now f)
              | Raised e => Raised e
              end
          | _ => Raised TypeError
          end
      | _ => Raised ValueError
      end
  | _ => Returned (value_and_ttl, Never)
  end.

(** The second half, under the lock: the value is stored and the pair
    appended before [heappush] compares anything, so an exception of
    [heappush] leaves both in place. *)
Definition __setitem__ (now : Z) (k : key) (value_and_ttl : pyval)
    (s : TTLDictionary) : outcome unit * TTLDictionary :=
  match unpack_value_and_ttl now value_and_ttl with
  | Raised e => (Raised e, s)
  | Returned (value, expiry_time) =>
      let heap :=
        if dict_contains k (data s)
        then without_key k (expiry_times s)
        else expiry_times s in
      let pushed := heapq.heappush heap (expiry_time, k) in
      (pushed.1, mkTTL (dict_set k value (data s)) pushed.2)
  end.

Definition __getitem__ (now : Z) (k : key) (s : TTLDictionary)
    : outcome pyval * TTLDictionary :=
  match _clean_expired_unsafe now s with
  | (Raised e, s') => (Raised e, s')
  | (Returned _, s') =>
      match dict_get k (data s') with
      | Some v => (Returned v, s')
      | None => (Raised KeyError, s')
      end
  end.

Definition __delitem__ (k : key) (s : TTLDictionary)
    : outcome unit * TTLDictionary :=
  match dict_del k (data s) with
  | None => (Raised KeyError, s)
  | Some d => (Returned tt, mkTTL d (without_key k (expiry_times s)))
  end.

Definition __contains__ (k : key) (s : TTLDictionary)
    : outcome bool * TTLDictionary :=
  (Returned (dict_contains k (data s)), s).

Definition __len__ (s : TTLDictionary) : outcome nat * TTLDictionary :=
  (Returned (length (data s)), s).

Definition keys (s : TTLDictionary) : outcome (list key) * TTLDictionary :=
  (Returned (data s).*1, s).

Definition values (s : TTLDictionary) : outcome (list pyval) * TTLDictionary :=
  (Returned (data s).*2, s).

Definition items (s : TTLDictionary)
    : outcome (list (key * pyval)) * TTLDictionary :=
  (Returned (data s), s).

(** [get(key, default)] *)
Definition get (now : Z) (k : key) (default : pyval) (s : TTLDictionary)
    : outcome pyval * TTLDictionary :=
  match _clean_expired_unsafe now s with
  | (Raised e, s') => (Raised e, s')
  | (Returned _, s') =>
      match dict_get k (data s') with
      | Some v => (Returned v, s')
      | None => (Returned default, s')
      end
  end.

(** One round of the [while] loop of [_collect_expired], the body of the
    collector thread: take the lock and sweep.  The sleep of
    [daemon_sleep_time] seconds between two rounds shows in the clock
    readings of the history.  An exception of the sweep ends the thread;
    a history may still hold later rounds, which change the state as the
    sweep of a read would. *)
Definition _collect_expired (now : Z) (s : TTLDictionary)
    : outcome unit * TTLDictionary :=
  _clean_expired_unsafe now s.

(** ** Histories of calls *)

(** One atomic transition: a public method, or one round of the collector
    thread ([_collect_expired] taking the lock and sweeping). *)
Inductive call : Type :=
| SetItem (k : key) (value_and_ttl : pyval)
| GetItem (k : key)
| Get (k : key) (default : pyval)
| DelItem (k : key)
| Contains (k : key)
| Len
| Keys
| Values
| Items
| Collect.

(** The state after a call made when the clock reads [now], whether the
    call returned or raised. *)
Definition step (s : TTLDictionary) (ev : Z * call) : TTLDictionary :=
  let now := ev.1 in
  match ev.2 with
  | SetItem k a => (__setitem__ now k a s).2
  | GetItem k => (__getitem__ now k s).2
  | Get k d => (get now k d s).2
  | DelItem k => (__delitem__ k s).2
  | Contains k => (__contains__ k s).2
  | Len => (__len__ s).2
  | Keys => (keys s).2
  | Values => (values s).2
  | Items => (items s).2
  | Collect => (_collect_expired now s).2
  end.

(** The state reached from a fresh map by a history, oldest call first. *)
Definition run_from (s : TTLDictionary) (tr : list (Z * call)) : TTLDictionary :=
  fold_left step tr s.

Definition run (tr : list (Z * call)) : TTLDictionary := run_from __init__ tr.

(** Clock readings never decrease along a history. *)
Fixpoint clock_ok (t0 : Z) (tr : list (Z * call)) : bool :=
  match tr with
  | [] => true
  | (t, _) :: tr' => (t0 <=? t) && clock_ok t tr'
  end.

(** The deadline a call assigns to key [k], if it writes [k]: the write
    got past the unpacking of its argument, so it stored the value and
    appended the pair, even when [heappush] then raised. *)
Definition written_deadline (k : key) (ev : Z * call) : option deadline :=
  match ev.2 with
  | SetItem k' a =>
      if decide (k = k') then
        match unpack_value_and_ttl ev.1 a with
        | Returned (_, e) => Some e
        | Raised _ => None
        end
      else None
  | _ => None
  end.

(** The current effective deadline of [k]: the one computed by the most
    recent write of [k] in the history. *)
Definition current_deadline (tr : list (Z * call)) (k : key) : option deadline :=
  fold_left (λ acc ev, match written_deadline k ev with
                       | Some e => Some e
                       | None => acc
                       end) tr None.

(** The call neither writes nor deletes key [k]. *)
Definition leaves_alone (k : key) (ev : Z * call) : bool :=
  match ev.2 with
  | SetItem k' _ | DelItem k' => bool_decide (k ≠ k')
  | _ => true
  end.

(** ** Notions used to state the properties *)

(** The store has no duplicate key and the keys of the index, counted with
    multiplicity, are the keys of the store. *)
Definition consistent (s : TTLDictionary) : Prop :=
  NoDup (data s).*1 ∧ (expiry_times s).*2 ≡ₚ (data s).*1.

(** The store has no duplicate key, the index has at most one pair for a
    key, and every key of the index is stored. *)
Definition well_formed (s : TTLDictionary) : Prop :=
  NoDup (data s).*1 ∧ NoDup (expiry_times s).*2 ∧
  ∀ k, k ∈ (expiry_times s).*2 → k ∈ (data s).*1.

(** The states the sweep passes through, at the head of its loop. *)
Inductive sweeping (now : Z) : TTLDictionary → TTLDictionary → Prop :=
| sweeping_start s : sweeping now s s
| sweeping_next s s' s'' :
    clean_cond now s = true →
    clean_body s = (Returned tt, s') →
    sweeping now s' s'' →
    sweeping now s s''.

(** Key [k] is expired at time [now]: the deadline of its most recent
    write is at or before [now]. *)
Definition expired (tr : list (Z * call)) (k : key) (now : Z) : bool :=
  match current_deadline tr k with
  | Some e => deadline_leb e now
  | None => false
  end.

(** Key [k] holds [v] and every pair of the index for [k] carries the
    deadline [e]. *)
Definition held (k : key) (v : pyval) (e : deadline) (s : TTLDictionary)
    : Prop :=
  dict_get k (data s) = Some v ∧
  ∀ e', (e', k) ∈ expiry_times s → e' = e.

(** Key [k] holds [v] and every pair of the index for [k] never expires. *)
Definition pinned (k : key) (v : pyval) (s : TTLDictionary) : Prop :=
  held k v Never s.

(** [isinstance(v, tuple)] *)
Definition is_tuple (v : pyval) : bool :=
  match v with PyTuple _ => true | _ => false end.

(** The number of constructors of a value. *)
Fixpoint pysize (v : pyval) : nat :=
  match v with
  | PyTuple items => S (list_sum (List.map pysize items))
  | _ => 1%nat
  end.

(** The integer is a float and sums of such integers are exact: it has
    fewer than 54 bits. *)
Definition exact (z : Z) : Prop := - 2 ^ 53 < z < 2 ^ 53.

(** Two keys can stand in the heap together: they are equal, or [<] between
    them does not raise. *)
Definition comparable (a b : key) : bool :=
  bool_decide (a = b) ||
  match key_ltb a b with Some _ => true | None => false end.

(** Any two keys of the list are comparable. *)
Definition orderable_keys (ks : list key) : bool :=
  forallb (λ a, forallb (comparable a) ks) ks.

(** The keys the calls of a history write. *)
Definition written_keys (tr : list (Z * call)) : list key :=
  omap (λ ev : Z * call,
          match ev.2 with SetItem k _ => Some k | _ => None end) tr.

(** Any two keys written in the history are comparable. *)
Definition orderable (tr : list (Z * call)) : bool :=
  orderable_keys (written_keys tr).

(** Any two pairs of the list have comparable keys. *)
Definition comparable_items (heap : list item) : bool :=
  orderable_keys heap.*2.

(** No comparison between two pairs of the list raises. *)
Definition all_comparable (heap : list item) : Prop :=
  ∀ x y, x ∈ heap → y ∈ heap → is_Some (item_ltb x y).

(** The store and the index hold the same keys, all taken from [K]. *)
Definition orderly (K : list key) (s : TTLDictionary) : Prop :=
  consistent s ∧ ∀ k, k ∈ (expiry_times s).*2 → k ∈ K.

(** [a <= b] on deadlines: [b < a] is false. *)
Definition deadline_le (a b : deadline) : Prop := deadline_ltb b a = false.

(** The parent of position [j] in the heap, [(j - 1) >> 1]. *)
Definition parentpos (j : nat) : nat := Nat.div2 (j - 1).

(** The heap invariant of [heapq] read on the expiry times: no pair
    expires before the pair at its parent position. *)
Definition heap_ordered (heap : list item) : bool :=
  forallb (λ j, negb (deadline_ltb (heap !!! j).1 (heap !!! parentpos j).1))
    (seq 1 (length heap - 1)).

(** The list while [_siftdown] carries an item up from [pos]: heap order
    holds everywhere except between [pos] and its parent, and the children
    of [pos] do not expire before the parent of [pos]. *)
Definition ordered_but_up (heap : list item) (pos : nat) : Prop :=
  (∀ j, (0 < j < length heap)%nat → j ≠ pos →
        deadline_le (heap !!! parentpos j).1 (heap !!! j).1) ∧
  ((0 < pos)%nat →
   ∀ c, (0 < c < length heap)%nat → parentpos c = pos →
        deadline_le (heap !!! parentpos pos).1 (heap !!! c).1).

(** The list while [_siftup] moves children into the hole at [pos]: heap
    order holds between all positions other than the hole, and the children
    of the hole do not expire before its parent. *)
Definition ordered_but_hole (heap : list item) (pos : nat) : Prop :=
  (∀ j, (0 < j < length heap)%nat → j ≠ pos → parentpos j ≠ pos →
        deadline_le (heap !!! parentpos j).1 (heap !!! j).1) ∧
  ((0 < pos)%nat →
   ∀ c, (0 < c < length heap)%nat → parentpos c = pos →
        deadline_le (heap !!! parentpos pos).1 (heap !!! c).1).

(** The call does not run the list comprehension on a stored key: it is
    not a write of a stored key and not a deletion of a stored key. *)
Definition keeps_order (s : TTLDictionary) (ev : Z * call) : bool :=
  match ev.2 with
  | SetItem k a =>
      match unpack_value_and_ttl ev.1 a with
      | Returned _ => negb (dict_contains k (data s))
      | Raised _ => true
      end
  | DelItem k => negb (dict_contains k (data s))
  | _ => true
  end.

(** No call of the history, run from state [s], rebuilds the index. *)
Fixpoint no_rebuild (s : TTLDictionary) (tr : list (Z * call)) : bool :=
  match tr with
  | [] => true
  | ev :: tr' => keeps_order s ev && no_rebuild (step s ev) tr'
  end.

(** The value a call assigns to key [k], if it writes [k] (see
    [written_deadline]). *)
Definition written_value (k : key) (ev : Z * call) : option pyval :=
  match ev.2 with
  | SetItem k' a =>
      if decide (k = k') then
        match unpack_value_and_ttl ev.1 a with
        | Returned (v, _) => Some v
        | Raised _ => None
        end
      else None
  | _ => None
  end.

(** The value of the most recent write of [k] in the history. *)
Definition current_value (tr : list (Z * call)) (k : key) : option pyval :=
  fold_left (λ acc ev, match written_value k ev with
                       | Some v => Some v
                       | None => acc
                       end) tr None.

(** The call is made strictly before the deadline [e]. *)
Definition before (e : deadline) (ev : Z * call) : bool :=
  negb (deadline_leb e ev.1).

(** ** Proof scripts *)

(** Reading a position of a list in which other positions were written. *)
Ltac read_lists :=
  rewrite ?list_lookup_total_insert, ?length_insert in *;
  repeat (case_decide; try lia).

(** A membership in a list that is written out does not hold. *)
Ltac absurd_elem H :=
  repeat (apply elem_of_cons in H as [H|H]; [by inversion H|]);
  by apply elem_of_nil in H.

(** * Properties *)

(** ** Runs of [heapq] *)

Example heappush_ex :
  heapq.heappush [(Finite 1, KStr "a"); (Finite 5, KStr "b")] (Finite 2, KStr "c")
  = (Returned tt,
     [(Finite 1, KStr "a"); (Finite 5, KStr "b"); (Finite 2, KStr "c")]).
Proof. reflexivity. Qed.

Example heappop_ex :
  heapq.heappop
    [(Finite 1, KStr "a"); (Finite 5, KStr "b"); (Finite 2, KStr "c");
     (Never, KStr "d")]
  = (Returned (Finite 1, KStr "a"),
     [(Finite 2, KStr "c"); (Finite 5, KStr "b"); (Never, KStr "d")]).
Proof. vm_compute. reflexivity. Qed.

(** A comparison that raises after one exchange: the pushed pair stays
    where it had arrived. *)
Example heappush_raises_ex :
  heapq.heappush
    [(Finite 1, KInt 1); (Finite 3, KStr "b"); (Finite 2, KStr "c");
     (Finite 4, KStr "d")] (Finite 1, KStr "a")
  = (Raised TypeError,
     [(Finite 1, KInt 1); (Finite 1, KStr "a"); (Finite 2, KStr "c");
      (Finite 4, KStr "d"); (Finite 3, KStr "b")]).
Proof. vm_compute. reflexivity. Qed.

(** A comparison that raises below the root: the first pair is gone and
    the last one stands where it had arrived. *)
Example heappop_raises_ex :
  heapq.heappop
    [(Finite 0, KStr "x"); (Finite 1, KStr "a"); (Finite 2, KStr "b");
     (Finite 3, KInt 1); (Finite 3, KStr "c"); (Finite 4, KStr "d");
     (Finite 5, KStr "e"); (Finite 9, KStr "z")]
  = (Raised TypeError,
     [(Finite 1, KStr "a"); (Finite 9, KStr "z"); (Finite 2, KStr "b");
      (Finite 3, KInt 1); (Finite 3, KStr "c"); (Finite 4, KStr "d");
      (Finite 5, KStr "e")]).
Proof. vm_compute. reflexivity. Qed.

(** ** Floats *)

Example round53_ties_to_even :
  round53 (2 ^ 53 + 1) = 2 ^ 53 ∧ round53 (2 ^ 53 + 3) = 2 ^ 53 + 4.
Proof. split; vm_compute; reflexivity. Qed.

Example float_of_int_overflows_at :
  float_of_int (2 ^ 1024 - 2 ^ 970) = Raised OverflowError ∧
  float_of_int (2 ^ 1024 - 2 ^ 970 - 1) = Returned (2 ^ 1024 - 2 ^ 971).
Proof. split; vm_compute; reflexivity. Qed.

(** ** The scenarios of the unit tests and of the demonstration script *)

Example stores_and_retrieves_items :
  (__getitem__ 0 (KStr "key")
     (run [(0, SetItem (KStr "key") (PyTuple [PyStr "value"; PyInt 5]))])).1
  = Returned (PyStr "value").
Proof. reflexivity. Qed.

Example removes_expired_items :
  (__contains__ (KStr "key")
     (run [(0, SetItem (KStr "key") (PyTuple [PyStr "value"; PyInt 1]));
           (1, Collect); (2, Collect)])).1
  = Returned false.
Proof. reflexivity. Qed.

Example multiple_keys_with_mixed_ttl :
  run [(0, SetItem (KStr "key1") (PyTuple [PyStr "value1"; PyInt 1]));
       (0, SetItem (KStr "key2") (PyStr "value2"));
       (1, Collect); (2, Collect)]
  = mkTTL [(KStr "key2", PyStr "value2")] [(Never, KStr "key2")].
Proof. reflexivity. Qed.

Example get_returns_default_for_missing_key :
  (get 0 (KStr "missing_key") (PyStr "default") __init__).1
  = Returned (PyStr "default").
Proof. reflexivity. Qed.

Example demonstration_script :
  (__getitem__ 6 (KStr "key1")
     (run [(0, SetItem (KStr "key1") (PyTuple [PyStr "value1"; PyInt 5]));
           (0, SetItem (KStr "key2") (PyStr "value2"));
           (0, GetItem (KStr "key1"))])).1
  = Raised KeyError ∧
  (__len__
     (run [(0, SetItem (KStr "key1") (PyTuple [PyStr "value1"; PyInt 5]));
           (0, SetItem (KStr "key2") (PyStr "value2"));
           (0, GetItem (KStr "key1")); (6, GetItem (KStr "key1"))])).1
  = Returned 1%nat.
Proof. split; reflexivity. Qed.

(** ** Lists updated in place *)

Section list_updates.
Context {A : Type}.
Implicit Types l : list A.

(** Writing [b] at [j] and keeping [a] aside holds the same elements as
    writing [a] at [j] and keeping [b] aside. *)
Lemma insert_aside_perm l (j : nat) (a b : A) :
  (j < length l)%nat → a :: <[j := b]> l ≡ₚ b :: <[j := a]> l.
Proof.
  revert j. induction l as [|x l IH]; intros j Hj; simpl in *; [lia|].
  destruct j as [|j]; simpl.
  - apply perm_swap.
  - rewrite (perm_swap x a), (perm_swap x b). f_equiv.
    apply IH. lia.
Qed.

(** Moving the element at [i] into slot [j] and filling [i] with [b]
    permutes the list in which [b] went to [j] directly. *)
Lemma insert_move_perm l (i j : nat) (a b : A) :
  i ≠ j → l !! i = Some a → (j < length l)%nat →
  <[i := b]> (<[j := a]> l) ≡ₚ <[j := b]> l.
Proof.
  revert i j. induction l as [|x l IH]; intros i j Hij Hi Hj;
    simpl in *; [lia|].
  destruct i as [|i], j as [|j]; simpl in *; try done.
  - simplify_eq. apply insert_aside_perm. lia.
  - transitivity (b :: <[i := a]> l).
    + apply insert_aside_perm. by eapply lookup_lt_Some.
    + by rewrite list_insert_id.
  - f_equiv. apply IH; [congruence | done | lia].
Qed.

Lemma last_removelast_perm l (x : A) :
  last l = Some x → l ≡ₚ x :: removelast l.
Proof.
  intros H. destruct (last_Some l x) as [[l' ->] _]; [done|].
  rewrite removelast_last. by rewrite Permutation_app_comm.
Qed.

Lemma last_is_Some l (x : A) : is_Some (last (x :: l)).
Proof.
  destruct (last (x :: l)) eqn:E; [eauto|].
  by apply last_None in E.
Qed.

Lemma removelast_cons_head l (x y : A) l' :
  removelast (x :: l) = y :: l' → y = x.
Proof. destruct l; simpl; [done | congruence]. Qed.
End list_updates.

Section list_writes.
Context {A : Type}.
Implicit Types l : list A.

Lemma elem_of_insert_inv l (i : nat) (x y : A) :
  y ∈ <[i := x]> l → y = x ∨ y ∈ l.
Proof.
  intros (j & Hj)%list_elem_of_lookup.
  apply list_lookup_insert_Some in Hj as [(_ & -> & _)|[_ Hj]]; [by left|].
  right. by eapply list_elem_of_lookup_2.
Qed.

Lemma elem_of_lookup_total_lt `{!Inhabited A} l (i : nat) :
  (i < length l)%nat → l !!! i ∈ l.
Proof.
  intros Hi. eapply list_elem_of_lookup_2.
  by apply list_lookup_lookup_total_lt.
Qed.
End list_writes.

(** ** [heapq] keeps the elements of the list *)

Module heapq_facts.
Import heapq.

Lemma div2_pred_lt (pos : nat) : (0 < pos)%nat → (Nat.div2 (pos - 1) < pos)%nat.
Proof.
  intros H. pose proof (Nat.div2_decr (pos - 1) (pos - 1)). lia.
Qed.

(** Whether the loop returns or raises, the list holds the elements it
    held with the travelling item in its slot. *)
Lemma _siftdown_loop_perm fuel (heap : list item) startpos pos newitem :
  (pos < length heap)%nat →
  (_siftdown_loop fuel heap startpos pos newitem).2
  ≡ₚ <[pos := newitem]> heap.
Proof.
  revert heap pos.
  induction fuel as [|fuel IH]; intros heap pos Hpos; simpl; [done|].
  case_decide as Hlt; [|done].
  destruct (item_ltb _ _) as [[]|]; [|done..].
  pose proof (div2_pred_lt pos ltac:(lia)) as Hpar.
  rewrite IH by (rewrite length_insert; lia).
  apply insert_move_perm; [lia| |done].
  apply list_lookup_lookup_total_lt. lia.
Qed.

Lemma _siftdown_loop_outcome fuel (heap : list item) startpos pos newitem :
  (_siftdown_loop fuel heap startpos pos newitem).1 = Returned tt ∨
  (_siftdown_loop fuel heap startpos pos newitem).1 = Raised TypeError.
Proof.
  revert heap pos.
  induction fuel as [|fuel IH]; intros heap pos; simpl; [by left|].
  case_decide; [|by left].
  destruct (item_ltb _ _) as [[]|]; [apply IH | by left | by right].
Qed.

Lemma _siftdown_perm (heap : list item) startpos pos :
  (pos < length heap)%nat → (_siftdown heap startpos pos).2 ≡ₚ heap.
Proof.
  intros Hpos. unfold _siftdown. rewrite _siftdown_loop_perm by done.
  rewrite list_insert_id; [done|].
  by apply list_lookup_lookup_total_lt.
Qed.

(** The fuel of [_siftdown] is never exhausted: any amount at least
    [pos] gives the same result. *)
Lemma _siftdown_loop_fuel fuel fuel' (heap : list item) startpos pos newitem :
  (pos ≤ fuel)%nat → (pos ≤ fuel')%nat →
  _siftdown_loop fuel heap startpos pos newitem
  = _siftdown_loop fuel' heap startpos pos newitem.
Proof.
  revert fuel' heap pos.
  induction fuel as [|fuel IH]; intros fuel' heap pos H1 H2.
  - assert (pos = 0%nat) as -> by lia.
    by destruct fuel'.
  - destruct fuel' as [|fuel'].
    + by assert (pos = 0%nat) as -> by lia.
    + simpl. case_decide as Hlt; [|done].
      destruct (item_ltb _ _) as [[]|]; [|done..].
      pose proof (div2_pred_lt pos ltac:(lia)).
      apply IH; lia.
Qed.

(** When the item compares with every element, the loop returns. *)
Lemma _siftdown_loop_returns fuel (heap : list item) startpos pos newitem :
  (pos < length heap)%nat →
  (∀ y, y ∈ heap → is_Some (item_ltb newitem y)) →
  (_siftdown_loop fuel heap startpos pos newitem).1 = Returned tt.
Proof.
  revert heap pos.
  induction fuel as [|fuel IH]; intros heap pos Hpos Hcmp;
    cbn [_siftdown_loop]; [done|].
  case_decide as Hlt; [|done].
  pose proof (div2_pred_lt pos ltac:(lia)) as Hpar.
  assert (heap !!! Nat.div2 (pos - 1) ∈ heap) as Hin
    by (apply elem_of_lookup_total_lt; lia).
  destruct (Hcmp _ Hin) as [b Hb]. rewrite Hb. destruct b; [|done].
  apply IH; [rewrite length_insert; lia|].
  intros y [->|Hy]%elem_of_insert_inv; by apply Hcmp.
Qed.

Lemma _siftup_loop_spec fuel (heap : list item) endpos pos :
  endpos = length heap → (pos < endpos)%nat →
  ((_siftup_loop fuel heap endpos pos).2.2 < endpos)%nat ∧
  length (_siftup_loop fuel heap endpos pos).2.1 = length heap ∧
  ∀ x, <[(_siftup_loop fuel heap endpos pos).2.2 := x]>
         (_siftup_loop fuel heap endpos pos).2.1 ≡ₚ <[pos := x]> heap.
Proof.
  revert heap pos.
  induction fuel as [|fuel IH]; intros heap pos Hend Hpos;
    cbn [_siftup_loop]; [done|].
  case_decide as Hchild; [|done].
  set (smaller :=
         if decide (2 * pos + 1 + 1 < endpos)%nat
         then match item_ltb (heap !!! (2 * pos + 1)%nat)
                      (heap !!! (2 * pos + 1 + 1)%nat) with
              | Some true => Some (2 * pos + 1)%nat
              | Some false => Some (2 * pos + 1 + 1)%nat
              | None => None
              end
         else Some (2 * pos + 1)%nat).
  destruct smaller as [c|] eqn:Hsm; [|done].
  assert (pos < c < endpos)%nat as Hc.
  { unfold smaller in Hsm. case_decide; [destruct (item_ltb _ _) as [[]|]|];
      simplify_eq; lia. }
  destruct (IH (<[pos := heap !!! c]> heap) c) as (H1 & H2 & H3);
    [by rewrite length_insert | lia |].
  split_and!; [done | by rewrite H2, length_insert |].
  intros x. rewrite H3.
  apply insert_move_perm; [lia | | lia].
  apply list_lookup_lookup_total_lt. lia.
Qed.

Lemma _siftup_loop_outcome fuel (heap : list item) endpos pos :
  (_siftup_loop fuel heap endpos pos).1 = Returned tt ∨
  (_siftup_loop fuel heap endpos pos).1 = Raised TypeError.
Proof.
  revert heap pos.
  induction fuel as [|fuel IH]; intros heap pos; cbn [_siftup_loop];
    [by left|].
  case_decide; [|by left].
  case_decide; [destruct (item_ltb _ _) as [[]|]|];
    try apply IH; by right.
Qed.

(** The fuel of [_siftup] is never exhausted either: when the loop
    returns, the hole is at a leaf. *)
Lemma _siftup_loop_done fuel (heap : list item) endpos pos :
  (endpos ≤ fuel + pos)%nat →
  (_siftup_loop fuel heap endpos pos).1 = Returned tt →
  (endpos ≤ 2 * (_siftup_loop fuel heap endpos pos).2.2 + 1)%nat.
Proof.
  revert heap pos.
  induction fuel as [|fuel IH]; intros heap pos Hf;
    cbn [_siftup_loop]; [simpl; lia|].
  case_decide as Hchild; [|simpl; lia].
  case_decide; [destruct (item_ltb _ _) as [[]|]|];
    try (apply IH; lia); done.
Qed.

(** The elements of the list the loop leaves were in the list. *)
Lemma _siftup_loop_elems fuel (heap : list item) endpos pos :
  endpos = length heap →
  ∀ y, y ∈ (_siftup_loop fuel heap endpos pos).2.1 → y ∈ heap.
Proof.
  revert heap pos.
  induction fuel as [|fuel IH]; intros heap pos Hend;
    cbn [_siftup_loop]; [done|].
  case_decide as Hchild; [|done].
  assert (∀ c, (c < endpos)%nat →
            ∀ y, y ∈ (_siftup_loop fuel (<[pos := heap !!! c]> heap)
                        endpos c).2.1 → y ∈ heap) as Hstep.
  { intros c Hc y Hy. apply IH in Hy; [|by rewrite length_insert].
    apply elem_of_insert_inv in Hy as [->|Hy]; [|done].
    apply elem_of_lookup_total_lt. lia. }
  case_decide; [destruct (item_ltb _ _) as [[]|]|];
    try (apply Hstep; lia); done.
Qed.

Lemma _siftup_loop_returns fuel (heap : list item) endpos pos :
  endpos = length heap →
  (∀ x y, x ∈ heap → y ∈ heap → is_Some (item_ltb x y)) →
  (_siftup_loop fuel heap endpos pos).1 = Returned tt.
Proof.
  revert heap pos.
  induction fuel as [|fuel IH]; intros heap pos Hend Hcmp;
    cbn [_siftup_loop]; [done|].
  case_decide as Hchild; [|done].
  assert (∀ c, (c < endpos)%nat →
            (_siftup_loop fuel (<[pos := heap !!! c]> heap) endpos c).1
            = Returned tt) as Hstep.
  { intros c Hc. apply IH; [by rewrite length_insert|].
    assert (heap !!! c ∈ heap) by (apply elem_of_lookup_total_lt; lia).
    intros x y [->|Hx]%elem_of_insert_inv [->|Hy]%elem_of_insert_inv;
      by apply Hcmp. }
  case_decide as Hr; [|apply Hstep; lia].
  destruct (Hcmp (heap !!! (2 * pos + 1)%nat) (heap !!! (2 * pos + 1 + 1)%nat))
    as [b Hb]; [apply elem_of_lookup_total_lt; lia..|].
  rewrite Hb. destruct b; apply Hstep; lia.
Qed.

Lemma _siftup_perm (heap : list item) pos :
  (pos < length heap)%nat → (_siftup heap pos).2 ≡ₚ heap.
Proof.
  intros Hpos. unfold _siftup.
  pose proof (_siftup_loop_spec (length heap) heap (length heap) pos
                eq_refl Hpos) as (H1 & H2 & H3).
  destruct (_siftup_loop _ _ _ _) as [o [heap' pos']]; simpl in *.
  assert (<[pos' := heap !!! pos]> heap' ≡ₚ heap) as Hfull.
  { rewrite H3. rewrite list_insert_id; [done|].
    by apply list_lookup_lookup_total_lt. }
  destruct o; [|done].
  rewrite _siftdown_perm by (rewrite length_insert; lia). done.
Qed.

Lemma _siftup_outcome (heap : list item) pos :
  (_siftup heap pos).1 = Returned tt ∨ (_siftup heap pos).1 = Raised TypeError.
Proof.
  unfold _siftup.
  pose proof (_siftup_loop_outcome (length heap) heap (length heap) pos) as Ho.
  destruct (_siftup_loop _ _ _ _) as [o [heap' pos']]; simpl in *.
  destruct o as [[]|e].
  - apply _siftdown_loop_outcome.
  - destruct Ho as [?|?]; simplify_eq. by right.
Qed.

Lemma _siftup_returns (heap : list item) pos :
  (pos < length heap)%nat →
  (∀ x y, x ∈ heap → y ∈ heap → is_Some (item_ltb x y)) →
  (_siftup heap pos).1 = Returned tt.
Proof.
  intros Hpos Hcmp. unfold _siftup.
  pose proof (_siftup_loop_returns (length heap) heap (length heap) pos
                eq_refl Hcmp) as Hret.
  pose proof (_siftup_loop_spec (length heap) heap (length heap) pos
                eq_refl Hpos) as (H1 & H2 & _).
  pose proof (_siftup_loop_elems (length heap) heap (length heap) pos
                eq_refl) as Hel.
  destruct (_siftup_loop _ _ _ _) as [o [heap' pos']]; simpl in *.
  subst o. unfold _siftdown.
  rewrite list_lookup_total_insert_eq by lia.
  assert (heap !!! pos ∈ heap) by (by apply elem_of_lookup_total_lt).
  apply _siftdown_loop_returns; [rewrite length_insert; lia|].
  intros y [->|Hy]%elem_of_insert_inv; apply Hcmp; auto.
Qed.

Lemma heappush_perm (heap : list item) it :
  (heappush heap it).2 ≡ₚ it :: heap.
Proof.
  unfold heappush. rewrite _siftdown_perm.
  - by rewrite Permutation_app_comm.
  - rewrite length_app. simpl. lia.
Qed.

Lemma heappush_outcome (heap : list item) it :
  (heappush heap it).1 = Returned tt ∨ (heappush heap it).1 = Raised TypeError.
Proof. apply _siftdown_loop_outcome. Qed.

Lemma heappush_returns (heap : list item) it :
  (∀ y, y ∈ heap → is_Some (item_ltb it y)) →
  (heappush heap it).1 = Returned tt.
Proof.
  intros Hcmp. unfold heappush, _siftdown.
  rewrite length_app. simpl.
  replace (length heap + 1 - 1)%nat with (length heap) by lia.
  rewrite list_lookup_total_middle by done.
  apply _siftdown_loop_returns; [rewrite length_app; simpl; lia|].
  intros y [Hy|Hy%list_elem_of_singleton]%elem_of_app; [by apply Hcmp|].
  subst y. unfold item_ltb. rewrite !decide_True by done. by eexists.
Qed.

(** [heappop] takes the first element off the list, whatever the order of
    the others, and keeps the others; it returns that element unless a
    comparison raises [TypeError]. *)
Lemma heappop_cons (x : item) (heap : list item) :
  ∃ heap', heap' ≡ₚ heap ∧
    (heappop (x :: heap) = (Returned x, heap') ∨
     heappop (x :: heap) = (Raised TypeError, heap')).
Proof.
  unfold heappop.
  destruct (last_is_Some heap x) as [lastelt Hlast]. rewrite Hlast.
  pose proof (last_removelast_perm _ _ Hlast) as Hperm.
  destruct (removelast (x :: heap)) as [|y rest] eqn:Hrem.
  - apply Permutation_length in Hperm. destruct heap; [|done].
    simpl in Hlast. simplify_eq. exists []. split; [done | by left].
  - apply removelast_cons_head in Hrem as Hy. subst y.
    pose proof (_siftup_perm (<[0%nat := lastelt]> (x :: rest)) 0
                  ltac:(rewrite length_insert; simpl; lia)) as Hsift.
    pose proof (_siftup_outcome (<[0%nat := lastelt]> (x :: rest)) 0) as Ho.
    destruct (_siftup _ _) as [o heap']. simpl in *.
    exists heap'. split.
    + rewrite Hsift. rewrite (perm_swap x lastelt) in Hperm.
      by apply Permutation_cons_inv in Hperm.
    + destruct Ho as [->| ->]; [by left | by right].
Qed.

Lemma heappop_nil : heappop [] = (Raised IndexError, []).
Proof. done. Qed.

Lemma heappop_returns (x : item) (heap : list item) :
  (∀ a b, a ∈ x :: heap → b ∈ x :: heap → is_Some (item_ltb a b)) →
  (heappop (x :: heap)).1 = Returned x.
Proof.
  intros Hcmp. unfold heappop.
  destruct (last_is_Some heap x) as [lastelt Hlast]. rewrite Hlast.
  pose proof (last_removelast_perm _ _ Hlast) as Hperm.
  destruct (removelast (x :: heap)) as [|y rest] eqn:Hrem.
  - apply Permutation_length in Hperm. destruct heap; [|done].
    simpl in Hlast. by simplify_eq.
  - apply removelast_cons_head in Hrem as Hy. subst y.
    pose proof (_siftup_returns (<[0%nat := lastelt]> (x :: rest)) 0
                  ltac:(rewrite length_insert; simpl; lia)) as Hret.
    destruct (_siftup _ _) as [o heap']. simpl in *.
    rewrite Hret; [done|].
    assert (∀ a, a ∈ lastelt :: rest → a ∈ x :: heap) as Hsub.
    { intros a Ha. rewrite Hperm. apply elem_of_cons in Ha as [->|Ha];
        [left | right; by right]. }
    intros a b Ha Hb. apply Hcmp; by apply Hsub.
Qed.
End heapq_facts.

(** ** The insertion-ordered [dict] *)

Section dict_facts.
Implicit Types (d : dict) (k : key) (v : pyval).

Lemma dict_get_None k d : dict_get k d = None ↔ k ∉ d.*1.
Proof.
  induction d as [|[k' v'] d IH]; simpl.
  - split; [intros _; apply not_elem_of_nil | done].
  - rewrite not_elem_of_cons. case_decide as Hk.
    + split; [done | by intros [? _]].
    + rewrite IH. split; [by split | by intros [_ ?]].
Qed.

Lemma dict_get_is_Some k d : is_Some (dict_get k d) ↔ k ∈ d.*1.
Proof.
  rewrite <- not_eq_None_Some, dict_get_None.
  split; [apply dec_stable | auto].
Qed.

Lemma dict_contains_true k d : dict_contains k d = true ↔ k ∈ d.*1.
Proof.
  rewrite <- dict_get_is_Some. unfold dict_contains.
  destruct (dict_get k d); split; intros H; try done; try by eexists.
Qed.

Lemma dict_contains_false k d : dict_contains k d = false ↔ k ∉ d.*1.
Proof.
  rewrite <- dict_contains_true. destruct (dict_contains k d).
  - split; [done | by intros []].
  - by split.
Qed.

Lemma dict_get_set k v d : dict_get k (dict_set k v d) = Some v.
Proof.
  induction d as [|[k' v'] d IH]; simpl.
  - by rewrite decide_True.
  - case_decide; simpl; [subst; by rewrite decide_True | by rewrite decide_False].
Qed.

Lemma dict_get_set_ne k k' v d :
  k' ≠ k → dict_get k' (dict_set k v d) = dict_get k' d.
Proof.
  intros Hne. induction d as [|[k0 v0] d IH]; simpl.
  - by rewrite decide_False.
  - case_decide; simpl; [subst; by rewrite !decide_False|].
    by rewrite IH.
Qed.

Lemma dict_set_keys_old k v d : k ∈ d.*1 → (dict_set k v d).*1 = d.*1.
Proof.
  induction d as [|[k' v'] d IH]; simpl; intros Hin.
  - by apply elem_of_nil in Hin.
  - case_decide; simpl; [done|]. f_equal. apply IH.
    apply elem_of_cons in Hin as [?|?]; [congruence | done].
Qed.

Lemma dict_set_keys_new k v d : k ∉ d.*1 → (dict_set k v d).*1 = d.*1 ++ [k].
Proof.
  induction d as [|[k' v'] d IH]; simpl; intros Hin; [done|].
  apply not_elem_of_cons in Hin as [? ?].
  rewrite decide_False by done. simpl. f_equal. by apply IH.
Qed.

Lemma dict_del_None k d : dict_del k d = None ↔ k ∉ d.*1.
Proof.
  induction d as [|[k' v'] d IH]; simpl.
  - split; [intros _; apply not_elem_of_nil | done].
  - rewrite not_elem_of_cons. case_decide as Hk.
    + split; [done | by intros [? _]].
    + rewrite <- IH. destruct (dict_del k d).
      * split; [done | by intros [_ ?]].
      * by split.
Qed.

Lemma dict_del_keys k d d' : dict_del k d = Some d' → d.*1 ≡ₚ k :: d'.*1.
Proof.
  revert d'. induction d as [|[k' v'] d IH]; simpl; intros d' H; [done|].
  case_decide; [by simplify_eq|].
  destruct (dict_del k d) as [d''|]; [|done]. simplify_eq. simpl.
  rewrite (IH d'') by done. apply perm_swap.
Qed.

Lemma dict_del_get_ne k k' d d' :
  dict_del k d = Some d' → k' ≠ k → dict_get k' d' = dict_get k' d.
Proof.
  revert d'. induction d as [|[k0 v0] d IH]; simpl; intros d' H Hne; [done|].
  case_decide; [simplify_eq; by rewrite decide_False|].
  destruct (dict_del k d) as [d''|]; [|done]. simplify_eq. simpl.
  case_decide; [done|]. by apply IH.
Qed.

(** With distinct keys, the pairs of the [dict] are its lookups. *)
Lemma dict_get_Some_elem k v d : dict_get k d = Some v → (k, v) ∈ d.
Proof.
  induction d as [|[k' v'] d IH]; simpl; [done|].
  intros Hget. case_decide; simplify_eq; [left | right; auto].
Qed.

Lemma dict_elem_get k v d : NoDup d.*1 → (k, v) ∈ d → dict_get k d = Some v.
Proof.
  induction d as [|[k' v'] d IH]; simpl; intros Hnd Hin.
  - by apply elem_of_nil in Hin.
  - apply NoDup_cons in Hnd as [Hk Hnd].
    apply elem_of_cons in Hin as [?|Hin]; [simplify_eq; by rewrite decide_True|].
    rewrite decide_False; [by apply IH|].
    intros ->. apply Hk. apply list_elem_of_fmap. by exists (k', v).
Qed.
End dict_facts.

(** ** Filtering a key out of the heap *)

Section without_key_facts.
Implicit Types (heap : list item) (k : key).

Lemma elem_of_without_key heap k e k' :
  (e, k') ∈ without_key k heap ↔ k' ≠ k ∧ (e, k') ∈ heap.
Proof. unfold without_key. by rewrite list_elem_of_filter. Qed.

Lemma without_key_keys heap k :
  (without_key k heap).*2 = filter (λ k', k' ≠ k) heap.*2.
Proof.
  unfold without_key. induction heap as [|[e k'] heap IH]; [done|].
  rewrite fmap_cons, !filter_cons. simpl.
  case_decide; [rewrite fmap_cons; f_equal|]; exact IH.
Qed.

Lemma filter_ne_absent (l : list key) k :
  k ∉ l → filter (λ k', k' ≠ k) l = l.
Proof.
  induction l as [|x l IH]; [done|]. intros [? ?]%not_elem_of_cons.
  rewrite filter_cons_True by done. f_equal. auto.
Qed.

Lemma filter_ne_head (l : list key) k :
  k ∉ l → filter (λ k', k' ≠ k) (k :: l) = l.
Proof.
  intros H. rewrite filter_cons_False by naive_solver.
  by apply filter_ne_absent.
Qed.

End without_key_facts.


Section more_dict_facts.
Implicit Types (d : dict) (k : key) (v : pyval).

Lemma dict_set_length k v d :
  length (dict_set k v d)
  = if dict_contains k d then length d else S (length d).
Proof.
  destruct (dict_contains k d) eqn:Hk.
  - apply dict_contains_true in Hk.
    by rewrite <- (length_fmap fst), dict_set_keys_old, length_fmap.
  - apply dict_contains_false in Hk.
    rewrite <- (length_fmap fst), dict_set_keys_new, length_app, length_fmap
      by done.
    simpl. lia.
Qed.

Lemma dict_del_length k d d' :
  dict_del k d = Some d' → length d = S (length d').
Proof.
  intros Hdel%dict_del_keys%Permutation_length.
  simpl in Hdel. by rewrite !length_fmap in Hdel.
Qed.

Lemma dict_del_absent k d d' :
  NoDup d.*1 → dict_del k d = Some d' → dict_get k d' = None.
Proof.
  intros Hnd Hdel%dict_del_keys. rewrite Hdel in Hnd.
  apply NoDup_cons in Hnd as [Hk _]. by apply dict_get_None.
Qed.

Lemma dict_del_get_Some k0 k v d d' :
  NoDup d.*1 → dict_del k0 d = Some d' →
  dict_get k d' = Some v → dict_get k d = Some v.
Proof.
  intros Hnd Hdel Hget. destruct (decide (k = k0)) as [->|Hne].
  - rewrite (dict_del_absent _ _ _ Hnd Hdel) in Hget. done.
  - by rewrite <- (dict_del_get_ne _ _ _ _ Hdel).
Qed.

Lemma dict_del_get_None k0 k d d' :
  dict_del k0 d = Some d' → dict_get k d = None → dict_get k d' = None.
Proof.
  intros Hdel Hnone. destruct (decide (k = k0)) as [->|Hne].
  - apply dict_get_None, dict_del_None in Hnone. congruence.
  - by rewrite (dict_del_get_ne _ _ _ _ Hdel).
Qed.

Lemma dict_del_sublist k d d' : dict_del k d = Some d' → sublist d' d.
Proof.
  revert d'. induction d as [|[k0 v0] d IH]; simpl; intros d' Hdel; [done|].
  case_decide; [simplify_eq; by apply sublist_cons|].
  destruct (dict_del k d) as [d''|]; [|done]. simplify_eq.
  apply sublist_skip. by apply IH.
Qed.

Lemma dict_del_keys_filter k d d' :
  NoDup d.*1 → dict_del k d = Some d' →
  d'.*1 = filter (λ k', k' ≠ k) d.*1.
Proof.
  revert d'. induction d as [|[k0 v0] d IH]; simpl; intros d' Hnd Hdel; [done|].
  apply NoDup_cons in Hnd as [Hk0 Hnd]. case_decide as Hk.
  - simplify_eq. by rewrite filter_ne_head.
  - destruct (dict_del k d) as [d''|] eqn:Hd; [|done]. simplify_eq.
    rewrite filter_cons_True by done. simpl. f_equal. by apply IH.
Qed.
End more_dict_facts.


(** ** Comparable keys *)

Section comparable_facts.
Implicit Types (ks : list key) (heap : list item).

Lemma orderable_keys_spec ks :
  orderable_keys ks = true ↔
  ∀ a b, a ∈ ks → b ∈ ks → comparable a b = true.
Proof.
  unfold orderable_keys. rewrite forallb_forall. split.
  - intros H a b Ha%list_elem_of_In Hb%list_elem_of_In.
    specialize (H a Ha). rewrite forallb_forall in H. by apply H.
  - intros H a Ha%list_elem_of_In. rewrite forallb_forall.
    intros b Hb%list_elem_of_In. by apply H.
Qed.

Lemma orderable_keys_subseteq ks ks' :
  (∀ k, k ∈ ks' → k ∈ ks) →
  orderable_keys ks = true → orderable_keys ks' = true.
Proof.
  rewrite !orderable_keys_spec. intros Hsub H a b Ha Hb. apply H; auto.
Qed.

Lemma comparable_item_ltb (x y : item) :
  comparable x.2 y.2 = true → is_Some (item_ltb x y).
Proof.
  unfold comparable, item_ltb. intros H.
  destruct (decide (x.1 = y.1)); [|by eexists].
  destruct (decide (x.2 = y.2)); [by eexists|].
  apply orb_true_iff in H as [H|H]; [by apply bool_decide_eq_true in H|].
  by destruct (key_ltb x.2 y.2); [eexists|].
Qed.

Lemma orderable_all_comparable ks heap :
  orderable_keys ks = true → (∀ k, k ∈ heap.*2 → k ∈ ks) →
  all_comparable heap.
Proof.
  rewrite orderable_keys_spec. intros Hks Hsub x y Hx Hy.
  apply comparable_item_ltb, Hks; apply Hsub, list_elem_of_fmap; eauto.
Qed.

Lemma comparable_items_all heap :
  comparable_items heap = true → all_comparable heap.
Proof. intros H. by eapply orderable_all_comparable. Qed.

Lemma all_comparable_subseteq heap heap' :
  (∀ x, x ∈ heap' → x ∈ heap) → all_comparable heap → all_comparable heap'.
Proof. intros Hsub H x y Hx Hy. apply H; auto. Qed.

Lemma written_keys_app tr tr' :
  written_keys (tr ++ tr') = written_keys tr ++ written_keys tr'.
Proof. unfold written_keys. apply omap_app. Qed.

Lemma orderable_app_l tr tr' : orderable (tr ++ tr') = true → orderable tr = true.
Proof.
  unfold orderable. rewrite written_keys_app.
  apply orderable_keys_subseteq. intros k Hk. apply elem_of_app. by left.
Qed.
End comparable_facts.

(** ** The sweep loop *)

Section sweep_facts.
Implicit Types (s : TTLDictionary) (now : Z).

(** One iteration pops the first pair of the list; it deletes the key of
    the pair when the key is still stored, unless [heappop] raises. *)
Lemma clean_body_cons s e k h :
  expiry_times s = (e, k) :: h →
  ∃ h', h' ≡ₚ h ∧
    ((heapq.heappop (expiry_times s) = (Returned (e, k), h') ∧
      clean_body s
      = (Returned tt, mkTTL (default (data s) (dict_del k (data s))) h')) ∨
     (heapq.heappop (expiry_times s) = (Raised TypeError, h') ∧
      clean_body s = (Raised TypeError, mkTTL (data s) h'))).
Proof.
  intros Hs. unfold clean_body. rewrite Hs.
  destruct (heapq_facts.heappop_cons (e, k) h) as (h' & Hperm & [-> | ->]).
  - exists h'. split; [done|]. left. split; [done|].
    by destruct (dict_del k (data s)).
  - exists h'. split; [done|]. by right.
Qed.

Lemma clean_cond_true now s :
  clean_cond now s = true →
  ∃ e k h, expiry_times s = (e, k) :: h ∧ deadline_leb e now = true.
Proof.
  unfold clean_cond. destruct (expiry_times s) as [|[e k] h]; [done|].
  intros H. by exists e, k, h.
Qed.

Lemma clean_loop_stop fuel now s :
  clean_cond now s = false → clean_loop fuel now s = (Returned tt, s).
Proof. intros H. destruct fuel; simpl; [done|]. by rewrite H. Qed.

(** The loop-invariant rule of the sweep: a property kept by an iteration
    that pops and deletes, and by one that pops and raises, holds in the
    state the sweep leaves. *)
Lemma clean_loop_invariant (P : TTLDictionary → Prop) now :
  (∀ s e k h h',
      expiry_times s = (e, k) :: h → deadline_leb e now = true →
      h' ≡ₚ h → P s →
      P (mkTTL (default (data s) (dict_del k (data s))) h') ∧
      P (mkTTL (data s) h')) →
  ∀ fuel s, P s → P (clean_loop fuel now s).2.
Proof.
  intros Hbody. induction fuel as [|fuel IH]; intros s HP; simpl; [done|].
  destruct (clean_cond now s) eqn:Hcond; [|done].
  apply clean_cond_true in Hcond as (e & k & h & Hs & He).
  destruct (clean_body_cons s e k h Hs) as (h' & Hperm & [[_ ->]|[_ ->]]).
  - apply IH. by apply (Hbody s e k h h').
  - simpl. by apply (Hbody s e k h h').
Qed.

(** The rule for a sweep that returns: only iterations whose [heappop]
    returned count. *)
Lemma clean_loop_rule (P : TTLDictionary → Prop) now :
  (∀ s e k h h',
      expiry_times s = (e, k) :: h → deadline_leb e now = true →
      heapq.heappop (expiry_times s) = (Returned (e, k), h') → h' ≡ₚ h →
      P s →
      P (mkTTL (default (data s) (dict_del k (data s))) h')) →
  ∀ fuel s, P s → (clean_loop fuel now s).1 = Returned tt →
            P (clean_loop fuel now s).2.
Proof.
  intros Hbody. induction fuel as [|fuel IH]; intros s HP; simpl; [done|].
  destruct (clean_cond now s) eqn:Hcond; [|done].
  apply clean_cond_true in Hcond as (e & k & h & Hs & He).
  destruct (clean_body_cons s e k h Hs) as (h' & Hperm & [[Hpop ->]|[_ ->]]);
    [|done].
  apply IH. by eapply Hbody.
Qed.

Lemma clean_loop_outcome fuel now s :
  (clean_loop fuel now s).1 = Returned tt ∨
  (clean_loop fuel now s).1 = Raised TypeError.
Proof.
  revert s. induction fuel as [|fuel IH]; intros s; simpl; [by left|].
  destruct (clean_cond now s) eqn:Hcond; [|by left].
  apply clean_cond_true in Hcond as (e & k & h & Hs & He).
  destruct (clean_body_cons s e k h Hs) as (h' & Hperm & [[_ ->]|[_ ->]]);
    [apply IH | by right].
Qed.

(** When no comparison between two pairs of the index raises, the sweep
    returns. *)
Lemma clean_loop_returns fuel now s :
  all_comparable (expiry_times s) → (clean_loop fuel now s).1 = Returned tt.
Proof.
  revert s. induction fuel as [|fuel IH]; intros s Hcmp; simpl; [done|].
  destruct (clean_cond now s) eqn:Hcond; [|done].
  apply clean_cond_true in Hcond as (e & k & h & Hs & He).
  pose proof (heapq_facts.heappop_returns (e, k) h) as Hret.
  rewrite <- Hs in Hret. specialize (Hret Hcmp).
  destruct (clean_body_cons s e k h Hs) as (h' & Hperm & [[_ ->]|[Hpop _]]).
  - apply IH. simpl. eapply all_comparable_subseteq; [|done].
    intros x Hx. rewrite Hs. right. by rewrite <- Hperm.
  - rewrite Hpop in Hret. done.
Qed.

(** With [len(expiry_times)] units of fuel a sweep that returns has ended
    because its condition fails, not because the fuel ran out. *)
Lemma clean_loop_exit fuel now s :
  (length (expiry_times s) ≤ fuel)%nat →
  (clean_loop fuel now s).1 = Returned tt →
  clean_cond now (clean_loop fuel now s).2 = false.
Proof.
  revert s. induction fuel as [|fuel IH]; intros s Hlen; simpl.
  - intros _. unfold clean_cond.
    destruct (expiry_times s); [done | simpl in Hlen; lia].
  - destruct (clean_cond now s) eqn:Hcond; [|done].
    apply clean_cond_true in Hcond as (e & k & h & Hs & He).
    destruct (clean_body_cons s e k h Hs) as (h' & Hperm & [[_ ->]|[_ ->]]);
      [|done].
    apply IH. simpl. rewrite Hperm. rewrite Hs in Hlen. simpl in Hlen. lia.
Qed.

Lemma clean_loop_fuel fuel fuel' now s :
  (length (expiry_times s) ≤ fuel)%nat →
  (length (expiry_times s) ≤ fuel')%nat →
  clean_loop fuel now s = clean_loop fuel' now s.
Proof.
  revert fuel' s. induction fuel as [|fuel IH]; intros fuel' s H1 H2.
  - destruct (expiry_times s) eqn:Hs; [|simpl in H1; lia].
    symmetry. apply clean_loop_stop. unfold clean_cond. by rewrite Hs.
  - destruct fuel' as [|fuel'].
    + destruct (expiry_times s) eqn:Hs; [|simpl in H2; lia].
      apply clean_loop_stop. unfold clean_cond. by rewrite Hs.
    + simpl. destruct (clean_cond now s) eqn:Hcond; [|done].
      apply clean_cond_true in Hcond as (e & k & h & Hs & He).
      destruct (clean_body_cons s e k h Hs) as (h' & Hperm & [[_ ->]|[_ ->]]);
        [|done].
      rewrite Hs in H1, H2. simpl in H1, H2.
      apply IH; simpl; rewrite Hperm; lia.
Qed.

Lemma _clean_expired_unsafe_outcome now s :
  (_clean_expired_unsafe now s).1 = Returned tt ∨
  (_clean_expired_unsafe now s).1 = Raised TypeError.
Proof. apply clean_loop_outcome. Qed.

Lemma _clean_expired_unsafe_returns now s :
  all_comparable (expiry_times s) →
  (_clean_expired_unsafe now s).1 = Returned tt.
Proof. apply clean_loop_returns. Qed.

Lemma _clean_expired_unsafe_exit now s :
  (_clean_expired_unsafe now s).1 = Returned tt →
  clean_cond now (_clean_expired_unsafe now s).2 = false.
Proof. by apply clean_loop_exit. Qed.

Lemma _clean_expired_unsafe_invariant (P : TTLDictionary → Prop) now s :
  (∀ s e k h h',
      expiry_times s = (e, k) :: h → deadline_leb e now = true →
      h' ≡ₚ h → P s →
      P (mkTTL (default (data s) (dict_del k (data s))) h') ∧
      P (mkTTL (data s) h')) →
  P s → P (_clean_expired_unsafe now s).2.
Proof.
  intros Hbody HP. exact (clean_loop_invariant P now Hbody _ s HP).
Qed.

(** The state a read leaves is the state its sweep leaves. *)
Lemma getitem_state now k s :
  (__getitem__ now k s).2 = (_clean_expired_unsafe now s).2.
Proof.
  unfold __getitem__.
  destruct (_clean_expired_unsafe now s) as [[[]|?] s']; [|done].
  simpl. by destruct (dict_get k (data s')).
Qed.

Lemma get_state now k dflt s :
  (get now k dflt s).2 = (_clean_expired_unsafe now s).2.
Proof.
  unfold get.
  destruct (_clean_expired_unsafe now s) as [[[]|?] s']; [|done].
  simpl. by destruct (dict_get k (data s')).
Qed.

Lemma run_from_snoc s tr ev :
  run_from s (tr ++ [ev]) = step (run_from s tr) ev.
Proof. unfold run_from. by rewrite fold_left_app. Qed.

Lemma run_snoc tr ev : run (tr ++ [ev]) = step (run tr) ev.
Proof. apply run_from_snoc. Qed.

Lemma run_app tr tr' : run (tr ++ tr') = run_from (run tr) tr'.
Proof. unfold run, run_from. by rewrite fold_left_app. Qed.
End sweep_facts.

(** ** What every reachable state satisfies *)

Section well_formed_facts.
Implicit Types (s : TTLDictionary) (now : Z) (k : key).

Lemma well_formed_init : well_formed __init__.
Proof. split_and!; simpl; [apply NoDup_nil_2.. | done]. Qed.

Lemma well_formed_mem s e k :
  well_formed s → (e, k) ∈ expiry_times s → k ∈ (data s).*1.
Proof.
  intros (_ & _ & Hsub) Hin. apply Hsub.
  apply list_elem_of_fmap. by exists (e, k).
Qed.

Lemma consistent_well_formed s : consistent s → well_formed s.
Proof.
  intros [Hnd Hperm]. split_and!; [done | by rewrite Hperm |].
  intros k. by rewrite Hperm.
Qed.

Lemma well_formed_pop s e k h h' :
  well_formed s → expiry_times s = (e, k) :: h → h' ≡ₚ h →
  well_formed (mkTTL (default (data s) (dict_del k (data s))) h') ∧
  well_formed (mkTTL (data s) h').
Proof.
  intros (Hnd & Hni & Hsub) Hs Hh. rewrite Hs in Hni, Hsub. simpl in *.
  apply NoDup_cons in Hni as [Hk Hni]. split.
  - destruct (dict_del k (data s)) as [d|] eqn:Hdel; simpl.
    + apply dict_del_keys in Hdel as Hkeys. rewrite Hkeys in Hnd.
      apply NoDup_cons in Hnd as [_ Hnd].
      split_and!; simpl; [done | by rewrite Hh |].
      intros k' Hk'. rewrite Hh in Hk'.
      assert (k' ∈ (data s).*1) as Hin by (apply Hsub; by right).
      rewrite Hkeys in Hin. apply elem_of_cons in Hin as [->|?]; done.
    + split_and!; simpl; [done | by rewrite Hh |].
      intros k' Hk'. rewrite Hh in Hk'. apply Hsub. by right.
  - split_and!; simpl; [done | by rewrite Hh |].
    intros k' Hk'. rewrite Hh in Hk'. apply Hsub. by right.
Qed.

Lemma well_formed_clean now s :
  well_formed s → well_formed (_clean_expired_unsafe now s).2.
Proof.
  apply (_clean_expired_unsafe_invariant well_formed).
  intros s0 e k h h' Hs _ Hh Hwf. by eapply well_formed_pop.
Qed.

Lemma well_formed_setitem now k a s :
  well_formed s → well_formed (__setitem__ now k a s).2.
Proof.
  intros (Hnd & Hni & Hsub). unfold __setitem__.
  destruct (unpack_value_and_ttl now a) as [[value e]|]; [|done].
  simpl. destruct (dict_contains k (data s)) eqn:Hin.
  - apply dict_contains_true in Hin.
    split_and!; simpl; rewrite ?dict_set_keys_old by done; [done | |].
    + rewrite heapq_facts.heappush_perm. simpl. rewrite without_key_keys.
      apply NoDup_cons. split; [|by apply NoDup_filter].
      rewrite list_elem_of_filter. by intros [? _].
    + intros k'. rewrite heapq_facts.heappush_perm. simpl.
      rewrite without_key_keys.
      intros [->|[_ ?]%list_elem_of_filter]%elem_of_cons; auto.
  - apply dict_contains_false in Hin.
    split_and!; simpl; rewrite ?dict_set_keys_new by done.
    + apply NoDup_app. split_and!; [done | | apply NoDup_singleton].
      intros x Hx ->%list_elem_of_singleton. done.
    + rewrite heapq_facts.heappush_perm. simpl.
      apply NoDup_cons. split; [|done]. intros Hk. by apply Hin, Hsub.
    + intros k'. rewrite heapq_facts.heappush_perm. simpl.
      rewrite elem_of_app, list_elem_of_singleton.
      intros [->|?]%elem_of_cons; auto.
Qed.

Lemma well_formed_delitem k s :
  well_formed s → well_formed (__delitem__ k s).2.
Proof.
  intros (Hnd & Hni & Hsub). unfold __delitem__.
  destruct (dict_del k (data s)) as [d|] eqn:Hdel; [|done].
  apply dict_del_keys in Hdel. rewrite Hdel in Hnd.
  apply NoDup_cons in Hnd as [Hk Hnd].
  split_and!; simpl; [done | |].
  - rewrite without_key_keys. by apply NoDup_filter.
  - intros k'. rewrite without_key_keys.
    intros [Hne Hin%Hsub]%list_elem_of_filter. rewrite Hdel in Hin.
    apply elem_of_cons in Hin as [?|?]; done.
Qed.

Lemma well_formed_step s ev : well_formed s → well_formed (step s ev).
Proof.
  intros Hc. destruct ev as [now [k a|k|k dflt|k|k| | | | | ]];
    unfold step; simpl; try done.
  - by apply well_formed_setitem.
  - rewrite getitem_state. by apply well_formed_clean.
  - rewrite get_state. by apply well_formed_clean.
  - by apply well_formed_delitem.
  - by apply well_formed_clean.
Qed.

Lemma well_formed_run_from s tr : well_formed s → well_formed (run_from s tr).
Proof.
  revert s. induction tr as [|ev tr IH]; intros s Hc; [done|].
  apply IH. by apply well_formed_step.
Qed.

Lemma well_formed_run tr : well_formed (run tr).
Proof. apply well_formed_run_from, well_formed_init. Qed.
End well_formed_facts.

(** ** The index and the store hold the same keys, while no pop raises *)

Section consistent_facts.
Implicit Types (s : TTLDictionary) (now : Z) (k : key) (K : list key).

Lemma consistent_init : consistent __init__.
Proof. split; simpl; [apply NoDup_nil_2 | done]. Qed.

Lemma consistent_mem s e k :
  consistent s → (e, k) ∈ expiry_times s → k ∈ (data s).*1.
Proof. intros Hc. by apply well_formed_mem, consistent_well_formed. Qed.

Lemma consistent_pop s e k h h' :
  consistent s → expiry_times s = (e, k) :: h → h' ≡ₚ h →
  ∃ d, dict_del k (data s) = Some d ∧ consistent (mkTTL d h').
Proof.
  intros [Hnd Hperm] Hs Hh. rewrite Hs in Hperm. simpl in Hperm.
  destruct (dict_del k (data s)) as [d|] eqn:Hdel.
  - exists d. split; [done|].
    apply dict_del_keys in Hdel as Hkeys.
    rewrite Hkeys in Hnd, Hperm. apply NoDup_cons in Hnd as [_ Hnd].
    split; simpl; [done|]. rewrite Hh.
    by apply Permutation_cons_inv in Hperm.
  - apply dict_del_None in Hdel. exfalso. apply Hdel.
    rewrite <- Hperm. left.
Qed.

(** A write keeps the two sets of keys equal even when [heappush] raises:
    the pair is in the list before anything is compared. *)
Lemma consistent_setitem now k a s :
  consistent s → consistent (__setitem__ now k a s).2.
Proof.
  intros [Hnd Hperm]. unfold __setitem__.
  destruct (unpack_value_and_ttl now a) as [[value e]|]; [|done].
  simpl. destruct (dict_contains k (data s)) eqn:Hin.
  - apply dict_contains_true in Hin.
    split; simpl; rewrite dict_set_keys_old by done; [done|].
    rewrite heapq_facts.heappush_perm. simpl.
    rewrite without_key_keys, Hperm.
    apply elem_of_Permutation in Hin as [l' Hl'].
    rewrite Hl' in Hnd |- *. apply NoDup_cons in Hnd as [Hk _].
    by rewrite filter_ne_head.
  - apply dict_contains_false in Hin.
    split; simpl; rewrite dict_set_keys_new by done.
    + apply NoDup_app. split_and!; [done | | apply NoDup_singleton].
      intros x Hx ->%list_elem_of_singleton. done.
    + rewrite heapq_facts.heappush_perm. simpl.
      by rewrite Hperm, Permutation_app_comm.
Qed.

Lemma consistent_delitem k s :
  consistent s → consistent (__delitem__ k s).2.
Proof.
  intros [Hnd Hperm]. unfold __delitem__.
  destruct (dict_del k (data s)) as [d|] eqn:Hdel; [|done].
  apply dict_del_keys in Hdel. rewrite Hdel in Hnd, Hperm.
  apply NoDup_cons in Hnd as [Hk Hnd]. split; simpl; [done|].
  by rewrite without_key_keys, Hperm, filter_ne_head.
Qed.

Lemma orderly_comparable K s :
  orderable_keys K = true → orderly K s → all_comparable (expiry_times s).
Proof. intros HK [_ Hsub]. by eapply orderable_all_comparable. Qed.

(** With comparable keys the sweep returns and keeps the two sets of keys
    equal. *)
Lemma orderly_clean K now s :
  orderable_keys K = true → orderly K s →
  (_clean_expired_unsafe now s).1 = Returned tt ∧
  orderly K (_clean_expired_unsafe now s).2.
Proof.
  intros HK Ho. split.
  - by eapply _clean_expired_unsafe_returns, orderly_comparable.
  - assert (all_comparable (expiry_times s)) as Hcmp
      by by eapply orderly_comparable.
    pose proof (clean_loop_returns (length (expiry_times s)) now s Hcmp)
      as Hret.
    revert Hret.
    apply (clean_loop_rule (orderly K)); [|done].
    intros s0 e k h h' Hs _ _ Hh [Hc Hsub].
    destruct (consistent_pop s0 e k h h' Hc Hs Hh) as (d & -> & Hd).
    split; [done|]. simpl. intros k' Hk'. apply Hsub.
    rewrite Hs. simpl. right. by rewrite <- Hh.
Qed.

Lemma orderly_step K s ev :
  orderable_keys K = true →
  (∀ k a, ev.2 = SetItem k a → k ∈ K) →
  orderly K s → orderly K (step s ev).
Proof.
  intros HK Hev Ho.
  destruct ev as [now [k a|k|k dflt|k|k| | | | | ]];
    unfold step; simpl in *; try done.
  - destruct Ho as [Hc Hsub]. split; [by apply consistent_setitem|].
    unfold __setitem__.
    destruct (unpack_value_and_ttl now a) as [[value e]|]; [|done].
    simpl. intros k'. rewrite heapq_facts.heappush_perm. simpl.
    intros [->|Hk']%elem_of_cons; [by eapply Hev|]. apply Hsub.
    destruct (dict_contains k (data s)); [|done].
    rewrite without_key_keys in Hk'.
    by apply list_elem_of_filter in Hk' as [_ ?].
  - rewrite getitem_state. by apply orderly_clean.
  - rewrite get_state. by apply orderly_clean.
  - destruct Ho as [Hc Hsub]. split; [by apply consistent_delitem|].
    unfold __delitem__. destruct (dict_del k (data s)); [|done].
    simpl. intros k'. rewrite without_key_keys.
    intros [_ ?]%list_elem_of_filter. by apply Hsub.
  - by apply orderly_clean.
Qed.

Lemma orderly_run_from K s tr :
  orderable_keys K = true →
  (∀ k, k ∈ written_keys tr → k ∈ K) →
  orderly K s → orderly K (run_from s tr).
Proof.
  intros HK. revert s. induction tr as [|ev tr IH]; intros s Hsub Ho; [done|].
  simpl. apply IH.
  - intros k Hk. apply Hsub. unfold written_keys. simpl.
    destruct (match ev.2 with SetItem k0 _ => Some k0 | _ => None end);
      [by right | done].
  - apply orderly_step; [done | | done].
    intros k a Hev. apply Hsub. unfold written_keys. simpl.
    rewrite Hev. left.
Qed.

(** After a history whose keys are comparable, the index and the store
    hold the same keys and no comparison in the index raises. *)
Lemma orderly_run tr :
  orderable tr = true → orderly (written_keys tr) (run tr).
Proof.
  intros Ho. apply orderly_run_from; [done | done |].
  split; [apply consistent_init|].
  intros k Hk. by apply elem_of_nil in Hk.
Qed.

Lemma consistent_run tr : orderable tr = true → consistent (run tr).
Proof. by intros [? _]%orderly_run. Qed.

Lemma comparable_run tr :
  orderable tr = true → all_comparable (expiry_times (run tr)).
Proof. intros Ho. eapply orderly_comparable; [done | by apply orderly_run]. Qed.

(** A key comparable with those of the history compares with every pair
    of the index. *)
Lemma comparable_new_key tr k e :
  orderable_keys (k :: written_keys tr) = true →
  ∀ y, y ∈ expiry_times (run tr) → is_Some (item_ltb (e, k) y).
Proof.
  intros HK y Hy. apply comparable_item_ltb. simpl.
  rewrite orderable_keys_spec in HK. apply HK; [left|right].
  assert (orderable tr = true) as Ho.
  { unfold orderable. eapply orderable_keys_subseteq; [|by apply orderable_keys_spec].
    intros k' ?. by right. }
  apply orderly_run in Ho as [_ Hsub]. apply Hsub.
  apply list_elem_of_fmap. by exists y.
Qed.

Lemma consistent_sweeping now s s' :
  sweeping now s s' → consistent s → consistent s'.
Proof.
  induction 1 as [|s s' s'' Hcond Hbody _ IH]; [done|]. intros Hc.
  apply IH. apply clean_cond_true in Hcond as (e & k & h & Hs & He).
  destruct (clean_body_cons s e k h Hs) as (h' & Hperm & [[_ Hb]|[_ Hb]]);
    [|congruence].
  destruct (consistent_pop s e k h h' Hc Hs Hperm) as (d & Hd & Hd').
  rewrite Hb, Hd in Hbody. by simplify_eq.
Qed.

(** Every stored key has a pair in the index. *)
Lemma stored_indexed s k :
  consistent s → k ∈ (data s).*1 → ∃ e, (e, k) ∈ expiry_times s.
Proof.
  intros [_ Hperm] Hin. rewrite <- Hperm in Hin.
  apply list_elem_of_fmap in Hin as ([e k'] & -> & Hin). by exists e.
Qed.
End consistent_facts.

(** ** Where the pairs of the index come from *)

Section index_origin.
Implicit Types (s : TTLDictionary) (now : Z) (k : key) (e : deadline).

Lemma clean_index_subset now s e k :
  (e, k) ∈ expiry_times (_clean_expired_unsafe now s).2 →
  (e, k) ∈ expiry_times s.
Proof.
  revert e k.
  apply (_clean_expired_unsafe_invariant
           (λ s', ∀ e k, (e, k) ∈ expiry_times s' → (e, k) ∈ expiry_times s));
    [|done].
  intros s0 e0 k0 h h' Hs _ Hperm HP.
  split; intros e k Hin; simpl in Hin; apply HP; rewrite Hs; right;
    by rewrite <- Hperm.
Qed.

Lemma setitem_index now k a s value e0 e k' :
  unpack_value_and_ttl now a = Returned (value, e0) →
  well_formed s →
  (e, k') ∈ expiry_times (__setitem__ now k a s).2 →
  (e, k') = (e0, k) ∨ (k' ≠ k ∧ (e, k') ∈ expiry_times s).
Proof.
  intros Hun Hc. unfold __setitem__. rewrite Hun. simpl.
  rewrite heapq_facts.heappush_perm.
  intros [->|Hin]%elem_of_cons; [by left | right].
  destruct (dict_contains k (data s)) eqn:Hk.
  - by apply elem_of_without_key in Hin.
  - split; [|done]. intros ->. apply dict_contains_false in Hk.
    apply Hk. by eapply well_formed_mem.
Qed.

(** A pair present after a call was either written by that call or was
    there before, and then the call did not write its key. *)
Lemma step_index_origin s ev e k :
  well_formed s →
  (e, k) ∈ expiry_times (step s ev) →
  written_deadline k ev = Some e ∨
  (written_deadline k ev = None ∧ (e, k) ∈ expiry_times s).
Proof.
  intros Hc. destruct ev as [now [k0 a|k0|k0 dflt|k0|k0| | | | | ]];
    unfold step, written_deadline; simpl; try (by right).
  - destruct (unpack_value_and_ttl now a) as [[value e0]|err] eqn:Hun.
    + intros [Heq|[Hne Hin]]%(setitem_index _ _ _ _ value e0); [| |done..].
      * simplify_eq. left. by rewrite decide_True.
      * right. by rewrite decide_False.
    + unfold __setitem__. rewrite Hun. simpl. intros Hin. right.
      split; [by case_decide | done].
  - rewrite getitem_state. intros Hin%clean_index_subset. by right.
  - rewrite get_state. intros Hin%clean_index_subset. by right.
  - unfold __delitem__. destruct (dict_del k0 (data s)); simpl.
    + intros [_ Hin]%elem_of_without_key. by right.
    + by right.
  - intros Hin%clean_index_subset. by right.
Qed.

Lemma current_deadline_snoc tr ev k :
  current_deadline (tr ++ [ev]) k
  = match written_deadline k ev with
    | Some e => Some e
    | None => current_deadline tr k
    end.
Proof. unfold current_deadline. by rewrite fold_left_app. Qed.

(** Every pair of the index carries the current deadline of its key. *)
Lemma index_current tr e k :
  (e, k) ∈ expiry_times (run tr) → current_deadline tr k = Some e.
Proof.
  revert e k. induction tr as [|ev tr IH] using rev_ind; intros e k.
  - intros Hin. by apply elem_of_nil in Hin.
  - rewrite run_snoc, current_deadline_snoc.
    intros [->|[-> Hin]]%step_index_origin; [done | by apply IH |].
    apply well_formed_run.
Qed.
End index_origin.

(** ** What the sweep leaves in the store *)

Section sweep_store.
Implicit Types (s : TTLDictionary) (now : Z) (k : key).

(** A lookup that succeeds after the sweep succeeded before it, with the
    same value. *)
Lemma clean_get_before now s k v :
  NoDup (data s).*1 →
  dict_get k (data (_clean_expired_unsafe now s).2) = Some v →
  dict_get k (data s) = Some v.
Proof.
  intros Hnd. revert k v.
  assert (NoDup (data (_clean_expired_unsafe now s).2).*1 ∧
          ∀ k v, dict_get k (data (_clean_expired_unsafe now s).2) = Some v →
                 dict_get k (data s) = Some v) as [_ H]; [|done].
  apply (_clean_expired_unsafe_invariant
           (λ s', NoDup (data s').*1 ∧
                  ∀ k v, dict_get k (data s') = Some v →
                         dict_get k (data s) = Some v)); [|done].
  intros s0 e k0 h h' Hs He Hperm [Hnd0 Hsub]. split; [|done].
  destruct (dict_del k0 (data s0)) as [d|] eqn:Hdel; simpl; [|done].
  split.
  - apply dict_del_keys in Hdel. rewrite Hdel in Hnd0.
    by apply NoDup_cons in Hnd0 as [_ ?].
  - intros k v Hget. apply Hsub. by eapply dict_del_get_Some.
Qed.

(** A key that is not stored stays out of the store through a sweep. *)
Lemma clean_get_None now s k :
  dict_get k (data s) = None →
  dict_get k (data (_clean_expired_unsafe now s).2) = None.
Proof.
  apply (_clean_expired_unsafe_invariant
           (λ s', dict_get k (data s') = None)).
  intros s0 e k0 h h' _ _ _ Hnone. split; [|done].
  destruct (dict_del k0 (data s0)) as [d|] eqn:Hdel; simpl; [|done].
  by eapply dict_del_get_None.
Qed.

Lemma clean_length now s :
  (length (data (_clean_expired_unsafe now s).2) ≤ length (data s))%nat.
Proof.
  apply (_clean_expired_unsafe_invariant
           (λ s', (length (data s') ≤ length (data s))%nat)); [|done].
  intros s0 e k0 h h' _ _ _ Hle. split; [|done].
  destruct (dict_del k0 (data s0)) as [d|] eqn:Hdel; simpl; [|done].
  apply dict_del_length in Hdel. lia.
Qed.

Lemma clean_sublist now s :
  sublist (data (_clean_expired_unsafe now s).2) (data s).
Proof.
  apply (_clean_expired_unsafe_invariant (λ s', sublist (data s') (data s)));
    [|done].
  intros s0 e k0 h h' _ _ _ Hsub. split; [|done].
  destruct (dict_del k0 (data s0)) as [d|] eqn:Hdel; simpl; [|done].
  etrans; [by eapply dict_del_sublist | done].
Qed.
End sweep_store.

(** ** Entries held until their deadline *)

Section held_facts.
Implicit Types (s : TTLDictionary) (now : Z) (k : key) (v : pyval).

Lemma deadline_leb_finite e now : deadline_leb e now = true → e ≠ Never.
Proof. by destruct e. Qed.

(** A sweep made before the deadline of [k] keeps [k], whether it returns
    or raises. *)
Lemma held_clean k v e now s :
  deadline_leb e now = false →
  held k v e s → held k v e (_clean_expired_unsafe now s).2.
Proof.
  intros Hlive. apply (_clean_expired_unsafe_invariant (held k v e)).
  intros s0 e0 k0 h h' Hs He Hperm [Hget Hidx].
  assert (k0 ≠ k) as Hne.
  { intros ->. rewrite (Hidx e0) in He; [congruence|]. rewrite Hs. left. }
  assert (∀ e', (e', k) ∈ h' → e' = e) as Hidx'.
  { intros e' Hin. apply Hidx. rewrite Hs. right. by rewrite <- Hperm. }
  split; (split; simpl; [|done]); [|done].
  destruct (dict_del k0 (data s0)) as [d|] eqn:Hdel; simpl; [|done].
  rewrite (dict_del_get_ne _ _ _ _ Hdel); [done | congruence].
Qed.

Lemma held_setitem_other k v e now k' a s :
  k ≠ k' → held k v e s → held k v e (__setitem__ now k' a s).2.
Proof.
  intros Hne [Hget Hidx]. unfold __setitem__.
  destruct (unpack_value_and_ttl now a) as [[value e0]|]; [|done].
  split; simpl.
  - by rewrite dict_get_set_ne.
  - intros e'. rewrite heapq_facts.heappush_perm.
    intros [?|Hin]%elem_of_cons; [congruence|].
    apply Hidx. destruct (dict_contains k' (data s)); [|done].
    by apply elem_of_without_key in Hin as [_ ?].
Qed.

Lemma held_delitem_other k v e k' s :
  k ≠ k' → held k v e s → held k v e (__delitem__ k' s).2.
Proof.
  intros Hne [Hget Hidx]. unfold __delitem__.
  destruct (dict_del k' (data s)) as [d|] eqn:Hdel; [|done].
  split; simpl.
  - by rewrite (dict_del_get_ne _ _ _ _ Hdel).
  - intros e' [_ Hin]%elem_of_without_key. by apply Hidx.
Qed.

Lemma held_step k v e s ev :
  leaves_alone k ev = true → before e ev = true →
  held k v e s → held k v e (step s ev).
Proof.
  intros Hla Hbef%negb_true_iff.
  destruct ev as [now [k0 a|k0|k0 dflt|k0|k0| | | | | ]];
    unfold step, leaves_alone in *; simpl in *; intros Hh; try done.
  - apply bool_decide_eq_true in Hla. by apply held_setitem_other.
  - rewrite getitem_state. by apply held_clean.
  - rewrite get_state. by apply held_clean.
  - apply bool_decide_eq_true in Hla. by apply held_delitem_other.
  - by apply held_clean.
Qed.

Lemma held_run_from k v e s tr :
  forallb (leaves_alone k) tr = true → forallb (before e) tr = true →
  held k v e s → held k v e (run_from s tr).
Proof.
  revert s. induction tr as [|ev tr IH]; intros s Hall Hbef Hh; [done|].
  simpl in Hall, Hbef.
  apply andb_true_iff in Hall as [? ?]. apply andb_true_iff in Hbef as [? ?].
  apply IH; [done | done |]. by apply held_step.
Qed.

Lemma before_Never tr : forallb (before Never) tr = true.
Proof. by induction tr. Qed.

(** A write leaves its key with the new value and with no other pair in
    the index, even when [heappush] raises. *)
Lemma setitem_holds now k a v e s :
  well_formed s → unpack_value_and_ttl now a = Returned (v, e) →
  held k v e (__setitem__ now k a s).2.
Proof.
  intros Hc Hun. split.
  - unfold __setitem__. rewrite Hun. simpl. apply dict_get_set.
  - intros e' [?|[? _]]%(setitem_index _ _ _ _ v e); [congruence|done..].
Qed.

(** A read made before the deadline returns the value when its sweep
    returns. *)
Lemma held_getitem k v e now s :
  deadline_leb e now = false →
  (_clean_expired_unsafe now s).1 = Returned tt →
  held k v e s → (__getitem__ now k s).1 = Returned v.
Proof.
  intros Hlive Hret Hh.
  apply (held_clean _ _ _ now) in Hh as [Hget _]; [|done].
  unfold __getitem__.
  destruct (_clean_expired_unsafe now s) as [[[]|?] s']; [|done].
  simpl in *. by rewrite Hget.
Qed.

(** In a reachable state a stored key that has a pair is held with its
    current deadline. *)
Lemma stored_held tr k v :
  dict_get k (data (run tr)) = Some v →
  ∀ e, current_deadline tr k = Some e → held k v e (run tr).
Proof.
  intros Hget e Hcur. split; [done|].
  intros e' He'. apply index_current in He'. congruence.
Qed.

Lemma pysize_pos v : (0 < pysize v)%nat.
Proof. destruct v; simpl; lia. Qed.

(** A pair is never its own first component. *)
Lemma tuple_first_ne v b : PyTuple [v; b] ≠ v.
Proof.
  intros H. apply (f_equal pysize) in H. simpl in H.
  pose proof (pysize_pos b). lia.
Qed.
End held_facts.

(** ** Floats in the exact range *)

Section float_facts.

Lemma exact_pow : 2 ^ 53 < float_limit.
Proof. by vm_compute. Qed.

Lemma round53_exact z : exact z → round53 z = z.
Proof.
  intros [H1 H2]. unfold round53.
  rewrite (proj2 (Z.ltb_lt _ _)); [done | lia].
Qed.

Lemma float_of_int_exact n : exact n → float_of_int n = Returned n.
Proof.
  intros Hn. unfold float_of_int. rewrite round53_exact by done.
  pose proof exact_pow. destruct Hn.
  rewrite (proj2 (Z.leb_gt _ _)); [done | lia].
Qed.

Lemma float_add_exact x y : exact (x + y) → float_add x y = Finite (x + y).
Proof.
  intros Hs. unfold float_add. rewrite round53_exact by done.
  pose proof exact_pow. destruct Hs.
  rewrite (proj2 (Z.leb_gt _ _)) by lia.
  rewrite (proj2 (Z.leb_gt _ _)) by lia. done.
Qed.

(** A write with an integer TTL in the exact range, at a clock reading
    that keeps the sum exact, computes the deadline [now + n]. *)
Lemma unpack_exact now v n :
  exact n → exact (now + n) →
  unpack_value_and_ttl now (PyTuple [v; PyInt n])
  = Returned (v, Finite (now + n)).
Proof.
  intros Hn Hs. simpl. by rewrite float_of_int_exact, float_add_exact.
Qed.
End float_facts.

(** ** The heap order of the index *)

Section heap_order.
Implicit Types (heap : list item) (a b c : deadline).

Lemma deadline_le_refl a : deadline_le a a.
Proof. destruct a; simpl; [apply Z.ltb_irrefl | done]. Qed.

Lemma deadline_le_trans a b c :
  deadline_le a b → deadline_le b c → deadline_le a c.
Proof.
  unfold deadline_le. destruct a, b, c; simpl; try done.
  rewrite !Z.ltb_ge. lia.
Qed.

Lemma item_ltb_le (x y : item) :
  item_ltb x y = Some true → deadline_le x.1 y.1.
Proof.
  unfold item_ltb, deadline_le. case_decide as Heq.
  - intros _. rewrite Heq. apply deadline_le_refl.
  - intros ?. simplify_eq. destruct x.1, y.1; simpl in *; try done.
    rewrite Z.ltb_ge. apply Z.ltb_lt in H. lia.
Qed.

Lemma item_ltb_ge (x y : item) :
  item_ltb x y = Some false → deadline_le y.1 x.1.
Proof.
  unfold item_ltb. case_decide as Heq; [|by intros ?; simplify_eq].
  intros _. rewrite Heq. apply deadline_le_refl.
Qed.

Lemma div2_cases (n : nat) :
  n = (2 * Nat.div2 n)%nat ∨ n = (2 * Nat.div2 n + 1)%nat.
Proof.
  pose proof (Nat.div2_odd n) as H. destruct (Nat.odd n); simpl in H; lia.
Qed.

Lemma parentpos_cases (j : nat) :
  (0 < j)%nat →
  j = (2 * parentpos j + 1)%nat ∨ j = (2 * parentpos j + 2)%nat.
Proof.
  intros Hj. unfold parentpos. destruct (div2_cases (j - 1)); lia.
Qed.

Lemma parentpos_left (p : nat) : parentpos (2 * p + 1) = p.
Proof.
  unfold parentpos. replace (2 * p + 1 - 1)%nat with (2 * p)%nat by lia.
  apply Nat.div2_double.
Qed.

Lemma parentpos_right (p : nat) : parentpos (2 * p + 1 + 1) = p.
Proof.
  unfold parentpos. replace (2 * p + 1 + 1 - 1)%nat with (S (2 * p)) by lia.
  apply Nat.div2_succ_double.
Qed.

Lemma heap_ordered_spec heap :
  heap_ordered heap = true ↔
  ∀ j, (0 < j < length heap)%nat →
       deadline_le (heap !!! parentpos j).1 (heap !!! j).1.
Proof.
  unfold heap_ordered, deadline_le. rewrite forallb_forall. split.
  - intros H j Hj. apply negb_true_iff, H, in_seq. lia.
  - intros H j Hj%in_seq. apply negb_true_iff, H. lia.
Qed.
End heap_order.

(** ** The heap order through [_siftdown] and [_siftup] *)

Section sift_order.
Implicit Types (heap : list item) (newitem : item).

Lemma _siftdown_loop_ordered fuel heap pos newitem :
  (pos ≤ fuel)%nat → (pos < length heap)%nat →
  ordered_but_up (<[pos := newitem]> heap) pos →
  (heapq._siftdown_loop fuel heap 0 pos newitem).1 = Returned tt →
  heap_ordered (heapq._siftdown_loop fuel heap 0 pos newitem).2 = true.
Proof.
  revert heap pos.
  assert (∀ heap pos, (pos < length heap)%nat →
            ordered_but_up (<[pos := newitem]> heap) pos →
            (pos = 0%nat ∨
             deadline_le (heap !!! parentpos pos).1 newitem.1) →
            heap_ordered (<[pos := newitem]> heap) = true) as Hdone.
  { intros heap pos Hpos [Ha _] Hstop. apply heap_ordered_spec.
    intros j Hj. destruct (decide (j = pos)) as [->|Hne]; [|by apply Ha].
    destruct Hstop as [->|Hle]; [rewrite length_insert in Hj; lia|].
    pose proof (parentpos_cases pos ltac:(lia)). by read_lists. }
  induction fuel as [|fuel IH]; intros heap pos Hf Hpos Hup;
    cbn [heapq._siftdown_loop].
  { intros _. apply Hdone; [done | done | left; lia]. }
  case_decide as H0; [|intros _; apply Hdone; [done | done | left; lia]].
  fold (parentpos pos).
  pose proof (parentpos_cases pos H0) as Hpp.
  destruct (item_ltb newitem (heap !!! parentpos pos)) as [[]|] eqn:Hlt;
    [|intros _; apply Hdone; [done | done | right; by apply item_ltb_ge]
     |done].
  apply item_ltb_le in Hlt.
  apply IH; [lia | rewrite length_insert; lia |].
  destruct Hup as [Ha Hb]. specialize (Hb H0). split.
  - intros j Hj Hne. rewrite !length_insert in Hj.
    pose proof (parentpos_cases j ltac:(lia)) as Hpj.
    destruct (decide (j = pos)) as [->|Hjpos].
    + by read_lists.
    + specialize (Ha j). rewrite length_insert in Ha.
      specialize (Ha Hj Hjpos).
      destruct (decide (parentpos j = pos)) as [Hc|Hc].
      * specialize (Hb j). rewrite length_insert in Hb.
        specialize (Hb Hj Hc). by read_lists.
      * destruct (decide (parentpos j = parentpos pos)) as [Hs|Hs].
        -- read_lists. rewrite Hs in Ha. by eapply deadline_le_trans.
        -- by read_lists.
  - intros Hpp0 c Hc Hcp. rewrite !length_insert in Hc.
    pose proof (parentpos_cases c ltac:(lia)) as Hpc.
    pose proof (parentpos_cases (parentpos pos) Hpp0) as Hppp.
    pose proof (Ha (parentpos pos)) as Hgp. rewrite length_insert in Hgp.
    specialize (Hgp ltac:(lia) ltac:(lia)).
    destruct (decide (c = pos)) as [->|Hcpos].
    + by read_lists.
    + specialize (Ha c). rewrite length_insert in Ha.
      specialize (Ha Hc Hcpos). read_lists. rewrite Hcp in Ha.
      by eapply deadline_le_trans.
Qed.
Lemma _siftup_loop_ordered fuel heap endpos pos :
  endpos = length heap → (pos < endpos)%nat →
  ordered_but_hole heap pos →
  (heapq._siftup_loop fuel heap endpos pos).1 = Returned tt →
  ordered_but_hole (heapq._siftup_loop fuel heap endpos pos).2.1
    (heapq._siftup_loop fuel heap endpos pos).2.2.
Proof.
  revert heap pos.
  induction fuel as [|fuel IH]; intros heap pos Hend Hpos Hole;
    cbn [heapq._siftup_loop]; [done|].
  case_decide as Hchild; [|done].
  set (smaller :=
         if decide (2 * pos + 1 + 1 < endpos)%nat
         then match item_ltb (heap !!! (2 * pos + 1)%nat)
                      (heap !!! (2 * pos + 1 + 1)%nat) with
              | Some true => Some (2 * pos + 1)%nat
              | Some false => Some (2 * pos + 1 + 1)%nat
              | None => None
              end
         else Some (2 * pos + 1)%nat).
  destruct smaller as [c|] eqn:Hsm; [|done].
  assert (parentpos c = pos ∧ (c < endpos)%nat ∧ (pos < c)%nat ∧
          ∀ j, (j < endpos)%nat → parentpos j = pos → (0 < j)%nat →
               deadline_le (heap !!! c).1 (heap !!! j).1)
    as (Hpc & Hc & Hposc & Hmin).
  { assert (∀ j, parentpos j = pos → (0 < j)%nat →
              j = (2 * pos + 1)%nat ∨ j = (2 * pos + 1 + 1)%nat) as Hkids.
    { intros j Hpj H0. destruct (parentpos_cases j H0); lia. }
    unfold smaller in Hsm. case_decide as Hr.
    - destruct (item_ltb _ _) as [[]|] eqn:Hlt; simplify_eq.
      + split_and!; [apply parentpos_left | lia | lia |].
        intros j Hj Hpj H0. apply item_ltb_le in Hlt.
        destruct (Hkids j Hpj H0) as [->| ->]; [apply deadline_le_refl|done].
      + split_and!; [apply parentpos_right | lia | lia |].
        intros j Hj Hpj H0. apply item_ltb_ge in Hlt.
        destruct (Hkids j Hpj H0) as [->| ->]; [done|apply deadline_le_refl].
    - simplify_eq. split_and!; [apply parentpos_left | lia | lia |].
      intros j Hj Hpj H0.
      destruct (Hkids j Hpj H0) as [->| ->]; [apply deadline_le_refl | lia]. }
  clear Hsm smaller.
  apply IH; [by rewrite length_insert | done |].
  destruct Hole as [Ha Hb]. subst endpos. split.
  - intros j Hj Hne Hpne. rewrite length_insert in Hj.
    pose proof (parentpos_cases j ltac:(lia)) as Hpj.
    destruct (decide (j = pos)) as [->|Hjpos].
    + specialize (Hb ltac:(lia) c ltac:(lia) Hpc). by read_lists.
    + destruct (decide (parentpos j = pos)) as [Hjc|Hjc].
      * specialize (Hmin j ltac:(lia) Hjc ltac:(lia)). by read_lists.
      * specialize (Ha j Hj Hjpos Hjc). by read_lists.
  - intros H0 d Hd Hpd. rewrite length_insert in Hd.
    pose proof (parentpos_cases d ltac:(lia)) as Hpdc.
    specialize (Ha d Hd ltac:(lia) ltac:(lia)). rewrite Hpd in Ha.
    rewrite Hpc. by read_lists.
Qed.

(** [_siftup] at the root, when it returns, repairs a list whose only
    disorder is its first element. *)
Lemma _siftup_ordered heap :
  (0 < length heap)%nat → ordered_but_hole heap 0 →
  (heapq._siftup heap 0).1 = Returned tt →
  heap_ordered (heapq._siftup heap 0).2 = true.
Proof.
  intros Hlen Hole. unfold heapq._siftup.
  pose proof (heapq_facts._siftup_loop_spec (length heap) heap (length heap) 0
                eq_refl Hlen) as (Hlt & Hlen' & _).
  pose proof (heapq_facts._siftup_loop_done (length heap) heap (length heap) 0
                ltac:(lia)) as Hleaf.
  pose proof (_siftup_loop_ordered (length heap) heap (length heap) 0
                eq_refl Hlen Hole) as Hord.
  destruct (heapq._siftup_loop _ _ _ _) as [o [heap' pos']]; simpl in *.
  destruct o as [[]|]; [|done].
  destruct (Hord eq_refl) as [Ha Hb]. specialize (Hleaf eq_refl).
  unfold heapq._siftdown.
  rewrite list_lookup_total_insert_eq by lia.
  apply _siftdown_loop_ordered; [done | rewrite length_insert; lia |].
  rewrite list_insert_insert_eq. split.
  - intros j Hj Hne. rewrite length_insert in Hj.
    pose proof (parentpos_cases j ltac:(lia)) as Hpj.
    specialize (Ha j Hj Hne ltac:(lia)). by read_lists.
  - intros _ c Hc Hpc. rewrite length_insert in Hc.
    pose proof (parentpos_cases c ltac:(lia)). lia.
Qed.

Lemma removelast_lookup_total heap (j : nat) :
  (j < length heap - 1)%nat → removelast heap !!! j = heap !!! j.
Proof.
  intros Hj. rewrite removelast_firstn_len.
  apply lookup_total_take_lt. lia.
Qed.

Lemma removelast_length heap : length (removelast heap) = (length heap - 1)%nat.
Proof. rewrite removelast_firstn_len, length_take. lia. Qed.

(** A [heappop] that returns keeps a heap-ordered list heap-ordered. *)
Lemma heappop_ordered heap it heap' :
  heap_ordered heap = true → heapq.heappop heap = (Returned it, heap') →
  heap_ordered heap' = true.
Proof.
  intros Hord. unfold heapq.heappop.
  destruct (last heap) as [lastelt|]; [|done].
  pose proof (removelast_length heap) as Hlen.
  pose proof (removelast_lookup_total heap) as Hlk.
  destruct (removelast heap) as [|returnitem rest] eqn:Hrem;
    [by intros ?; simplify_eq|].
  pose proof (_siftup_ordered (<[0%nat := lastelt]> (returnitem :: rest)))
    as Hsift.
  destruct (heapq._siftup _ _) as [[[]|] h]; intros ?; simplify_eq.
  apply Hsift; [rewrite length_insert; simpl; lia | | done].
  rewrite heap_ordered_spec in Hord. split; [|lia].
  intros j Hj Hne Hpne. rewrite length_insert in Hj.
  pose proof (parentpos_cases j ltac:(lia)) as Hpj.
  rewrite !list_lookup_total_insert_ne by lia.
  rewrite !Hlk by lia. apply Hord. lia.
Qed.

(** A [heappush] that returns keeps a heap-ordered list heap-ordered. *)
Lemma heappush_ordered heap it :
  heap_ordered heap = true → (heapq.heappush heap it).1 = Returned tt →
  heap_ordered (heapq.heappush heap it).2 = true.
Proof.
  intros Hord. rewrite heap_ordered_spec in Hord.
  unfold heapq.heappush, heapq._siftdown.
  rewrite length_app. simpl.
  replace (length heap + 1 - 1)%nat with (length heap) by lia.
  apply _siftdown_loop_ordered; [done | rewrite length_app; simpl; lia |].
  rewrite list_insert_id
    by (apply list_lookup_lookup_total_lt; rewrite length_app; simpl; lia).
  split.
  - intros j Hj Hne. rewrite length_app in Hj. simpl in Hj.
    pose proof (parentpos_cases j ltac:(lia)) as Hpj.
    rewrite !lookup_total_app_l by lia. apply Hord. lia.
  - intros _ c Hc Hpc. rewrite length_app in Hc. simpl in Hc.
    pose proof (parentpos_cases c ltac:(lia)). lia.
Qed.

(** In a heap-ordered list no pair expires before the first one. *)
Lemma heap_ordered_first heap (i : nat) :
  heap_ordered heap = true → (i < length heap)%nat →
  deadline_le (heap !!! 0%nat).1 (heap !!! i).1.
Proof.
  intros Hord. rewrite heap_ordered_spec in Hord.
  induction (lt_wf i) as [i _ IH]. intros Hi.
  destruct (decide (i = 0%nat)) as [->|Hne]; [apply deadline_le_refl|].
  pose proof (parentpos_cases i ltac:(lia)) as Hp.
  apply (deadline_le_trans _ (heap !!! parentpos i).1);
    [apply IH; lia | apply Hord; lia].
Qed.
End sift_order.


(** ** The sweep on a heap-ordered index *)

Section sweep_order.
Implicit Types (s : TTLDictionary) (now : Z) (k : key) (K : list key).

Lemma deadline_leb_mono a b now :
  deadline_le a b → deadline_leb a now = false → deadline_leb b now = false.
Proof.
  unfold deadline_le. destruct a, b; simpl; try done.
  rewrite Z.ltb_ge, !Z.leb_gt. lia.
Qed.

(** A sweep that returns keeps the heap order. *)
Lemma clean_keeps_order now s :
  heap_ordered (expiry_times s) = true →
  (_clean_expired_unsafe now s).1 = Returned tt →
  heap_ordered (expiry_times (_clean_expired_unsafe now s).2) = true.
Proof.
  apply (clean_loop_rule
           (λ s', heap_ordered (expiry_times s') = true)).
  intros s0 e k h h' _ _ Hpop _ Hord. simpl. by eapply heappop_ordered.
Qed.

(** A sweep that returns keeps the keys of the index those of the store. *)
Lemma consistent_clean now s :
  consistent s → (_clean_expired_unsafe now s).1 = Returned tt →
  consistent (_clean_expired_unsafe now s).2.
Proof.
  apply (clean_loop_rule consistent).
  intros s0 e k h h' Hs _ _ Hh Hc.
  by destruct (consistent_pop s0 e k h h' Hc Hs Hh) as (d & -> & Hd).
Qed.

(** On a heap-ordered index a sweep that returns leaves no pair that is
    due. *)
Lemma clean_complete now s e k :
  heap_ordered (expiry_times s) = true →
  (_clean_expired_unsafe now s).1 = Returned tt →
  (e, k) ∈ expiry_times (_clean_expired_unsafe now s).2 →
  deadline_leb e now = false.
Proof.
  intros Hord Hret Hin.
  pose proof (clean_keeps_order now s Hord Hret) as Hord'.
  pose proof (_clean_expired_unsafe_exit now s Hret) as Hexit.
  unfold clean_cond in Hexit.
  apply list_elem_of_lookup_total in Hin as (i & Hi & Hlk).
  pose proof (heap_ordered_first _ i Hord' Hi) as Hfirst.
  rewrite Hlk in Hfirst. simpl in Hfirst.
  destruct (expiry_times (_clean_expired_unsafe now s).2) as [|[e0 k0] h];
    [simpl in Hi; lia|].
  by apply (deadline_leb_mono e0).
Qed.

(** Pushing a pair whose key is comparable with the keys of the list
    returns. *)
Lemma heappush_comparable K (heap : list item) e k :
  orderable_keys K = true → k ∈ K → (∀ k', k' ∈ heap.*2 → k' ∈ K) →
  (heapq.heappush heap (e, k)).1 = Returned tt.
Proof.
  intros HK Hk Hsub. apply heapq_facts.heappush_returns.
  intros y Hy. apply comparable_item_ltb. simpl.
  rewrite orderable_keys_spec in HK. apply HK; [done|].
  apply Hsub, list_elem_of_fmap. by exists y.
Qed.

Lemma keeps_order_step K s ev :
  orderable_keys K = true →
  (∀ k a, ev.2 = SetItem k a → k ∈ K) →
  orderly K s →
  keeps_order s ev = true → heap_ordered (expiry_times s) = true →
  heap_ordered (expiry_times (step s ev)) = true.
Proof.
  intros HK Hev Ho.
  destruct ev as [now [k0 a|k0|k0 dflt|k0|k0| | | | | ]];
    unfold step, keeps_order; simpl in *; intros Hk Hord; try done.
  - unfold __setitem__.
    destruct (unpack_value_and_ttl now a) as [[value e0]|]; [|done].
    apply negb_true_iff in Hk. rewrite Hk. simpl.
    apply heappush_ordered; [done|].
    destruct Ho as [_ Hsub]. eapply heappush_comparable; [done | | done].
    by eapply Hev.
  - rewrite getitem_state. apply clean_keeps_order; [done|].
    by eapply orderly_clean.
  - rewrite get_state. apply clean_keeps_order; [done|].
    by eapply orderly_clean.
  - apply negb_true_iff, dict_contains_false, dict_del_None in Hk.
    unfold __delitem__. by rewrite Hk.
  - apply clean_keeps_order; [done|]. by eapply orderly_clean.
Qed.

Lemma no_rebuild_run_from K s tr :
  orderable_keys K = true →
  (∀ k, k ∈ written_keys tr → k ∈ K) →
  orderly K s →
  no_rebuild s tr = true → heap_ordered (expiry_times s) = true →
  heap_ordered (expiry_times (run_from s tr)) = true.
Proof.
  intros HK. revert s.
  induction tr as [|ev tr IH]; intros s Hsub Ho Hnr Hord; [done|].
  simpl in Hnr. apply andb_true_iff in Hnr as [Hev Hnr].
  assert (∀ k a, ev.2 = SetItem k a → k ∈ K) as Hevk.
  { intros k a Heq. apply Hsub. unfold written_keys. simpl.
    rewrite Heq. left. }
  simpl. apply IH; [| by apply orderly_step | done |
                    by eapply keeps_order_step].
  intros k Hk. apply Hsub. unfold written_keys. simpl.
  destruct (match ev.2 with SetItem k0 _ => Some k0 | _ => None end);
    [by right | done].
Qed.

(** A history of comparable keys that rebuilds nothing keeps the index
    heap-ordered. *)
Lemma no_rebuild_run tr :
  orderable tr = true → no_rebuild __init__ tr = true →
  heap_ordered (expiry_times (run tr)) = true.
Proof.
  intros Ho Hnr.
  apply (no_rebuild_run_from (written_keys tr)); try done.
  split; [apply consistent_init|].
  intros k Hk. by apply elem_of_nil in Hk.
Qed.
End sweep_order.

(** ** Writes *)

Section write_facts.
Implicit Types (s : TTLDictionary) (now : Z) (k : key) (v : pyval).

(** The three ways an argument is unpacked. *)
Lemma unpack_inv now a v e :
  unpack_value_and_ttl now a = Returned (v, e) →
  (is_tuple a = false ∧ v = a ∧ e = Never) ∨
  (a = PyTuple [v; PyNone] ∧ e = Never) ∨
  (∃ n f, a = PyTuple [v; PyInt n] ∧ float_of_int n = Returned f ∧
          e = float_add now f).
Proof.
  destruct a as [|n|str|items]; simpl;
    try (intros ?; simplify_eq; by left).
  destruct items as [|v0 [|b [|]]]; try done.
  destruct b as [|n|str|items']; try done.
  - intros ?. simplify_eq. by right; left.
  - destruct (float_of_int n) as [f|] eqn:Hf; [|done].
    intros ?. simplify_eq. right; right. by exists n, f.
Qed.

(** A write that got past the unpacking of its argument has stored the
    value and the pair, whether [heappush] raised or not. *)
Lemma setitem_stored now k a v e s :
  unpack_value_and_ttl now a = Returned (v, e) →
  dict_get k (data (__setitem__ now k a s).2) = Some v ∧
  (e, k) ∈ expiry_times (__setitem__ now k a s).2.
Proof.
  intros Hun. unfold __setitem__. rewrite Hun. simpl. split.
  - apply dict_get_set.
  - rewrite heapq_facts.heappush_perm. left.
Qed.

Lemma setitem_only now k a v e s e' :
  unpack_value_and_ttl now a = Returned (v, e) →
  well_formed s →
  (e', k) ∈ expiry_times (__setitem__ now k a s).2 → e' = e.
Proof.
  intros Hun Hwf [?|[? _]]%(setitem_index _ _ _ _ v e);
    [congruence | done | done | done].
Qed.

Lemma setitem_outcome now k a v e s :
  unpack_value_and_ttl now a = Returned (v, e) →
  (__setitem__ now k a s).1 = Returned tt ∨
  (__setitem__ now k a s).1 = Raised TypeError.
Proof.
  intros Hun. unfold __setitem__. rewrite Hun. simpl.
  apply heapq_facts.heappush_outcome.
Qed.

(** A write whose argument cannot be unpacked changes nothing. *)
Lemma setitem_unpack_raises now k a err s :
  unpack_value_and_ttl now a = Raised err →
  __setitem__ now k a s = (Raised err, s).
Proof. intros Hun. unfold __setitem__. by rewrite Hun. Qed.

(** A write of a key comparable with the keys written before returns. *)
Lemma setitem_returns tr now k a v e :
  unpack_value_and_ttl now a = Returned (v, e) →
  orderable_keys (k :: written_keys tr) = true →
  (__setitem__ now k a (run tr)).1 = Returned tt.
Proof.
  intros Hun HK. unfold __setitem__. rewrite Hun. simpl.
  apply heapq_facts.heappush_returns. intros y Hy.
  apply (comparable_new_key tr k e HK).
  destruct (dict_contains k (data (run tr))); [|done].
  destruct y as [e' k']. by apply elem_of_without_key in Hy as [_ ?].
Qed.

Lemma orderable_cons_middle tr t k a tr' :
  orderable (tr ++ (t, SetItem k a) :: tr') = true →
  orderable_keys (k :: written_keys tr) = true.
Proof.
  unfold orderable. rewrite written_keys_app.
  apply orderable_keys_subseteq. intros k' Hk'.
  apply elem_of_app. apply elem_of_cons in Hk' as [->|Hk'].
  - right. unfold written_keys. simpl. left.
  - by left.
Qed.
End write_facts.

(** ** Reads *)

Section read_facts.
Implicit Types (s : TTLDictionary) (now : Z) (k : key) (v : pyval).

(** A read raises nothing but [KeyError] and [TypeError]. *)
Lemma getitem_outcome now k s :
  (∃ v, (__getitem__ now k s).1 = Returned v) ∨
  (__getitem__ now k s).1 = Raised KeyError ∨
  (__getitem__ now k s).1 = Raised TypeError.
Proof.
  unfold __getitem__.
  destruct (_clean_expired_unsafe_outcome now s) as [Hr|Hr];
    destruct (_clean_expired_unsafe now s) as [[[]|err] s'];
    simpl in Hr; simplify_eq.
  - destruct (dict_get k (data s')); simpl; eauto.
  - simpl. by right; right.
Qed.

(** A key held with a deadline after [now] is read back, unless the sweep
    of the read raises. *)
Lemma held_getitem_cases k v e now s :
  deadline_leb e now = false → held k v e s →
  (__getitem__ now k s).1 = Returned v ∨
  (__getitem__ now k s).1 = Raised TypeError.
Proof.
  intros He Hh.
  destruct (_clean_expired_unsafe_outcome now s) as [Hr|Hr].
  - left. by eapply held_getitem.
  - right. unfold __getitem__.
    by destruct (_clean_expired_unsafe now s) as [[[]|err] s'];
      simpl in Hr; simplify_eq.
Qed.

Lemma absent_step k s ev :
  leaves_alone k ev = true →
  dict_get k (data s) = None → dict_get k (data (step s ev)) = None.
Proof.
  destruct ev as [now [k0 a|k0|k0 dflt|k0|k0| | | | | ]];
    unfold step, leaves_alone; simpl; intros Hla Hnone; try done.
  - apply bool_decide_eq_true in Hla. unfold __setitem__.
    destruct (unpack_value_and_ttl now a) as [[value e0]|]; [|done].
    simpl. by rewrite dict_get_set_ne.
  - rewrite getitem_state. by apply clean_get_None.
  - rewrite get_state. by apply clean_get_None.
  - unfold __delitem__.
    destruct (dict_del k0 (data s)) as [d|] eqn:Hdel; [|done].
    simpl. by eapply dict_del_get_None.
  - by apply clean_get_None.
Qed.

Lemma absent_run_from k s tr :
  forallb (leaves_alone k) tr = true →
  dict_get k (data s) = None → dict_get k (data (run_from s tr)) = None.
Proof.
  revert s. induction tr as [|ev tr IH]; intros s Hall Hnone; [done|].
  simpl in Hall. apply andb_true_iff in Hall as [? ?].
  apply IH; [done|]. by apply absent_step.
Qed.

Lemma current_value_snoc tr ev k :
  current_value (tr ++ [ev]) k
  = match written_value k ev with
    | Some v => Some v
    | None => current_value tr k
    end.
Proof. unfold current_value. by rewrite fold_left_app. Qed.

Lemma step_value_origin s ev k v :
  well_formed s →
  dict_get k (data (step s ev)) = Some v →
  written_value k ev = Some v ∨
  (written_value k ev = None ∧ dict_get k (data s) = Some v).
Proof.
  intros (Hnd & _ & _). destruct ev as [now [k0 a|k0|k0 dflt|k0|k0| | | | | ]];
    unfold step, written_value; simpl; try (by right).
  - unfold __setitem__.
    destruct (unpack_value_and_ttl now a) as [[value e0]|err] eqn:Hun; simpl.
    + case_decide as Hk.
      * subst k0. rewrite dict_get_set. intros ?. simplify_eq. by left.
      * rewrite dict_get_set_ne by done. by right.
    + intros Hget. right. split; [by case_decide | done].
  - rewrite getitem_state. intros Hget%clean_get_before; [by right | done].
  - rewrite get_state. intros Hget%clean_get_before; [by right | done].
  - unfold __delitem__.
    destruct (dict_del k0 (data s)) as [d|] eqn:Hdel; simpl; [|by right].
    intros Hget. right. split; [done|]. by eapply dict_del_get_Some.
  - intros Hget%clean_get_before; [by right | done].
Qed.
End read_facts.

(** ** Floats beyond 53 bits *)

Section float_range.

Lemma round53_neg z : round53 (- z) = - round53 z.
Proof.
  unfold round53. rewrite Z.abs_opp, Z.sgn_opp.
  destruct (Z.abs z <? 2 ^ 53); [done|]. cbv zeta. lia.
Qed.

Lemma round53_big a :
  2 ^ 53 ≤ a →
  ∃ q', round53 a = q' * 2 ^ (Z.log2 a - 52) ∧
        a / 2 ^ (Z.log2 a - 52) ≤ q' ≤ a / 2 ^ (Z.log2 a - 52) + 1.
Proof.
  intros Ha. unfold round53.
  assert (0 < a) as Hpos by (pose proof (Z.pow_pos_nonneg 2 53); lia).
  rewrite (Z.abs_eq a) by lia.
  destruct (a <? 2 ^ 53) eqn:Hlt; [apply Z.ltb_lt in Hlt; lia|].
  cbv zeta. rewrite (Z.sgn_pos a) by done.
  set (e := Z.log2 a - 52). set (q := a / 2 ^ e).
  eexists. split; [by rewrite Z.mul_1_l|].
  repeat case_match; lia.
Qed.

Lemma log2_big a : 2 ^ 53 ≤ a → 53 ≤ Z.log2 a.
Proof. intros Ha. apply Z.log2_le_pow2; lia. Qed.

(** The rounding of [a = q * 2 ^ e + r] when [a] has [e + 53] bits. *)
Lemma round53_at a e q r :
  2 ^ 53 ≤ a → Z.log2 a = e + 52 → a = q * 2 ^ e + r → 0 ≤ r < 2 ^ e →
  (round53 a = q * 2 ^ e ∨ round53 a = (q + 1) * 2 ^ e) ∧
  (2 * r < 2 ^ e → round53 a = q * 2 ^ e) ∧
  (2 ^ e < 2 * r → round53 a = (q + 1) * 2 ^ e).
Proof.
  intros Ha Hlog Hqr Hr. unfold round53.
  assert (0 < a) as Hpos by (pose proof (Z.pow_pos_nonneg 2 53); lia).
  rewrite (Z.abs_eq a) by lia.
  destruct (a <? 2 ^ 53) eqn:Hlt; [apply Z.ltb_lt in Hlt; lia|].
  cbv zeta. rewrite (Z.sgn_pos a) by done. rewrite Hlog.
  replace (e + 52 - 52) with e by lia.
  assert (1 ≤ e) as He by (pose proof (log2_big a Ha); lia).
  assert (a / 2 ^ e = q) as ->.
  { symmetry. apply (Z.div_unique a (2 ^ e) q r); [left; lia | lia]. }
  assert (a mod 2 ^ e = r) as ->.
  { symmetry. apply (Z.mod_unique a (2 ^ e) q r); [left; lia | lia]. }
  assert (2 ^ e = 2 * 2 ^ (e - 1)) as Hhalf.
  { rewrite <- Z.pow_succ_r by lia. f_equal. lia. }
  rewrite !Z.mul_1_l.
  destruct (r <? 2 ^ (e - 1)) eqn:H1;
    [apply Z.ltb_lt in H1 | apply Z.ltb_ge in H1].
  { split_and!; [by left | done | lia]. }
  destruct (2 ^ (e - 1) <? r) eqn:H2;
    [apply Z.ltb_lt in H2 | apply Z.ltb_ge in H2].
  { split_and!; [by right | lia | done]. }
  destruct (Z.even q); split_and!; try lia; (by left) || (by right).
Qed.

(** Every integer of 54 bits or more lies between two multiples of the
    unit in its last place. *)
Lemma round53_split a :
  2 ^ 53 ≤ a →
  ∃ e q r, Z.log2 a = e + 52 ∧ a = q * 2 ^ e + r ∧ 0 ≤ r < 2 ^ e ∧
           1 ≤ e ∧ 2 ^ 52 ≤ q < 2 ^ 53.
Proof.
  intros Ha.
  assert (0 < a) as Hpos by (pose proof (Z.pow_pos_nonneg 2 53); lia).
  pose proof (log2_big a Ha) as Hlog.
  set (e := Z.log2 a - 52).
  assert (0 < 2 ^ e) as He by (apply Z.pow_pos_nonneg; lia).
  exists e, (a / 2 ^ e), (a mod 2 ^ e).
  pose proof (Z.div_mod a (2 ^ e) ltac:(lia)) as Hdm.
  pose proof (Z.mod_pos_bound a (2 ^ e) He) as Hmod.
  pose proof (Z.log2_spec a Hpos) as [Hlo Hhi].
  assert (2 ^ Z.log2 a = 2 ^ 52 * 2 ^ e) as Hp1.
  { rewrite <- Z.pow_add_r by lia. f_equal. lia. }
  assert (2 ^ Z.succ (Z.log2 a) = 2 ^ 53 * 2 ^ e) as Hp2.
  { rewrite <- Z.pow_add_r by lia. f_equal. lia. }
  split_and!; try lia.
  - apply Z.div_le_lower_bound; lia.
  - apply Z.div_lt_upper_bound; lia.
Qed.

(** Rounding keeps the number of bits or reaches the next power of two. *)
Lemma round53_bounds a :
  2 ^ 53 ≤ a → 2 ^ Z.log2 a ≤ round53 a ≤ 2 ^ (Z.log2 a + 1).
Proof.
  intros Ha.
  destruct (round53_split a Ha) as (e & q & r & Hlog & Hqr & Hr & He & Hq).
  destruct (round53_at a e q r Ha Hlog Hqr Hr) as [Hcases _].
  assert (0 < 2 ^ e) as Hpe by (apply Z.pow_pos_nonneg; lia).
  assert (2 ^ Z.log2 a = 2 ^ 52 * 2 ^ e) as ->.
  { rewrite <- Z.pow_add_r by lia. f_equal. lia. }
  assert (2 ^ (Z.log2 a + 1) = 2 ^ 53 * 2 ^ e) as ->.
  { rewrite <- Z.pow_add_r by lia. f_equal. lia. }
  destruct Hcases as [-> | ->]; nia.
Qed.

Lemma float_of_int_overflow n :
  float_limit ≤ Z.abs n → float_of_int n = Raised OverflowError.
Proof.
  intros Hn. unfold float_of_int.
  assert (float_limit ≤ Z.abs (round53 n)) as Hr; [|by apply Z.leb_le in Hr as ->].
  assert (∀ a, float_limit ≤ a → float_limit ≤ round53 a) as Hpos.
  { intros a Ha. pose proof exact_pow.
    pose proof (round53_bounds a ltac:(lia)) as [Hlo _].
    etrans; [|exact Hlo]. unfold float_limit.
    apply Z.pow_le_mono_r; [lia|]. apply Z.log2_le_pow2; [|done].
    unfold float_limit in *. lia. }
  destruct (Z.abs_spec n) as [[? Heq]|[? Heq]]; rewrite Heq in Hn.
  - specialize (Hpos n Hn). lia.
  - specialize (Hpos (- n) Hn). rewrite round53_neg in Hpos. lia.
Qed.

Lemma round53_nonpos z : z ≤ 0 → round53 z ≤ 0.
Proof.
  intros Hz. destruct (decide (- 2 ^ 53 < z)) as [Hs|Hb].
  - rewrite round53_exact; [done|]. split; [done|].
    pose proof (Z.pow_pos_nonneg 2 53). lia.
  - pose proof (round53_bounds (- z) ltac:(lia)) as [Hlo _].
    rewrite round53_neg in Hlo.
    pose proof (Z.pow_nonneg 2 (Z.log2 (- z))). lia.
Qed.

(** Next to the largest floats a clock reading is less than half a unit
    in the last place: adding it changes nothing. *)
Lemma round53_top m now :
  2 ^ 52 ≤ m < 2 ^ 53 → exact now → 2 ^ 1023 ≤ now + m * 2 ^ 971 →
  round53 (now + m * 2 ^ 971) = m * 2 ^ 971.
Proof.
  intros Hm [Hlo Hhi] Hx.
  assert (Z.log2 (now + m * 2 ^ 971) = 971 + 52) as Hlog.
  { apply Z.log2_unique; [lia|]. split; [lia|].
    replace (971 + 52 + 1) with 1024 by lia. lia. }
  destruct (decide (0 ≤ now)) as [Hn|Hn].
  - destruct (round53_at (now + m * 2 ^ 971) 971 m now) as (_ & H & _);
      [lia | done | lia | lia |].
    apply H. lia.
  - destruct (round53_at (now + m * 2 ^ 971) 971 (m - 1) (2 ^ 971 + now))
      as (_ & _ & H); [lia | done | lia | lia |].
    rewrite H by lia. f_equal. lia.
Qed.

(** With a clock reading below [2 ** 53] the sum of the clock and a TTL is
    never infinite. *)
Lemma float_add_finite now n f :
  exact now → float_of_int n = Returned f → float_add now f ≠ Never.
Proof.
  intros Hnow. unfold float_of_int.
  destruct (float_limit <=? Z.abs (round53 n)) eqn:Hlim; [done|].
  intros ?. simplify_eq. apply Z.leb_gt in Hlim.
  assert (round53 (now + round53 n) < float_limit) as Hfin;
    [|unfold float_add; cbv zeta;
      apply Z.leb_gt in Hfin as ->; by case_match].
  pose proof exact_pow as Hpow. unfold float_limit in *.
  set (f := round53 n) in *. destruct Hnow as [Hlo Hhi].
  destruct (decide (now + f < 2 ^ 53)) as [Hsmall|Hbig].
  { destruct (decide (- 2 ^ 53 < now + f)) as [Hs|Hs].
    - rewrite round53_exact; [lia | by split].
    - pose proof (round53_nonpos (now + f) ltac:(lia)). lia. }
  pose proof (round53_bounds (now + f) ltac:(lia)) as [_ Hup].
  destruct (decide (Z.log2 (now + f) ≤ 1022)) as [Hl|Hl].
  { assert (2 ^ (Z.log2 (now + f) + 1) ≤ 2 ^ 1023)
      by (apply Z.pow_le_mono_r; lia).
    lia. }
  assert (2 ^ 1023 ≤ now + f) as Hx.
  { pose proof (Z.log2_spec (now + f) ltac:(lia)) as [Hspec _].
    etrans; [|exact Hspec]. apply Z.pow_le_mono_r; lia. }
  assert (2 ^ 53 ≤ n) as Hn.
  { apply Z.nlt_ge. intros Hn. subst f.
    destruct (decide (- 2 ^ 53 < n)) as [Hs|Hs].
    - rewrite round53_exact in Hx by (by split). lia.
    - pose proof (round53_nonpos n ltac:(lia)). lia. }
  destruct (round53_split n Hn) as (e & q & r & Hlog & Hqr & Hr & He & Hq).
  destruct (round53_at n e q r Hn Hlog Hqr Hr) as [Hcases _].
  assert (∃ m, f = m * 2 ^ e ∧ 2 ^ 52 ≤ m ≤ 2 ^ 53) as (m & Hf & Hm).
  { destruct Hcases as [Hc|Hc]; eexists; (split; [exact Hc | lia]). }
  assert (0 < 2 ^ e) as Hpe by (apply Z.pow_pos_nonneg; lia).
  rewrite (Z.abs_eq f) in Hlim by lia.
  assert (970 ≤ e ≤ 971) as Hrange.
  { split.
    - apply Z.nlt_ge. intros Hlt.
      assert (2 ^ e ≤ 2 ^ 969) by (apply Z.pow_le_mono_r; lia).
      assert (m * 2 ^ e ≤ 2 ^ 53 * 2 ^ 969) by nia.
      lia.
    - apply Z.nlt_ge. intros Hlt.
      assert (2 ^ 972 ≤ 2 ^ e) by (apply Z.pow_le_mono_r; lia).
      assert (2 ^ 52 * 2 ^ 972 ≤ m * 2 ^ e) by nia.
      lia. }
  assert (e = 970 ∨ e = 971) as [-> | ->] by lia.
  - assert (m = 2 ^ 53) as -> by lia.
    assert (f = 2 ^ 52 * 2 ^ 971) as Hf' by lia.
    rewrite Hf'. rewrite round53_top; [lia | lia | by split | lia].
  - rewrite Hf. rewrite round53_top; [lia | lia | by split | lia].
Qed.

(** The conversion raises nothing but [OverflowError], and only from
    [2 ** 1023] on. *)
Lemma float_of_int_raises n err :
  float_of_int n = Raised err → err = OverflowError ∧ 2 ^ 1023 ≤ Z.abs n.
Proof.
  unfold float_of_int.
  destruct (float_limit <=? Z.abs (round53 n)) eqn:Hlim; [|done].
  intros ?. simplify_eq. split; [done|]. apply Z.leb_le in Hlim.
  pose proof exact_pow as Hpow. unfold float_limit in *.
  assert (∀ a, 0 ≤ a → 2 ^ 1024 ≤ round53 a → 2 ^ 1023 ≤ a) as Hpos.
  { intros a Ha Hr. destruct (decide (a < 2 ^ 53)) as [Hs|Hb].
    - rewrite round53_exact in Hr by (split; lia). lia.
    - pose proof (round53_bounds a ltac:(lia)) as [_ Hup].
      pose proof (Z.log2_spec a ltac:(lia)) as [Hspec _].
      etrans; [|exact Hspec]. apply Z.pow_le_mono_r; [lia|].
      apply Z.nlt_ge. intros Hlt.
      assert (2 ^ (Z.log2 a + 1) ≤ 2 ^ 1023)
        by (apply Z.pow_le_mono_r; lia).
      lia. }
  destruct (Z.abs_spec n) as [[? Heq]|[? Heq]]; rewrite Heq.
  - apply Hpos; [done|].
    pose proof (round53_nonpos (- n) ltac:(lia)) as Hle.
    rewrite round53_neg in Hle. lia.
  - apply Hpos; [lia|]. rewrite round53_neg.
    pose proof (round53_nonpos n ltac:(lia)). lia.
Qed.
End float_range.

(** * The claims *)

(** ** C1: the sweep and the keys it should remove *)

(** C1.  Sweep completeness does not hold on the code.  Keys [a], [b]
    and [c] are written at time 0 with TTLs 1, 5 and 2, and [a] is deleted
    at once.  The list comprehension of [__delitem__] leaves the list
    [[(5, b); (2, c)]], which is no longer a heap.  The collector rounds at
    times 1 to 4 and the sweep inside [d["c"]] at time 4 only look at the
    first pair, whose deadline 5 is in the future: the pair [(2, c)] stays
    in the index, [c] stays in the store with deadline 2 <= 4, and
    [d["c"]] returns its value instead of raising [KeyError]. *)
Theorem sweep_misses_expired_key :
  clock_ok 0
    [(0, SetItem (KStr "a") (PyTuple [PyStr "x"; PyInt 1]));
     (0, SetItem (KStr "b") (PyTuple [PyStr "y"; PyInt 5]));
     (0, SetItem (KStr "c") (PyTuple [PyStr "z"; PyInt 2]));
     (0, DelItem (KStr "a"));
     (1, Collect); (2, Collect); (3, Collect); (4, Collect);
     (4, GetItem (KStr "c"))] = true ∧
  expired
    [(0, SetItem (KStr "a") (PyTuple [PyStr "x"; PyInt 1]));
     (0, SetItem (KStr "b") (PyTuple [PyStr "y"; PyInt 5]));
     (0, SetItem (KStr "c") (PyTuple [PyStr "z"; PyInt 2]));
     (0, DelItem (KStr "a"));
     (1, Collect); (2, Collect); (3, Collect); (4, Collect)] (KStr "c") 4
  = true ∧
  _clean_expired_unsafe 4
    (run [(0, SetItem (KStr "a") (PyTuple [PyStr "x"; PyInt 1]));
          (0, SetItem (KStr "b") (PyTuple [PyStr "y"; PyInt 5]));
          (0, SetItem (KStr "c") (PyTuple [PyStr "z"; PyInt 2]));
          (0, DelItem (KStr "a"));
          (1, Collect); (2, Collect); (3, Collect); (4, Collect)])
  = (Returned tt,
     mkTTL [(KStr "b", PyStr "y"); (KStr "c", PyStr "z")]
           [(Finite 5, KStr "b"); (Finite 2, KStr "c")]) ∧
  (__getitem__ 4 (KStr "c")
     (run [(0, SetItem (KStr "a") (PyTuple [PyStr "x"; PyInt 1]));
           (0, SetItem (KStr "b") (PyTuple [PyStr "y"; PyInt 5]));
           (0, SetItem (KStr "c") (PyTuple [PyStr "z"; PyInt 2]));
           (0, DelItem (KStr "a"));
           (1, Collect); (2, Collect); (3, Collect); (4, Collect)])).1
  = Returned (PyStr "z").
Proof. split_and!; vm_compute; reflexivity. Qed.

(** ** C2: a negative TTL *)

(** C2, as stated, fails: [d["k"] = ("v", -1)] on a fresh map at time 10
    is not rejected. *)
Lemma negative_ttl_not_rejected :
  ¬ (∀ (now : Z) (k : key) (v : pyval) (n : Z) (s : TTLDictionary),
       n < 0 →
       ∃ err, __setitem__ now k (PyTuple [v; PyInt n]) s = (Raised err, s)).
Proof.
  intros H.
  destruct (H 10 (KStr "k") (PyStr "v") (-1) __init__) as [err Herr]; [lia|].
  vm_compute in Herr. discriminate.
Qed.

(** What does reject a negative TTL is the conversion to a float, from
    [- 2 ** 1024] down: [OverflowError], not a validation of the sign. *)
Example negative_ttl_overflows :
  __setitem__ 10 (KStr "k") (PyTuple [PyStr "v"; PyInt (- 2 ^ 1024)]) __init__
  = (Raised OverflowError, __init__).
Proof. vm_compute. reflexivity. Qed.

(** C2, amended.  A write with a negative TTL [n] is accepted like any
    other.  For [n] and [now + n] below [2 ** 53] in magnitude, where the
    float sum is the integer sum: the store maps the key to the value, the
    only pair of the index for the key is [(now + n, key)], a deadline
    already in the past, and the write returns normally when the key can
    be ordered against the keys written before (otherwise [heappush] may
    raise [TypeError], with the entry stored all the same).  The TTL is
    neither rejected, nor truncated to zero, nor read as never-expire. *)
Theorem negative_ttl_stored tr now k v n :
  n < 0 → exact n → exact (now + n) →
  (orderable_keys (k :: written_keys tr) = true →
   (__setitem__ now k (PyTuple [v; PyInt n]) (run tr)).1 = Returned tt) ∧
  ((__setitem__ now k (PyTuple [v; PyInt n]) (run tr)).1 = Returned tt ∨
   (__setitem__ now k (PyTuple [v; PyInt n]) (run tr)).1 = Raised TypeError) ∧
  dict_get k (data (__setitem__ now k (PyTuple [v; PyInt n]) (run tr)).2)
    = Some v ∧
  (Finite (now + n), k)
    ∈ expiry_times (__setitem__ now k (PyTuple [v; PyInt n]) (run tr)).2 ∧
  (∀ e, (e, k)
          ∈ expiry_times (__setitem__ now k (PyTuple [v; PyInt n]) (run tr)).2 →
        e = Finite (now + n)) ∧
  now + n < now ∧
  deadline_leb (Finite (now + n)) now = true.
Proof.
  intros Hn Hex Hex'.
  pose proof (unpack_exact now v n Hex Hex') as Hun.
  destruct (setitem_stored now k _ v _ (run tr) Hun) as [Hget Hin].
  split_and!; [| by eapply setitem_outcome | done | done | | lia |].
  - intros HK. by eapply setitem_returns.
  - intros e He. eapply setitem_only; [done | apply well_formed_run | done].
  - simpl. apply Z.leb_le. lia.
Qed.

Lemma negative_ttl_stored_witness :
  (-1 < 0) ∧ exact (-1) ∧ exact (10 + -1) ∧
  (__setitem__ 10 (KStr "k") (PyTuple [PyStr "v"; PyInt (-1)]) (run [])).1
  = Returned tt ∧
  dict_get (KStr "k")
    (data (__setitem__ 10 (KStr "k") (PyTuple [PyStr "v"; PyInt (-1)])
             (run [])).2)
  = Some (PyStr "v").
Proof.
  pose proof (negative_ttl_stored [] 10 (KStr "k") (PyStr "v") (-1)) as H.
  destruct H as (Hret & _ & Hget & _);
    [lia | split; reflexivity | split; reflexivity |].
  split_and!;
    [lia | split; reflexivity | split; reflexivity
     | apply Hret; reflexivity | exact Hget].
Defined.

(** ** C3: deleting a key *)

(** C3, as stated, fails: a key written at time 0 with TTL 1 is expired
    at time 1, yet [del d["k"]] at time 1, before any sweep has run at
    that time, succeeds. *)
Lemma delete_of_expired_key_succeeds :
  ¬ (∀ (tr : list (Z * call)) (k : key) (now : Z),
       clock_ok 0 (tr ++ [(now, DelItem k)]) = true →
       expired tr k now = true →
       (__delitem__ k (run tr)).1 = Raised KeyError).
Proof.
  intros H.
  specialize (H [(0, SetItem (KStr "k") (PyTuple [PyStr "v"; PyInt 1]));
                 (0, Collect)]
                (KStr "k") 1 eq_refl eq_refl).
  vm_compute in H. discriminate.
Qed.

(** C3, amended.  [del d[k]] raises [KeyError] exactly when [k] is absent
    from the store; an expired key that no sweep has removed yet is still
    present and its deletion succeeds.  When it raises, the store and the
    index are unchanged.  When it succeeds, [k] is gone from the store and
    the index holds no pair for [k]. *)
Theorem delete_raises_iff_absent tr k :
  ((__delitem__ k (run tr)).1 = Raised KeyError
   ↔ dict_get k (data (run tr)) = None) ∧
  ((__delitem__ k (run tr)).1 = Returned tt
   ↔ is_Some (dict_get k (data (run tr)))) ∧
  ((__delitem__ k (run tr)).1 = Raised KeyError →
   (__delitem__ k (run tr)).2 = run tr) ∧
  ((__delitem__ k (run tr)).1 = Returned tt →
   dict_get k (data (__delitem__ k (run tr)).2) = None ∧
   ∀ e, (e, k) ∉ expiry_times (__delitem__ k (run tr)).2).
Proof.
  pose proof (well_formed_run tr) as (Hnd & _ & _).
  unfold __delitem__.
  destruct (dict_del k (data (run tr))) as [d|] eqn:Hdel; simpl.
  - assert (k ∈ (data (run tr)).*1) as Hin.
    { apply dec_stable. intros Hn. apply dict_del_None in Hn. congruence. }
    split_and!.
    + split; [done|]. intros Hn. apply dict_get_None in Hn. done.
    + split; [|done]. intros _. by apply dict_get_is_Some.
    + done.
    + intros _. split.
      * by eapply dict_del_absent.
      * intros e [? _]%elem_of_without_key. done.
  - apply dict_del_None in Hdel as Hout. split_and!.
    + split; [|done]. intros _. by apply dict_get_None.
    + split; [done|]. intros Hs. by apply dict_get_is_Some in Hs.
    + done.
    + done.
Qed.

Lemma delete_raises_iff_absent_witness :
  (__delitem__ (KStr "k")
     (run [(0, SetItem (KStr "k") (PyStr "v")); (0, DelItem (KStr "k"))])).1
  = Raised KeyError ∧
  (__delitem__ (KStr "k")
     (run [(0, SetItem (KStr "k") (PyStr "v")); (0, DelItem (KStr "k"))])).2
  = run [(0, SetItem (KStr "k") (PyStr "v")); (0, DelItem (KStr "k"))].
Proof.
  split; [reflexivity|].
  apply (delete_raises_iff_absent
           [(0, SetItem (KStr "k") (PyStr "v")); (0, DelItem (KStr "k"))]
           (KStr "k")).
  reflexivity.
Defined.

(** ** C4: invariant I1 *)

(** C4.  Invariant I1 does not hold on the code.  At time 0 the keys
    ["a"] (no TTL), ["z"] (TTL 1) and [1] (no TTL) are written; the three
    writes return.  The collector round at time 1 pops [(1, "z")]:
    [heappop] has taken the pair out of the list when it compares
    [(inf, 1)] with [(inf, "a")], and [1 < "a"] raises [TypeError].  The
    exception leaves the sweep before [del self.data[key]]: ["z"] stays in
    the store, its current deadline is 1, and the index holds no pair for
    it. *)
Theorem failed_pop_breaks_I1 :
  (__setitem__ 0 (KStr "a") (PyStr "y") (run [])).1 = Returned tt ∧
  (__setitem__ 0 (KStr "z") (PyTuple [PyStr "v"; PyInt 1])
     (run [(0, SetItem (KStr "a") (PyStr "y"))])).1 = Returned tt ∧
  (__setitem__ 0 (KInt 1) (PyStr "x")
     (run [(0, SetItem (KStr "a") (PyStr "y"));
           (0, SetItem (KStr "z") (PyTuple [PyStr "v"; PyInt 1]))])).1
  = Returned tt ∧
  _collect_expired 1
    (run [(0, SetItem (KStr "a") (PyStr "y"));
          (0, SetItem (KStr "z") (PyTuple [PyStr "v"; PyInt 1]));
          (0, SetItem (KInt 1) (PyStr "x"))])
  = (Raised TypeError,
     mkTTL [(KStr "a", PyStr "y"); (KStr "z", PyStr "v"); (KInt 1, PyStr "x")]
           [(Never, KStr "a"); (Never, KInt 1)]) ∧
  dict_get (KStr "z")
    (data (run [(0, SetItem (KStr "a") (PyStr "y"));
                (0, SetItem (KStr "z") (PyTuple [PyStr "v"; PyInt 1]));
                (0, SetItem (KInt 1) (PyStr "x"));
                (1, Collect)]))
  = Some (PyStr "v") ∧
  current_deadline
    [(0, SetItem (KStr "a") (PyStr "y"));
     (0, SetItem (KStr "z") (PyTuple [PyStr "v"; PyInt 1]));
     (0, SetItem (KInt 1) (PyStr "x"));
     (1, Collect)] (KStr "z")
  = Some (Finite 1) ∧
  (∀ e, (e, KStr "z")
          ∉ expiry_times
              (run [(0, SetItem (KStr "a") (PyStr "y"));
                    (0, SetItem (KStr "z") (PyTuple [PyStr "v"; PyInt 1]));
                    (0, SetItem (KInt 1) (PyStr "x"));
                    (1, Collect)])) ∧
  (__getitem__ 5 (KStr "z")
     (run [(0, SetItem (KStr "a") (PyStr "y"));
           (0, SetItem (KStr "z") (PyTuple [PyStr "v"; PyInt 1]));
           (0, SetItem (KInt 1) (PyStr "x"));
           (1, Collect)])).1
  = Returned (PyStr "v").
Proof.
  split_and!; try (vm_compute; reflexivity).
  intros e He. vm_compute in He. absurd_elem He.
Qed.

(** ** C5: entries without expiry *)

(** C5, as stated, fails twice.  With the TTL omitted a value that is
    itself a tuple is unpacked: [d["k"] = ("v", 1)] stores ["v"] with a TTL
    of 1, so reading back at once does not return the tuple.  And with the
    TTL explicitly [None]: after [d["a"] = ("y", None)], [d["z"] = ("v", 1)]
    and [d[1] = "x"], none of which writes ["a"] again, [d["a"]] at time 1
    raises [TypeError] from the sweep. *)
Lemma never_expire_not_returned :
  ¬ (∀ (t : Z) (k : key) (v : pyval) (now : Z),
       (__getitem__ now k (run [(t, SetItem k v)])).1 = Returned v) ∧
  ¬ (∀ (tr : list (Z * call)) (t : Z) (k : key) (v : pyval)
       (tr' : list (Z * call)) (now : Z),
       forallb (leaves_alone k) tr' = true →
       (__getitem__ now k
          (run (tr ++ (t, SetItem k (PyTuple [v; PyNone])) :: tr'))).1
       = Returned v).
Proof.
  split; intros H.
  - specialize (H 0 (KStr "k") (PyTuple [PyStr "v"; PyInt 1]) 0).
    vm_compute in H. discriminate.
  - specialize (H [] 0 (KStr "a") (PyStr "y")
                  [(0, SetItem (KStr "z") (PyTuple [PyStr "v"; PyInt 1]));
                   (0, SetItem (KInt 1) (PyStr "x"))] 1 eq_refl).
    vm_compute in H. discriminate.
Qed.

(** C5, amended.  After a write of [k] with the TTL explicitly [None]
    (the argument [(v, None)], for every value [v]), or with the TTL
    omitted and a value [v] that is not a tuple, [d[k]] returns [v] at
    every later time and after every history of calls that neither writes
    nor deletes [k], the empty history included, as long as any two keys
    written in the whole history can be ordered. *)
Theorem never_expire_entry tr t k a v tr' now :
  a = PyTuple [v; PyNone] ∨ (a = v ∧ is_tuple v = false) →
  forallb (leaves_alone k) tr' = true →
  orderable (tr ++ (t, SetItem k a) :: tr') = true →
  (__getitem__ now k (run (tr ++ (t, SetItem k a) :: tr'))).1 = Returned v.
Proof.
  intros Ha Hall Ho.
  assert (unpack_value_and_ttl t a = Returned (v, Never)) as Hun.
  { destruct Ha as [->|[-> Hv]]; [done|]. by destruct v. }
  apply (held_getitem k v Never); [done | |].
  - by apply _clean_expired_unsafe_returns, comparable_run.
  - rewrite (run_app tr). simpl.
    apply held_run_from; [done | apply before_Never |].
    apply setitem_holds; [apply well_formed_run | done].
Qed.

Lemma never_expire_entry_witness :
  (PyStr "v" = PyTuple [PyStr "v"; PyNone]
   ∨ (PyStr "v" = PyStr "v" ∧ is_tuple (PyStr "v") = false)) ∧
  forallb (leaves_alone (KStr "k"))
    [(5, Collect); (7, SetItem (KStr "j") (PyTuple [PyStr "w"; PyInt 1]));
     (900, Collect)] = true ∧
  orderable
    ([] ++ (0, SetItem (KStr "k") (PyStr "v"))
        :: [(5, Collect); (7, SetItem (KStr "j") (PyTuple [PyStr "w"; PyInt 1]));
            (900, Collect)]) = true ∧
  (__getitem__ 1000 (KStr "k")
     (run ([] ++ (0, SetItem (KStr "k") (PyStr "v"))
              :: [(5, Collect);
                  (7, SetItem (KStr "j") (PyTuple [PyStr "w"; PyInt 1]));
                  (900, Collect)]))).1
  = Returned (PyStr "v").
Proof.
  split_and!; [by right | reflexivity | reflexivity |].
  apply (never_expire_entry [] 0 (KStr "k") (PyStr "v") (PyStr "v")).
  - by right.
  - reflexivity.
  - reflexivity.
Defined.

(** ** C6: an overwrite replaces the deadline *)

(** C6.  The overwrite does not keep the read from failing.  At time 0:
    [d["k"] = ("one", 1)], then [d["k"] = ("two", None)], then
    [d["z"] = ("v", 1)] and [d[1] = "x"]; the four writes return and the
    last two leave ["k"] alone.  At time 2, after the 1-unit window, the
    sweep inside [d["k"]] pops [(1, "z")] and [heappop] compares
    [(inf, 1)] with [(inf, "k")]: [d["k"]] raises [TypeError] instead of
    returning ["two"]. *)
Theorem overwrite_read_raises :
  (__setitem__ 0 (KStr "k") (PyTuple [PyStr "one"; PyInt 1]) (run [])).1
  = Returned tt ∧
  (__setitem__ 0 (KStr "k") (PyTuple [PyStr "two"; PyNone])
     (run [(0, SetItem (KStr "k") (PyTuple [PyStr "one"; PyInt 1]))])).1
  = Returned tt ∧
  (__setitem__ 0 (KStr "z") (PyTuple [PyStr "v"; PyInt 1])
     (run [(0, SetItem (KStr "k") (PyTuple [PyStr "one"; PyInt 1]));
           (0, SetItem (KStr "k") (PyTuple [PyStr "two"; PyNone]))])).1
  = Returned tt ∧
  (__setitem__ 0 (KInt 1) (PyStr "x")
     (run [(0, SetItem (KStr "k") (PyTuple [PyStr "one"; PyInt 1]));
           (0, SetItem (KStr "k") (PyTuple [PyStr "two"; PyNone]));
           (0, SetItem (KStr "z") (PyTuple [PyStr "v"; PyInt 1]))])).1
  = Returned tt ∧
  forallb (leaves_alone (KStr "k"))
    [(0, SetItem (KStr "z") (PyTuple [PyStr "v"; PyInt 1]));
     (0, SetItem (KInt 1) (PyStr "x"))] = true ∧
  run [(0, SetItem (KStr "k") (PyTuple [PyStr "one"; PyInt 1]));
       (0, SetItem (KStr "k") (PyTuple [PyStr "two"; PyNone]));
       (0, SetItem (KStr "z") (PyTuple [PyStr "v"; PyInt 1]));
       (0, SetItem (KInt 1) (PyStr "x"))]
  = mkTTL [(KStr "k", PyStr "two"); (KStr "z", PyStr "v"); (KInt 1, PyStr "x")]
          [(Finite 1, KStr "z"); (Never, KStr "k"); (Never, KInt 1)] ∧
  __getitem__ 2 (KStr "k")
    (run [(0, SetItem (KStr "k") (PyTuple [PyStr "one"; PyInt 1]));
          (0, SetItem (KStr "k") (PyTuple [PyStr "two"; PyNone]));
          (0, SetItem (KStr "z") (PyTuple [PyStr "v"; PyInt 1]));
          (0, SetItem (KInt 1) (PyStr "x"))])
  = (Raised TypeError,
     mkTTL [(KStr "k", PyStr "two"); (KStr "z", PyStr "v"); (KInt 1, PyStr "x")]
           [(Never, KStr "k"); (Never, KInt 1)]).
Proof. split_and!; vm_compute; reflexivity. Qed.

(** ** C7: the queries change nothing *)

(** C7.  In every reachable state, [k in d], [len(d)], [keys()],
    [values()] and [items()] return with the store and the index exactly
    as they were; none of them sweeps, so they take no clock reading and an
    expired entry that no sweep has removed still counts.  The three lists
    are the contents of the store at the call: [items()] holds exactly the
    pairs [(k, v)] with [d[k] = v], [keys()] and [values()] are its two
    projections, [len] is its length and [k in d] is membership in
    [keys()].  The last conjunct is an entry past its deadline that is
    still reported. *)
Theorem queries_frame tr k :
  ∃ (b : bool) (n : nat) (ks : list key) (vs : list pyval)
    (kvs : list (key * pyval)),
    __contains__ k (run tr) = (Returned b, run tr) ∧
    __len__ (run tr) = (Returned n, run tr) ∧
    keys (run tr) = (Returned ks, run tr) ∧
    values (run tr) = (Returned vs, run tr) ∧
    items (run tr) = (Returned kvs, run tr) ∧
    (∀ k' v, (k', v) ∈ kvs ↔ dict_get k' (data (run tr)) = Some v) ∧
    ks = kvs.*1 ∧ vs = kvs.*2 ∧ n = length kvs ∧ NoDup ks ∧
    (b = true ↔ k ∈ ks) ∧
    (expired [(0, SetItem (KStr "k") (PyTuple [PyStr "v"; PyInt 1]))]
       (KStr "k") 5 = true ∧
     (__contains__ (KStr "k")
        (run [(0, SetItem (KStr "k") (PyTuple [PyStr "v"; PyInt 1]))])).1
     = Returned true ∧
     (__len__ (run [(0, SetItem (KStr "k") (PyTuple [PyStr "v"; PyInt 1]))])).1
     = Returned 1%nat).
Proof.
  pose proof (well_formed_run tr) as (Hnd & _ & _).
  exists (dict_contains k (data (run tr))), (length (data (run tr))),
    (data (run tr)).*1, (data (run tr)).*2, (data (run tr)).
  split_and!; try reflexivity.
  - intros k' v. split; [by apply dict_elem_get | apply dict_get_Some_elem].
  - done.
  - apply dict_contains_true.
Qed.

(** ** C8: sweeping twice *)

(** C8.  A second sweep at the same time is not always a no-op.  At time
    0 the keys ["a"] (TTL 1), ["b"] (TTL 2) and [1] (TTL 2) are written;
    the three writes return.  The sweep at time 2 pops [(1, "a")], and
    [heappop] raises [TypeError] on [(2, 1) < (2, "b")] with the pair of
    ["a"] already gone and nothing deleted.  The second sweep at time 2
    returns, and removes ["b"] and [1] from the store and their pairs from
    the index: it fails to be a no-op, and ["a"], expired, stays for
    ever. *)
Theorem second_sweep_changes_state :
  (__setitem__ 0 (KStr "a") (PyTuple [PyStr "x"; PyInt 1]) (run [])).1
  = Returned tt ∧
  (__setitem__ 0 (KStr "b") (PyTuple [PyStr "y"; PyInt 2])
     (run [(0, SetItem (KStr "a") (PyTuple [PyStr "x"; PyInt 1]))])).1
  = Returned tt ∧
  (__setitem__ 0 (KInt 1) (PyTuple [PyStr "z"; PyInt 2])
     (run [(0, SetItem (KStr "a") (PyTuple [PyStr "x"; PyInt 1]));
           (0, SetItem (KStr "b") (PyTuple [PyStr "y"; PyInt 2]))])).1
  = Returned tt ∧
  run [(0, SetItem (KStr "a") (PyTuple [PyStr "x"; PyInt 1]));
       (0, SetItem (KStr "b") (PyTuple [PyStr "y"; PyInt 2]));
       (0, SetItem (KInt 1) (PyTuple [PyStr "z"; PyInt 2]))]
  = mkTTL [(KStr "a", PyStr "x"); (KStr "b", PyStr "y"); (KInt 1, PyStr "z")]
          [(Finite 1, KStr "a"); (Finite 2, KStr "b"); (Finite 2, KInt 1)] ∧
  _clean_expired_unsafe 2
    (run [(0, SetItem (KStr "a") (PyTuple [PyStr "x"; PyInt 1]));
          (0, SetItem (KStr "b") (PyTuple [PyStr "y"; PyInt 2]));
          (0, SetItem (KInt 1) (PyTuple [PyStr "z"; PyInt 2]))])
  = (Raised TypeError,
     mkTTL [(KStr "a", PyStr "x"); (KStr "b", PyStr "y"); (KInt 1, PyStr "z")]
           [(Finite 2, KStr "b"); (Finite 2, KInt 1)]) ∧
  _clean_expired_unsafe 2
    (_clean_expired_unsafe 2
       (run [(0, SetItem (KStr "a") (PyTuple [PyStr "x"; PyInt 1]));
             (0, SetItem (KStr "b") (PyTuple [PyStr "y"; PyInt 2]));
             (0, SetItem (KInt 1) (PyTuple [PyStr "z"; PyInt 2]))])).2
  = (Returned tt, mkTTL [(KStr "a", PyStr "x")] []).
Proof. split_and!; vm_compute; reflexivity. Qed.

(** ** C9: no stale pairs *)

(** C9.  The keys of the index are not always those of the store.  After
    [d["a"] = "y"], [d["z"] = ("v", 1)] and [d[1] = "x"] at time 0 and a
    collector round at time 1, in which [heappop] raises [TypeError] after
    taking [(1, "z")] out of the list, the store has the three keys and the
    index has two pairs: ["z"] is stored and is in no pair. *)
Theorem failed_pop_loses_pair :
  (keys
     (run [(0, SetItem (KStr "a") (PyStr "y"));
           (0, SetItem (KStr "z") (PyTuple [PyStr "v"; PyInt 1]));
           (0, SetItem (KInt 1) (PyStr "x"));
           (1, Collect)])).1
  = Returned [KStr "a"; KStr "z"; KInt 1] ∧
  expiry_times
    (run [(0, SetItem (KStr "a") (PyStr "y"));
          (0, SetItem (KStr "z") (PyTuple [PyStr "v"; PyInt 1]));
          (0, SetItem (KInt 1) (PyStr "x"));
          (1, Collect)])
  = [(Never, KStr "a"); (Never, KInt 1)] ∧
  ¬ consistent
      (run [(0, SetItem (KStr "a") (PyStr "y"));
            (0, SetItem (KStr "z") (PyTuple [PyStr "v"; PyInt 1]));
            (0, SetItem (KInt 1) (PyStr "x"));
            (1, Collect)]).
Proof.
  split_and!; try (vm_compute; reflexivity).
  intros [_ Hperm]. apply Permutation_length in Hperm.
  vm_compute in Hperm. discriminate.
Qed.

(** ** C10: the value and the TTL travel in one argument *)

(** C10, as stated, fails in its first and in its last clause.  A 2-tuple
    whose second component is a string is not stored: [d["k"] = ("v",
    "soon")] raises [TypeError] and the store stays empty.  A 2-tuple
    whose second component is an integer of 54 bits does not get the
    deadline [now + b]: at time 0, [d["k"] = ("v", 2 ** 53 + 1)] gets the
    deadline [2 ** 53].  And [d["k"] = ((1, 2), None)] stores the tuple
    [(1, 2)] as the value of an entry that never expires. *)
Lemma tuple_argument_not_positional :
  ¬ (∀ (now : Z) (k : key) (v b : pyval) (s : TTLDictionary),
       dict_get k (data (__setitem__ now k (PyTuple [v; b]) s).2) = Some v) ∧
  ¬ (∀ (now : Z) (k : key) (v : pyval) (n : Z) (s : TTLDictionary),
       (Finite (now + n), k)
         ∈ expiry_times (__setitem__ now k (PyTuple [v; PyInt n]) s).2) ∧
  ¬ (∀ (now : Z) (k : key) (a v : pyval) (s : TTLDictionary),
       (__setitem__ now k a s).1 = Returned tt →
       pinned k v (__setitem__ now k a s).2 →
       is_tuple v = false).
Proof.
  split_and!; intros H.
  - specialize (H 0 (KStr "k") (PyStr "v") (PyStr "soon") __init__).
    vm_compute in H. discriminate.
  - specialize (H 0 (KStr "k") (PyStr "v") (2 ^ 53 + 1) __init__).
    vm_compute in H. absurd_elem H.
  - specialize (H 0 (KStr "k") (PyTuple [PyTuple [PyInt 1; PyInt 2]; PyNone])
                  (PyTuple [PyInt 1; PyInt 2]) __init__ eq_refl).
    discriminate H. split; [reflexivity|].
    intros e He. vm_compute in He.
    apply list_elem_of_singleton in He. congruence.
Qed.

(** C10, amended.  For a 2-tuple argument [(v, b)] with [b] [None], or an
    integer such that [b] and [now + b] are below [2 ** 53] in magnitude,
    the stored value is [v] and the only pair of the index for the key
    carries the never-expire deadline, respectively [now + b].  An argument
    that is not a tuple is stored whole and never expires.  In the three
    cases the write returns when the key can be ordered against the keys
    written before.  Consequently a tuple passed as the argument is never
    stored whole: if the key holds the argument itself after the call, the
    call was rejected and changed nothing.  And, the clock reading being
    below [2 ** 53], a tuple [v] becomes the value of a never-expiring
    entry only by the argument [(v, None)]: if the key holds [v] without
    expiry after the call, the argument was [(v, None)] or the call was
    rejected and changed nothing. *)
Theorem positional_ttl_encoding tr now k a :
  (∀ v, a = PyTuple [v; PyNone] →
     dict_get k (data (__setitem__ now k a (run tr)).2) = Some v ∧
     (Never, k) ∈ expiry_times (__setitem__ now k a (run tr)).2 ∧
     ∀ e, (e, k) ∈ expiry_times (__setitem__ now k a (run tr)).2 →
          e = Never) ∧
  (∀ v n, a = PyTuple [v; PyInt n] → exact n → exact (now + n) →
     dict_get k (data (__setitem__ now k a (run tr)).2) = Some v ∧
     (Finite (now + n), k)
       ∈ expiry_times (__setitem__ now k a (run tr)).2 ∧
     ∀ e, (e, k) ∈ expiry_times (__setitem__ now k a (run tr)).2 →
          e = Finite (now + n)) ∧
  (is_tuple a = false →
     dict_get k (data (__setitem__ now k a (run tr)).2) = Some a ∧
     (Never, k) ∈ expiry_times (__setitem__ now k a (run tr)).2 ∧
     ∀ e, (e, k) ∈ expiry_times (__setitem__ now k a (run tr)).2 →
          e = Never) ∧
  (orderable_keys (k :: written_keys tr) = true →
     (∀ v, a = PyTuple [v; PyNone] →
           (__setitem__ now k a (run tr)).1 = Returned tt) ∧
     (∀ v n, a = PyTuple [v; PyInt n] → exact n → exact (now + n) →
             (__setitem__ now k a (run tr)).1 = Returned tt) ∧
     (is_tuple a = false →
      (__setitem__ now k a (run tr)).1 = Returned tt)) ∧
  (is_tuple a = true →
     dict_get k (data (__setitem__ now k a (run tr)).2) = Some a →
     ∃ err, __setitem__ now k a (run tr) = (Raised err, run tr)) ∧
  (exact now →
   ∀ v, is_tuple v = true →
     pinned k v (__setitem__ now k a (run tr)).2 →
     a = PyTuple [v; PyNone] ∨
     ∃ err, __setitem__ now k a (run tr) = (Raised err, run tr)).
Proof.
  assert (∀ v e, unpack_value_and_ttl now a = Returned (v, e) →
     dict_get k (data (__setitem__ now k a (run tr)).2) = Some v ∧
     (e, k) ∈ expiry_times (__setitem__ now k a (run tr)).2 ∧
     ∀ e', (e', k) ∈ expiry_times (__setitem__ now k a (run tr)).2 →
           e' = e) as Hgen.
  { intros v e Hun.
    destruct (setitem_stored now k a v e (run tr) Hun) as [Hget Hin].
    split_and!; [done | done |].
    intros e' He'. eapply setitem_only; [done | apply well_formed_run | done]. }
  split_and!.
  - intros v ->. by apply Hgen.
  - intros v n -> Hn Hn'. by apply Hgen, unpack_exact.
  - intros Ha. apply Hgen. by destruct a.
  - intros HK. split_and!.
    + intros v ->. by eapply setitem_returns.
    + intros v n -> Hn Hn'. eapply setitem_returns; [|done].
      by apply unpack_exact.
    + intros Ha. eapply (setitem_returns tr now k a a Never); [|done].
      by destruct a.
  - intros Ha Hget.
    destruct (unpack_value_and_ttl now a) as [[v e]|err] eqn:Hun.
    + destruct (Hgen v e eq_refl) as (Hv & _ & _).
      rewrite Hv in Hget. simplify_eq.
      destruct (unpack_inv now a a e Hun)
        as [(? & _)|[[Heq _]|(n & f & Heq & _)]];
        [congruence | by destruct (tuple_first_ne a PyNone)
         | by destruct (tuple_first_ne a (PyInt n))].
    + exists err. by apply setitem_unpack_raises.
  - intros Hnow v Hv [Hget Hpin].
    destruct (unpack_value_and_ttl now a) as [[v' e']|err] eqn:Hun.
    + left. destruct (Hgen v' e' eq_refl) as (Hv' & Hin & _).
      rewrite Hv' in Hget. simplify_eq. apply Hpin in Hin. subst e'.
      destruct (unpack_inv now a v Never Hun)
        as [(? & ? & _)|[[Heq _]|(n & f & _ & Hf & Hinf)]];
        [congruence | done |].
      by destruct (float_add_finite now n f Hnow Hf).
    + right. exists err. by apply setitem_unpack_raises.
Qed.

Lemma positional_ttl_encoding_witness :
  PyTuple [PyStr "v"; PyInt 5] = PyTuple [PyStr "v"; PyInt 5] ∧
  exact 5 ∧ exact (10 + 5) ∧
  dict_get (KStr "k")
    (data (__setitem__ 10 (KStr "k") (PyTuple [PyStr "v"; PyInt 5])
             (run [])).2)
  = Some (PyStr "v") ∧
  (Finite (10 + 5), KStr "k")
    ∈ expiry_times
        (__setitem__ 10 (KStr "k") (PyTuple [PyStr "v"; PyInt 5]) (run [])).2.
Proof.
  pose proof (positional_ttl_encoding [] 10 (KStr "k")
                (PyTuple [PyStr "v"; PyInt 5])) as (_ & H & _).
  destruct (H (PyStr "v") 5 eq_refl) as (Hget & Hin & _);
    [split; reflexivity | split; reflexivity |].
  split_and!;
    [reflexivity | split; reflexivity | split; reflexivity
     | exact Hget | exact Hin].
Defined.

(** * Further properties of the code *)

(** ** Reads before and after the deadline *)

(** X1.  A write with a finite TTL is readable until its deadline.  After
    [d[k] = (v, n)] at time [t], with [n] and [t + n] below [2 ** 53] in
    magnitude, and after any later calls made before [t + n] that neither
    write nor delete [k], [d[k]] at a time before [t + n] returns [v] when
    any two keys written in the history can be ordered.  Without that the
    sweep of the read may raise [TypeError]; the read still never raises
    [KeyError] and never returns another value.  No sweep, whatever the
    order of the index, removes the key early. *)
Theorem live_until_deadline tr t k v n tr' now :
  exact n → exact (t + n) →
  forallb (leaves_alone k) tr' = true →
  forallb (before (Finite (t + n))) tr' = true →
  now < t + n →
  ((__getitem__ now k
      (run (tr ++ (t, SetItem k (PyTuple [v; PyInt n])) :: tr'))).1
   = Returned v ∨
   (__getitem__ now k
      (run (tr ++ (t, SetItem k (PyTuple [v; PyInt n])) :: tr'))).1
   = Raised TypeError) ∧
  (orderable (tr ++ (t, SetItem k (PyTuple [v; PyInt n])) :: tr') = true →
   (__getitem__ now k
      (run (tr ++ (t, SetItem k (PyTuple [v; PyInt n])) :: tr'))).1
   = Returned v).
Proof.
  intros Hn Hn' Hall Hbef Hnow.
  assert (deadline_leb (Finite (t + n)) now = false) as Hlive
    by (simpl; by apply Z.leb_gt).
  assert (held k v (Finite (t + n))
            (run (tr ++ (t, SetItem k (PyTuple [v; PyInt n])) :: tr')))
    as Hh.
  { rewrite (run_app tr). simpl. apply held_run_from; [done | done |].
    apply setitem_holds; [apply well_formed_run | by apply unpack_exact]. }
  split.
  - by eapply held_getitem_cases.
  - intros Ho. eapply held_getitem; [done | | done].
    by apply _clean_expired_unsafe_returns, comparable_run.
Qed.

Lemma live_until_deadline_witness :
  exact 5 ∧ exact (0 + 5) ∧
  forallb (leaves_alone (KStr "k"))
    [(1, Collect); (2, DelItem (KStr "j")); (3, GetItem (KStr "k"))] = true ∧
  forallb (before (Finite (0 + 5)))
    [(1, Collect); (2, DelItem (KStr "j")); (3, GetItem (KStr "k"))] = true ∧
  4 < 0 + 5 ∧
  orderable
    ([(0, SetItem (KStr "j") (PyTuple [PyStr "w"; PyInt 1]))]
     ++ (0, SetItem (KStr "k") (PyTuple [PyStr "v"; PyInt 5]))
     :: [(1, Collect); (2, DelItem (KStr "j")); (3, GetItem (KStr "k"))])
  = true ∧
  (__getitem__ 4 (KStr "k")
     (run ([(0, SetItem (KStr "j") (PyTuple [PyStr "w"; PyInt 1]))]
           ++ (0, SetItem (KStr "k") (PyTuple [PyStr "v"; PyInt 5]))
           :: [(1, Collect); (2, DelItem (KStr "j"));
               (3, GetItem (KStr "k"))]))).1
  = Returned (PyStr "v").
Proof.
  split_and!;
    [split; reflexivity | split; reflexivity | reflexivity | reflexivity
     | lia | reflexivity |].
  apply (live_until_deadline
           [(0, SetItem (KStr "j") (PyTuple [PyStr "w"; PyInt 1]))]
           0 (KStr "k") (PyStr "v") 5);
    [split; reflexivity | split; reflexivity | reflexivity | reflexivity
     | lia | reflexivity].
Defined.

(** X2.  In every reachable state the sweep only removes, and only expired
    keys: a lookup that succeeds after the sweep succeeded before it with
    the same value, and a stored key whose current deadline is after [now]
    is still stored, with its value, after the sweep. *)
Theorem sweep_keeps_live_keys tr now k v :
  (dict_get k (data (_clean_expired_unsafe now (run tr)).2) = Some v →
   dict_get k (data (run tr)) = Some v) ∧
  (dict_get k (data (run tr)) = Some v → expired tr k now = false →
   dict_get k (data (_clean_expired_unsafe now (run tr)).2) = Some v).
Proof.
  split.
  - apply clean_get_before. by destruct (well_formed_run tr).
  - intros Hget Hexp. unfold expired in Hexp.
    destruct (current_deadline tr k) as [e|] eqn:Hcur.
    + pose proof (stored_held tr k v Hget e Hcur) as Hh.
      by apply (held_clean _ _ _ now) in Hh as [? _].
    + assert (held k v Never (run tr)) as Hh.
      { split; [done|]. intros e' Hin%index_current. congruence. }
      by apply (held_clean _ _ _ now) in Hh as [? _].
Qed.

Lemma sweep_keeps_live_keys_witness :
  dict_get (KStr "b")
    (data (run [(0, SetItem (KStr "a") (PyTuple [PyStr "x"; PyInt 1]));
                (0, SetItem (KStr "b") (PyTuple [PyStr "y"; PyInt 9]))]))
  = Some (PyStr "y") ∧
  expired [(0, SetItem (KStr "a") (PyTuple [PyStr "x"; PyInt 1]));
           (0, SetItem (KStr "b") (PyTuple [PyStr "y"; PyInt 9]))]
    (KStr "b") 3 = false ∧
  dict_get (KStr "b")
    (data (_clean_expired_unsafe 3
             (run [(0, SetItem (KStr "a") (PyTuple [PyStr "x"; PyInt 1]));
                   (0, SetItem (KStr "b") (PyTuple [PyStr "y"; PyInt 9]))])).2)
  = Some (PyStr "y").
Proof.
  split_and!; [reflexivity | reflexivity |].
  apply (sweep_keeps_live_keys
           [(0, SetItem (KStr "a") (PyTuple [PyStr "x"; PyInt 1]));
            (0, SetItem (KStr "b") (PyTuple [PyStr "y"; PyInt 9]))]
           3 (KStr "b") (PyStr "y"));
    reflexivity.
Defined.

(** X3.  On a heap-ordered index the sweep is complete whenever it
    returns, and it returns when the keys of the index can be ordered: it
    then leaves the index heap-ordered and without any pair whose deadline
    is at or before [now]; when the keys of the index are those of the
    store, every key left in the store has a pair with a deadline after
    [now]. *)
Theorem sweep_complete_when_ordered now s :
  heap_ordered (expiry_times s) = true →
  (comparable_items (expiry_times s) = true →
   (_clean_expired_unsafe now s).1 = Returned tt) ∧
  ((_clean_expired_unsafe now s).1 = Returned tt →
   heap_ordered (expiry_times (_clean_expired_unsafe now s).2) = true ∧
   (∀ e k, (e, k) ∈ expiry_times (_clean_expired_unsafe now s).2 →
           deadline_leb e now = false) ∧
   (consistent s →
    ∀ k v, dict_get k (data (_clean_expired_unsafe now s).2) = Some v →
           ∃ e, (e, k) ∈ expiry_times (_clean_expired_unsafe now s).2 ∧
                deadline_leb e now = false)).
Proof.
  intros Hord. split.
  - intros Hcmp. by apply _clean_expired_unsafe_returns, comparable_items_all.
  - intros Hret. split_and!.
    + by apply clean_keeps_order.
    + intros e k. by apply clean_complete.
    + intros Hc k v Hget.
      assert (k ∈ (data (_clean_expired_unsafe now s).2).*1) as Hin
        by (apply dict_get_is_Some; eauto).
      destruct (stored_indexed _ _ (consistent_clean now s Hc Hret) Hin)
        as [e He].
      exists e. split; [done | by eapply clean_complete].
Qed.

Lemma sweep_complete_when_ordered_witness :
  heap_ordered
    [(Finite 1, KStr "a"); (Finite 5, KStr "b"); (Finite 2, KStr "c")]
  = true ∧
  comparable_items
    [(Finite 1, KStr "a"); (Finite 5, KStr "b"); (Finite 2, KStr "c")]
  = true ∧
  (_clean_expired_unsafe 3
     (mkTTL [(KStr "a", PyStr "x"); (KStr "b", PyStr "y");
             (KStr "c", PyStr "z")]
            [(Finite 1, KStr "a"); (Finite 5, KStr "b");
             (Finite 2, KStr "c")])).1
  = Returned tt.
Proof.
  split_and!; [reflexivity | reflexivity |].
  apply (sweep_complete_when_ordered 3
           (mkTTL [(KStr "a", PyStr "x"); (KStr "b", PyStr "y");
                   (KStr "c", PyStr "z")]
                  [(Finite 1, KStr "a"); (Finite 5, KStr "b");
                   (Finite 2, KStr "c")]));
    reflexivity.
Defined.

(** X4.  A history whose keys can be ordered, that never overwrites a
    stored key and never deletes a stored key, keeps the index
    heap-ordered: writes of new keys go through [heappush] and sweeps
    through [heappop], and only the list comprehension of an overwrite or
    of a deletion, or a comparison that raises, can disturb the order. *)
Theorem history_keeps_heap_order tr :
  orderable tr = true →
  no_rebuild __init__ tr = true →
  heap_ordered (expiry_times (run tr)) = true.
Proof. apply no_rebuild_run. Qed.

Lemma history_keeps_heap_order_witness :
  orderable
    [(0, SetItem (KStr "a") (PyTuple [PyStr "x"; PyInt 7]));
     (0, SetItem (KStr "b") (PyTuple [PyStr "y"; PyInt 3]));
     (1, SetItem (KStr "c") (PyStr "z"));
     (4, GetItem (KStr "a"));
     (5, SetItem (KStr "b") (PyTuple [PyStr "y2"; PyInt 1]))] = true ∧
  no_rebuild __init__
    [(0, SetItem (KStr "a") (PyTuple [PyStr "x"; PyInt 7]));
     (0, SetItem (KStr "b") (PyTuple [PyStr "y"; PyInt 3]));
     (1, SetItem (KStr "c") (PyStr "z"));
     (4, GetItem (KStr "a"));
     (5, SetItem (KStr "b") (PyTuple [PyStr "y2"; PyInt 1]))] = true ∧
  heap_ordered
    (expiry_times
       (run [(0, SetItem (KStr "a") (PyTuple [PyStr "x"; PyInt 7]));
             (0, SetItem (KStr "b") (PyTuple [PyStr "y"; PyInt 3]));
             (1, SetItem (KStr "c") (PyStr "z"));
             (4, GetItem (KStr "a"));
             (5, SetItem (KStr "b") (PyTuple [PyStr "y2"; PyInt 1]))]))
  = true.
Proof.
  split_and!; [reflexivity | reflexivity |].
  apply history_keeps_heap_order; reflexivity.
Defined.

(** X5.  After a history whose keys can be ordered, that never overwrites
    a stored key and never deletes a stored key, a read at or after the
    current deadline of [k] does not find [k]: [d[k]] raises [KeyError] and
    [get(k, default)] returns the default. *)
Theorem expired_key_not_found tr k now dflt :
  orderable tr = true →
  no_rebuild __init__ tr = true →
  expired tr k now = true →
  (__getitem__ now k (run tr)).1 = Raised KeyError ∧
  (get now k dflt (run tr)).1 = Returned dflt.
Proof.
  intros Ho Hnr Hexp.
  pose proof (_clean_expired_unsafe_returns now (run tr) (comparable_run tr Ho))
    as Hret.
  assert (dict_get k (data (_clean_expired_unsafe now (run tr)).2) = None)
    as Hnone.
  { destruct (dict_get k (data (_clean_expired_unsafe now (run tr)).2))
      as [v|] eqn:Hget; [exfalso|done].
    assert (k ∈ (data (_clean_expired_unsafe now (run tr)).2).*1) as Hin
      by (apply dict_get_is_Some; eauto).
    destruct (stored_indexed _ _
                (consistent_clean now _ (consistent_run tr Ho) Hret) Hin)
      as [e He].
    pose proof (clean_complete now (run tr) e k (no_rebuild_run tr Ho Hnr)
                  Hret He) as Hlive.
    apply clean_index_subset, index_current in He.
    unfold expired in Hexp. rewrite He in Hexp. congruence. }
  unfold __getitem__, get.
  destruct (_clean_expired_unsafe now (run tr)) as [[[]|?] s']; [|done].
  simpl in Hnone. by rewrite Hnone.
Qed.

Lemma expired_key_not_found_witness :
  orderable
    [(0, SetItem (KStr "a") (PyTuple [PyStr "x"; PyInt 7]));
     (0, SetItem (KStr "b") (PyTuple [PyStr "y"; PyInt 3]));
     (1, SetItem (KStr "c") (PyTuple [PyStr "z"; PyInt 0]))] = true ∧
  no_rebuild __init__
    [(0, SetItem (KStr "a") (PyTuple [PyStr "x"; PyInt 7]));
     (0, SetItem (KStr "b") (PyTuple [PyStr "y"; PyInt 3]));
     (1, SetItem (KStr "c") (PyTuple [PyStr "z"; PyInt 0]))] = true ∧
  expired
    [(0, SetItem (KStr "a") (PyTuple [PyStr "x"; PyInt 7]));
     (0, SetItem (KStr "b") (PyTuple [PyStr "y"; PyInt 3]));
     (1, SetItem (KStr "c") (PyTuple [PyStr "z"; PyInt 0]))] (KStr "c") 1
  = true ∧
  (__getitem__ 1 (KStr "c")
     (run [(0, SetItem (KStr "a") (PyTuple [PyStr "x"; PyInt 7]));
           (0, SetItem (KStr "b") (PyTuple [PyStr "y"; PyInt 3]));
           (1, SetItem (KStr "c") (PyTuple [PyStr "z"; PyInt 0]))])).1
  = Raised KeyError.
Proof.
  split_and!; [reflexivity | reflexivity | reflexivity |].
  exact (proj1 (expired_key_not_found
                  [(0, SetItem (KStr "a") (PyTuple [PyStr "x"; PyInt 7]));
                   (0, SetItem (KStr "b") (PyTuple [PyStr "y"; PyInt 3]));
                   (1, SetItem (KStr "c") (PyTuple [PyStr "z"; PyInt 0]))]
                  (KStr "c") 1 PyNone eq_refl eq_refl eq_refl)).
Defined.

(** ** Reads, deletions and sizes *)

(** X6.  [get(k, default)] is [d[k]] with the [KeyError] replaced by the
    default: in every state both run the same sweep and leave the same
    state, [get] returns what [d[k]] returns, it returns the default when
    [d[k]] raises [KeyError], and it raises [TypeError] when [d[k]] does.
    [d[k]] raises nothing but [KeyError] and [TypeError], [get] nothing but
    [TypeError], and [get] returns when the keys of the index can be
    ordered. *)
Theorem get_agrees_with_getitem now k dflt s :
  (get now k dflt s).2 = (__getitem__ now k s).2 ∧
  (∀ v, (__getitem__ now k s).1 = Returned v →
        (get now k dflt s).1 = Returned v) ∧
  ((__getitem__ now k s).1 = Raised KeyError →
   (get now k dflt s).1 = Returned dflt) ∧
  ((__getitem__ now k s).1 = Raised TypeError →
   (get now k dflt s).1 = Raised TypeError) ∧
  (∀ err, (__getitem__ now k s).1 = Raised err →
          err = KeyError ∨ err = TypeError) ∧
  (∀ err, (get now k dflt s).1 = Raised err →
          err = TypeError ∧ (__getitem__ now k s).1 = Raised TypeError) ∧
  (comparable_items (expiry_times s) = true →
   ∃ v, (get now k dflt s).1 = Returned v).
Proof.
  pose proof (_clean_expired_unsafe_outcome now s) as Hout.
  pose proof (_clean_expired_unsafe_returns now s) as Hret.
  unfold get, __getitem__.
  destruct (_clean_expired_unsafe now s) as [[[]|err0] s']; simpl in *.
  - destruct (dict_get k (data s')) as [v|]; simpl;
      split_and!; eauto; try done; intros; simplify_eq; eauto.
  - destruct Hout as [?|?]; simplify_eq.
    split_and!; try done.
    + intros err ?. simplify_eq. by right.
    + intros err ?. by simplify_eq.
    + intros Hcmp%comparable_items_all%Hret. done.
Qed.

Lemma get_agrees_with_getitem_witness :
  (__getitem__ 9 (KStr "k")
     (mkTTL [(KStr "k", PyStr "v")] [(Finite 3, KStr "k")])).1
  = Raised KeyError ∧
  (get 9 (KStr "k") (PyInt 0)
     (mkTTL [(KStr "k", PyStr "v")] [(Finite 3, KStr "k")])).1
  = Returned (PyInt 0).
Proof.
  split; [reflexivity|].
  apply (get_agrees_with_getitem 9 (KStr "k") (PyInt 0)
           (mkTTL [(KStr "k", PyStr "v")] [(Finite 3, KStr "k")])).
  reflexivity.
Defined.

(** X7.  After [del d[k]], whether it succeeded or raised, [k] is absent
    until it is written again.  After any later calls that do not write
    [k], at any time: [k in d] is [False], a second [del d[k]] raises
    [KeyError], [d[k]] returns no value and [get(k, default)] no value but
    the default.  When any two keys written in the history can be ordered,
    [d[k]] raises [KeyError] and [get(k, default)] returns the default;
    otherwise either may raise the [TypeError] of the sweep. *)
Theorem deleted_key_stays_absent tr t k tr' now dflt :
  forallb (leaves_alone k) tr' = true →
  (__contains__ k (run (tr ++ (t, DelItem k) :: tr'))).1 = Returned false ∧
  (__delitem__ k (run (tr ++ (t, DelItem k) :: tr'))).1 = Raised KeyError ∧
  ((__getitem__ now k (run (tr ++ (t, DelItem k) :: tr'))).1
   = Raised KeyError ∨
   (__getitem__ now k (run (tr ++ (t, DelItem k) :: tr'))).1
   = Raised TypeError) ∧
  ((get now k dflt (run (tr ++ (t, DelItem k) :: tr'))).1 = Returned dflt ∨
   (get now k dflt (run (tr ++ (t, DelItem k) :: tr'))).1
   = Raised TypeError) ∧
  (orderable (tr ++ (t, DelItem k) :: tr') = true →
   (__getitem__ now k (run (tr ++ (t, DelItem k) :: tr'))).1
   = Raised KeyError ∧
   (get now k dflt (run (tr ++ (t, DelItem k) :: tr'))).1 = Returned dflt).
Proof.
  intros Hall.
  assert (dict_get k (data (run (tr ++ (t, DelItem k) :: tr'))) = None)
    as Hnone.
  { rewrite run_app. simpl. apply absent_run_from; [done|].
    unfold step, __delitem__. simpl.
    destruct (dict_del k (data (run tr))) as [d|] eqn:Hdel; simpl.
    - pose proof (well_formed_run tr) as [Hnd _]. by eapply dict_del_absent.
    - by apply dict_get_None, dict_del_None. }
  pose proof (clean_get_None now _ k Hnone) as Hnone'.
  pose proof (_clean_expired_unsafe_outcome now
                (run (tr ++ (t, DelItem k) :: tr'))) as Hout.
  pose proof (_clean_expired_unsafe_returns now
                (run (tr ++ (t, DelItem k) :: tr'))) as Hret.
  split_and!.
  - unfold __contains__, dict_contains. by rewrite Hnone.
  - unfold __delitem__.
    apply dict_get_None, dict_del_None in Hnone. by rewrite Hnone.
  - unfold __getitem__.
    destruct (_clean_expired_unsafe now _) as [[[]|?] s'];
      simpl in *; [rewrite Hnone'; by left|].
    destruct Hout; simplify_eq. by right.
  - unfold get.
    destruct (_clean_expired_unsafe now _) as [[[]|?] s'];
      simpl in *; [rewrite Hnone'; by left|].
    destruct Hout; simplify_eq. by right.
  - intros Ho%comparable_run%Hret. unfold __getitem__, get.
    destruct (_clean_expired_unsafe now _) as [[[]|?] s']; [|done].
    simpl in Hnone'. by rewrite Hnone'.
Qed.

Lemma deleted_key_stays_absent_witness :
  forallb (leaves_alone (KStr "k"))
    [(2, SetItem (KStr "j") (PyStr "w")); (3, Collect)] = true ∧
  (__delitem__ (KStr "k")
     (run ([(0, SetItem (KStr "k") (PyStr "v"))]
           ++ (1, DelItem (KStr "k"))
           :: [(2, SetItem (KStr "j") (PyStr "w")); (3, Collect)]))).1
  = Raised KeyError.
Proof.
  split; [reflexivity|].
  apply (deleted_key_stays_absent
           [(0, SetItem (KStr "k") (PyStr "v"))] 1 (KStr "k") _ 4 PyNone).
  reflexivity.
Defined.

(** X8.  [len(d)] follows the writes: a successful write of a key that is
    not stored adds one, a successful write of a stored key changes
    nothing, a successful deletion removes one, and a sweep never makes
    the store longer. *)
Theorem len_accounting now k a s :
  ((__setitem__ now k a s).1 = Returned tt →
   (__len__ (__setitem__ now k a s).2).1
   = Returned (if dict_contains k (data s)
               then length (data s) else S (length (data s)))) ∧
  ((__delitem__ k s).1 = Returned tt →
   (__len__ s).1 = Returned (S (length (data (__delitem__ k s).2)))) ∧
  (length (data (_clean_expired_unsafe now s).2) ≤ length (data s))%nat.
Proof.
  split_and!.
  - unfold __setitem__, __len__.
    destruct (unpack_value_and_ttl now a) as [[value e0]|]; [|done].
    simpl. intros _. by rewrite dict_set_length.
  - unfold __delitem__, __len__.
    destruct (dict_del k (data s)) as [d|] eqn:Hdel; [|done].
    simpl. intros _. by rewrite (dict_del_length _ _ _ Hdel).
  - apply clean_length.
Qed.

Lemma len_accounting_witness :
  (__setitem__ 0 (KStr "b") (PyStr "y")
     (mkTTL [(KStr "a", PyStr "x")] [(Never, KStr "a")])).1
  = Returned tt ∧
  (__len__
     (__setitem__ 0 (KStr "b") (PyStr "y")
        (mkTTL [(KStr "a", PyStr "x")] [(Never, KStr "a")])).2).1
  = Returned 2%nat.
Proof.
  split; [reflexivity|].
  apply (len_accounting 0 (KStr "b") (PyStr "y")
           (mkTTL [(KStr "a", PyStr "x")] [(Never, KStr "a")])).
  reflexivity.
Defined.

(** X9.  A write or a deletion of [k] touches nothing of another key
    [k']: the lookup of [k'] and the pairs of the index for [k'] are the
    same before and after, in every state. *)
Theorem write_frame now k a k' s :
  k' ≠ k →
  (dict_get k' (data (__setitem__ now k a s).2) = dict_get k' (data s) ∧
   ∀ e, (e, k') ∈ expiry_times (__setitem__ now k a s).2
        ↔ (e, k') ∈ expiry_times s) ∧
  (dict_get k' (data (__delitem__ k s).2) = dict_get k' (data s) ∧
   ∀ e, (e, k') ∈ expiry_times (__delitem__ k s).2
        ↔ (e, k') ∈ expiry_times s).
Proof.
  intros Hne. split.
  - unfold __setitem__.
    destruct (unpack_value_and_ttl now a) as [[value e0]|]; [|done].
    simpl. split; [by apply dict_get_set_ne|].
    intros e. rewrite heapq_facts.heappush_perm, elem_of_cons.
    destruct (dict_contains k (data s)).
    + rewrite elem_of_without_key. split.
      * intros [?|[_ ?]]; [congruence | done].
      * intros ?. by right.
    + split; [intros [?|?]; [congruence | done] | by right].
  - unfold __delitem__.
    destruct (dict_del k (data s)) as [d|] eqn:Hdel; [|done].
    simpl. split; [by eapply dict_del_get_ne|].
    intros e. rewrite elem_of_without_key. split; [by intros [_ ?] | done].
Qed.

Lemma write_frame_witness :
  KStr "a" ≠ KStr "b" ∧
  dict_get (KStr "a")
    (data (__setitem__ 5 (KStr "b") (PyTuple [PyStr "y"; PyInt 1])
             (mkTTL [(KStr "a", PyStr "x"); (KStr "b", PyStr "old")]
                    [(Finite 3, KStr "a"); (Never, KStr "b")])).2)
  = dict_get (KStr "a") [(KStr "a", PyStr "x"); (KStr "b", PyStr "old")].
Proof.
  split; [done|].
  apply (write_frame 5 (KStr "b") (PyTuple [PyStr "y"; PyInt 1]) (KStr "a")
           (mkTTL [(KStr "a", PyStr "x"); (KStr "b", PyStr "old")]
                  [(Finite 3, KStr "a"); (Never, KStr "b")])).
  done.
Defined.

(** ** Writes that raise, repeated reads and what the store holds *)

(** X10.  A write raises in two ways.  Either the argument cannot be
    unpacked, and then nothing has changed: the argument is a tuple, and
    the exception is [ValueError] when it does not have exactly two
    components, [TypeError] when it has two and the second is a string or
    a tuple, [OverflowError] when the second is an integer, which then has
    magnitude [2 ** 1023] or more.  Or [heappush] raises [TypeError] on a key it
    cannot compare with a key of the index: then the value is already
    stored and the pair is already in the index. *)
Theorem setitem_raises now k a s err :
  (__setitem__ now k a s).1 = Raised err →
  (unpack_value_and_ttl now a = Raised err ∧
   (__setitem__ now k a s).2 = s ∧
   ∃ items, a = PyTuple items ∧
     ((err = ValueError ∧ length items ≠ 2%nat) ∨
      (err = TypeError ∧
       ∃ v b, items = [v; b] ∧
              ((∃ str, b = PyStr str) ∨ (∃ l, b = PyTuple l))) ∨
      (err = OverflowError ∧
       ∃ v n, items = [v; PyInt n] ∧ 2 ^ 1023 ≤ Z.abs n))) ∨
  (err = TypeError ∧
   ∃ v e, unpack_value_and_ttl now a = Returned (v, e) ∧
          dict_get k (data (__setitem__ now k a s).2) = Some v ∧
          (e, k) ∈ expiry_times (__setitem__ now k a s).2 ∧
          ¬ (∀ y, y ∈ expiry_times s → is_Some (item_ltb (e, k) y))).
Proof.
  intros Hraise.
  destruct (unpack_value_and_ttl now a) as [[v e]|err'] eqn:Hun.
  - right. destruct (setitem_outcome now k a v e s Hun) as [Hr|Hr];
      rewrite Hr in Hraise; simplify_eq.
    split; [done|]. exists v, e.
    destruct (setitem_stored now k a v e s Hun) as [Hget Hin].
    split_and!; [done | done | done |].
    intros Hall. unfold __setitem__ in Hr. rewrite Hun in Hr. simpl in Hr.
    rewrite heapq_facts.heappush_returns in Hr; [done|].
    intros y Hy. apply Hall.
    destruct (dict_contains k (data s)); [|done].
    destruct y as [e' k']. by apply elem_of_without_key in Hy as [_ ?].
  - left. rewrite (setitem_unpack_raises now k a err' s Hun) in Hraise |- *.
    simpl in Hraise. simplify_eq. split_and!; [done | done |].
    destruct a as [| | |items]; try done. exists items. split; [done|].
    simpl in Hun. destruct items as [|v [|b [|x rest]]]; simplify_eq;
      try (left; split; [done | simpl; lia]).
    right. destruct b as [|n|str|l]; simplify_eq.
    + destruct (float_of_int n) as [f|err0] eqn:Hf; simplify_eq.
      apply float_of_int_raises in Hf as [-> Hn].
      right. split; [done|]. by exists v, n.
    + left. split; [done|]. exists v, (PyStr str). split; [done|].
      left. by exists str.
    + left. split; [done|]. exists v, (PyTuple l). split; [done|].
      right. by exists l.
Qed.

Lemma setitem_raises_witness :
  (__setitem__ 0 (KStr "a") (PyStr "y")
     (mkTTL [(KInt 1, PyStr "x")] [(Never, KInt 1)])).1 = Raised TypeError ∧
  ((unpack_value_and_ttl 0 (PyStr "y") = Raised TypeError ∧
    (__setitem__ 0 (KStr "a") (PyStr "y")
       (mkTTL [(KInt 1, PyStr "x")] [(Never, KInt 1)])).2
    = mkTTL [(KInt 1, PyStr "x")] [(Never, KInt 1)] ∧
    ∃ items, PyStr "y" = PyTuple items ∧
      ((TypeError = ValueError ∧ length items ≠ 2%nat) ∨
       (TypeError = TypeError ∧
        ∃ v b, items = [v; b] ∧
               ((∃ str, b = PyStr str) ∨ (∃ l, b = PyTuple l))) ∨
       (TypeError = OverflowError ∧
        ∃ v n, items = [v; PyInt n] ∧ 2 ^ 1023 ≤ Z.abs n))) ∨
   (TypeError = TypeError ∧
    ∃ v e, unpack_value_and_ttl 0 (PyStr "y") = Returned (v, e) ∧
           dict_get (KStr "a")
             (data (__setitem__ 0 (KStr "a") (PyStr "y")
                      (mkTTL [(KInt 1, PyStr "x")] [(Never, KInt 1)])).2)
           = Some v ∧
           (e, KStr "a")
             ∈ expiry_times
                 (__setitem__ 0 (KStr "a") (PyStr "y")
                    (mkTTL [(KInt 1, PyStr "x")] [(Never, KInt 1)])).2 ∧
           ¬ (∀ y, y ∈ expiry_times
                         (mkTTL [(KInt 1, PyStr "x")] [(Never, KInt 1)]) →
                   is_Some (item_ltb (e, KStr "a") y)))).
Proof.
  split; [reflexivity|].
  apply (setitem_raises 0 (KStr "a") (PyStr "y")
           (mkTTL [(KInt 1, PyStr "x")] [(Never, KInt 1)]) TypeError).
  reflexivity.
Defined.

(** X11.  Reads repeat: in every state, after a read whose sweep did not
    raise [TypeError], reading again at the same clock reading gives the
    same outcome and leaves the state of the first read, for [d[k]] and
    for [get(k, default)]. *)
Theorem read_repeatable now k dflt s :
  ((__getitem__ now k s).1 ≠ Raised TypeError →
   __getitem__ now k (__getitem__ now k s).2 = __getitem__ now k s) ∧
  ((get now k dflt s).1 ≠ Raised TypeError →
   get now k dflt (get now k dflt s).2 = get now k dflt s).
Proof.
  pose proof (_clean_expired_unsafe_outcome now s) as Hout.
  assert ((_clean_expired_unsafe now s).1 = Returned tt →
          _clean_expired_unsafe now (_clean_expired_unsafe now s).2
          = (Returned tt, (_clean_expired_unsafe now s).2)) as Hidem.
  { intros Hret. by apply clean_loop_stop, _clean_expired_unsafe_exit. }
  split.
  - rewrite getitem_state. unfold __getitem__.
    destruct (_clean_expired_unsafe now s) as [[[]|?] s'] eqn:Hs;
      simpl in *.
    + intros _. by rewrite Hidem.
    + destruct Hout; simplify_eq. done.
  - rewrite get_state. unfold get.
    destruct (_clean_expired_unsafe now s) as [[[]|?] s'] eqn:Hs;
      simpl in *.
    + intros _. by rewrite Hidem.
    + destruct Hout; simplify_eq. done.
Qed.

Lemma read_repeatable_witness :
  (__getitem__ 3 (KStr "b")
     (mkTTL [(KStr "a", PyStr "x"); (KStr "b", PyStr "y")]
            [(Finite 1, KStr "a"); (Finite 5, KStr "b")])).1
  ≠ Raised TypeError ∧
  __getitem__ 3 (KStr "b")
    (__getitem__ 3 (KStr "b")
       (mkTTL [(KStr "a", PyStr "x"); (KStr "b", PyStr "y")]
              [(Finite 1, KStr "a"); (Finite 5, KStr "b")])).2
  = __getitem__ 3 (KStr "b")
      (mkTTL [(KStr "a", PyStr "x"); (KStr "b", PyStr "y")]
             [(Finite 1, KStr "a"); (Finite 5, KStr "b")]).
Proof.
  assert ((__getitem__ 3 (KStr "b")
             (mkTTL [(KStr "a", PyStr "x"); (KStr "b", PyStr "y")]
                    [(Finite 1, KStr "a"); (Finite 5, KStr "b")])).1
          ≠ Raised TypeError) as H by (vm_compute; discriminate).
  split; [exact H|].
  apply (read_repeatable 3 (KStr "b") PyNone
           (mkTTL [(KStr "a", PyStr "x"); (KStr "b", PyStr "y")]
                  [(Finite 1, KStr "a"); (Finite 5, KStr "b")])).
  exact H.
Defined.

(** X12.  The store only ever holds what was last written: in every
    reachable state, the value stored under a key is the value of the most
    recent write of that key that got past the unpacking of its argument,
    whether that write then returned or raised in [heappush]. *)
Theorem stored_value_is_last_written tr k v :
  dict_get k (data (run tr)) = Some v → current_value tr k = Some v.
Proof.
  revert v. induction tr as [|ev tr IH] using rev_ind; intros v; [done|].
  rewrite run_snoc, current_value_snoc.
  intros [->|[-> Hget]]%step_value_origin; [done | by apply IH |].
  apply well_formed_run.
Qed.

Lemma stored_value_is_last_written_witness :
  dict_get (KStr "a")
    (data (run [(0, SetItem (KInt 1) (PyStr "x"));
                (1, SetItem (KStr "a") (PyTuple [PyStr "one"; PyInt 9]));
                (2, SetItem (KStr "a") (PyStr "y"));
                (3, DelItem (KInt 1))]))
  = Some (PyStr "y") ∧
  current_value
    [(0, SetItem (KInt 1) (PyStr "x"));
     (1, SetItem (KStr "a") (PyTuple [PyStr "one"; PyInt 9]));
     (2, SetItem (KStr "a") (PyStr "y"));
     (3, DelItem (KInt 1))] (KStr "a")
  = Some (PyStr "y").
Proof.
  split; [reflexivity|].
  apply stored_value_is_last_written. reflexivity.
Defined.

(** X13.  The index holds no superseded deadline and no pair of a key
    that is gone.  In every reachable state a pair [(e, k)] of the index
    carries the deadline computed by the most recent write of [k], it is
    the only pair for [k], and [k] is stored; the index has at most as many
    pairs as the store has keys, and as many when any two keys written in
    the history can be ordered. *)
Theorem index_pairs_are_current tr e k :
  (e, k) ∈ expiry_times (run tr) →
  current_deadline tr k = Some e ∧
  (∀ e', (e', k) ∈ expiry_times (run tr) → e' = e) ∧
  NoDup (expiry_times (run tr)).*2 ∧
  is_Some (dict_get k (data (run tr))) ∧
  (length (expiry_times (run tr)) ≤ length (data (run tr)))%nat ∧
  (orderable tr = true →
   length (expiry_times (run tr)) = length (data (run tr))).
Proof.
  intros Hin. apply index_current in Hin as Hcur.
  pose proof (well_formed_run tr) as (Hnd & Hnd' & Hsub).
  split_and!; [done | | done | | |].
  - intros e' Hin'. apply index_current in Hin'. congruence.
  - apply dict_get_is_Some, Hsub, list_elem_of_fmap. by exists (e, k).
  - rewrite <- (length_fmap snd (expiry_times (run tr))),
      <- (length_fmap fst (data (run tr))).
    by apply submseteq_length, NoDup_submseteq.
  - intros [_ Hperm]%consistent_run.
    apply Permutation_length in Hperm. by rewrite !length_fmap in Hperm.
Qed.

Lemma index_pairs_are_current_witness :
  (Never, KStr "k")
    ∈ expiry_times
        (run [(0, SetItem (KStr "k") (PyTuple [PyStr "one"; PyInt 9]));
              (2, SetItem (KStr "k") (PyStr "two"))]) ∧
  current_deadline
    [(0, SetItem (KStr "k") (PyTuple [PyStr "one"; PyInt 9]));
     (2, SetItem (KStr "k") (PyStr "two"))] (KStr "k") = Some Never.
Proof.
  assert ((Never, KStr "k")
    ∈ expiry_times
        (run [(0, SetItem (KStr "k") (PyTuple [PyStr "one"; PyInt 9]));
              (2, SetItem (KStr "k") (PyStr "two"))])) as Hin
    by (vm_compute; left).
  split; [exact Hin|].
  apply (index_pairs_are_current _ Never (KStr "k") Hin).
Defined.

(** X14.  [keys()] lists the keys in the order of their insertion: in
    every reachable state a successful write of a key that is not stored
    puts it last, a successful write of a stored key moves nothing, a
    successful deletion takes the key out and keeps the others in place,
    and a sweep leaves the remaining keys in their order. *)
Theorem keys_insertion_order tr now k a :
  ((__setitem__ now k a (run tr)).1 = Returned tt →
   (keys (__setitem__ now k a (run tr)).2).1
   = Returned (if dict_contains k (data (run tr))
               then (data (run tr)).*1 else (data (run tr)).*1 ++ [k])) ∧
  ((__delitem__ k (run tr)).1 = Returned tt →
   (keys (__delitem__ k (run tr)).2).1
   = Returned (filter (λ k', k' ≠ k) (data (run tr)).*1)) ∧
  sublist (data (_clean_expired_unsafe now (run tr)).2).*1 (data (run tr)).*1.
Proof.
  split_and!.
  - unfold __setitem__, keys.
    destruct (unpack_value_and_ttl now a) as [[value e0]|]; [|done].
    simpl. intros _. f_equal.
    destruct (dict_contains k (data (run tr))) eqn:Hk.
    + by apply dict_set_keys_old, dict_contains_true.
    + by apply dict_set_keys_new, dict_contains_false.
  - unfold __delitem__, keys.
    destruct (dict_del k (data (run tr))) as [d|] eqn:Hdel; [|done].
    simpl. intros _. f_equal.
    pose proof (well_formed_run tr) as [Hnd _]. by apply dict_del_keys_filter.
  - apply fmap_sublist, clean_sublist.
Qed.

Lemma keys_insertion_order_witness :
  (__delitem__ (KStr "b")
     (run [(0, SetItem (KStr "a") (PyStr "x"));
           (0, SetItem (KStr "b") (PyStr "y"));
           (0, SetItem (KStr "c") (PyStr "z"))])).1 = Returned tt ∧
  (keys
     (__delitem__ (KStr "b")
        (run [(0, SetItem (KStr "a") (PyStr "x"));
              (0, SetItem (KStr "b") (PyStr "y"));
              (0, SetItem (KStr "c") (PyStr "z"))])).2).1
  = Returned [KStr "a"; KStr "c"].
Proof.
  split; [reflexivity|].
  apply (keys_insertion_order
           [(0, SetItem (KStr "a") (PyStr "x"));
            (0, SetItem (KStr "b") (PyStr "y"));
            (0, SetItem (KStr "c") (PyStr "z"))] 0 (KStr "b") PyNone).
  reflexivity.
Defined.

(** X15.  After a history whose keys can be ordered, that never
    overwrites a stored key and never deletes a stored key, the first pair
    of the index carries the earliest deadline: no pair of the index
    expires before [expiry_times[0]], the only pair the sweep loop tests. *)
Theorem earliest_deadline_first tr e k :
  orderable tr = true →
  no_rebuild __init__ tr = true →
  (e, k) ∈ expiry_times (run tr) →
  ∃ e0 k0 h, expiry_times (run tr) = (e0, k0) :: h ∧ deadline_le e0 e.
Proof.
  intros Ho Hnr Hin.
  pose proof (no_rebuild_run tr Ho Hnr) as Hord.
  apply list_elem_of_lookup_total in Hin as (i & Hi & Hlk).
  pose proof (heap_ordered_first _ i Hord Hi) as Hfirst.
  rewrite Hlk in Hfirst.
  destruct (expiry_times (run tr)) as [|[e0 k0] h]; [simpl in Hi; lia|].
  by exists e0, k0, h.
Qed.

Lemma earliest_deadline_first_witness :
  orderable
    [(0, SetItem (KStr "a") (PyTuple [PyStr "x"; PyInt 7]));
     (0, SetItem (KStr "b") (PyTuple [PyStr "y"; PyInt 3]));
     (1, SetItem (KStr "c") (PyStr "z"))] = true ∧
  no_rebuild __init__
    [(0, SetItem (KStr "a") (PyTuple [PyStr "x"; PyInt 7]));
     (0, SetItem (KStr "b") (PyTuple [PyStr "y"; PyInt 3]));
     (1, SetItem (KStr "c") (PyStr "z"))] = true ∧
  ∃ e0 k0 h,
    expiry_times
      (run [(0, SetItem (KStr "a") (PyTuple [PyStr "x"; PyInt 7]));
            (0, SetItem (KStr "b") (PyTuple [PyStr "y"; PyInt 3]));
            (1, SetItem (KStr "c") (PyStr "z"))]) = (e0, k0) :: h ∧
    deadline_le e0 (Finite 7).
Proof.
  split_and!; [reflexivity | reflexivity |].
  apply (earliest_deadline_first _ (Finite 7) (KStr "a"));
    [reflexivity | reflexivity |].
  vm_compute. right. left.
Defined.

(** ** The invariants when the keys can be ordered *)

(** X16.  Invariant I1 for keys that can be ordered: after a history in
    which any two written keys are comparable, every key present in the
    store has a pair in the index whose deadline is the key's current
    deadline, the one computed by the most recent write of that key. *)
Theorem invariant_I1 tr k v :
  orderable tr = true →
  dict_get k (data (run tr)) = Some v →
  ∃ e, current_deadline tr k = Some e ∧ (e, k) ∈ expiry_times (run tr).
Proof.
  intros Ho Hget.
  assert (k ∈ (data (run tr)).*1) as Hin by (apply dict_get_is_Some; eauto).
  destruct (stored_indexed _ _ (consistent_run tr Ho) Hin) as [e He].
  exists e. split; [by apply index_current | done].
Qed.

Lemma invariant_I1_witness :
  orderable
    [(0, SetItem (KStr "a") (PyTuple [PyStr "x"; PyInt 5]));
     (1, SetItem (KStr "a") (PyTuple [PyStr "y"; PyInt 7]));
     (2, GetItem (KStr "a"))] = true ∧
  dict_get (KStr "a")
    (data (run [(0, SetItem (KStr "a") (PyTuple [PyStr "x"; PyInt 5]));
                (1, SetItem (KStr "a") (PyTuple [PyStr "y"; PyInt 7]));
                (2, GetItem (KStr "a"))]))
  = Some (PyStr "y") ∧
  ∃ e, current_deadline
         [(0, SetItem (KStr "a") (PyTuple [PyStr "x"; PyInt 5]));
          (1, SetItem (KStr "a") (PyTuple [PyStr "y"; PyInt 7]));
          (2, GetItem (KStr "a"))] (KStr "a") = Some e ∧
       (e, KStr "a") ∈ expiry_times
         (run [(0, SetItem (KStr "a") (PyTuple [PyStr "x"; PyInt 5]));
               (1, SetItem (KStr "a") (PyTuple [PyStr "y"; PyInt 7]));
               (2, GetItem (KStr "a"))]).
Proof.
  split_and!; [reflexivity | reflexivity |].
  apply (invariant_I1 _ (KStr "a") (PyStr "y")); reflexivity.
Defined.

(** X17.  An overwrite replaces the deadline.  After [d[k] = (v1, 1)]
    and a later [d[k] = (v2, None)], and after any calls that neither write
    nor delete [k], every pair of the index for [k] never expires, at any
    time [d[k]] returns [v2] or raises the [TypeError] of the sweep, and it
    returns [v2] when any two keys written in the history can be ordered.
    This holds whatever happened between the two writes. *)
Theorem overwrite_resets_deadline tr t0 k v1 mid t1 v2 tr' now :
  forallb (leaves_alone k) tr' = true →
  (∀ e, (e, k) ∈ expiry_times
          (run (tr ++ (t0, SetItem k (PyTuple [v1; PyInt 1]))
                   :: mid ++ (t1, SetItem k (PyTuple [v2; PyNone])) :: tr')) →
        e = Never) ∧
  ((__getitem__ now k
      (run (tr ++ (t0, SetItem k (PyTuple [v1; PyInt 1]))
               :: mid ++ (t1, SetItem k (PyTuple [v2; PyNone])) :: tr'))).1
   = Returned v2 ∨
   (__getitem__ now k
      (run (tr ++ (t0, SetItem k (PyTuple [v1; PyInt 1]))
               :: mid ++ (t1, SetItem k (PyTuple [v2; PyNone])) :: tr'))).1
   = Raised TypeError) ∧
  (orderable (tr ++ (t0, SetItem k (PyTuple [v1; PyInt 1]))
                 :: mid ++ (t1, SetItem k (PyTuple [v2; PyNone])) :: tr')
   = true →
   (__getitem__ now k
      (run (tr ++ (t0, SetItem k (PyTuple [v1; PyInt 1]))
               :: mid ++ (t1, SetItem k (PyTuple [v2; PyNone])) :: tr'))).1
   = Returned v2).
Proof.
  intros Hall.
  rewrite app_comm_cons, (app_assoc tr).
  assert (held k v2 Never
            (run ((tr ++ (t0, SetItem k (PyTuple [v1; PyInt 1])) :: mid)
                  ++ (t1, SetItem k (PyTuple [v2; PyNone])) :: tr'))) as Hh.
  { rewrite run_app. simpl. apply held_run_from; [done | apply before_Never |].
    apply setitem_holds; [apply well_formed_run | done]. }
  split_and!.
  - apply Hh.
  - by apply (held_getitem_cases k v2 Never).
  - intros Ho. apply (held_getitem k v2 Never); [done | | done].
    by apply _clean_expired_unsafe_returns, comparable_run.
Qed.

Lemma overwrite_resets_deadline_witness :
  forallb (leaves_alone (KStr "k"))
    [(1, Collect); (2, Collect); (50, Collect)] = true ∧
  orderable
    ([] ++ (0, SetItem (KStr "k") (PyTuple [PyStr "one"; PyInt 1]))
        :: [] ++ (0, SetItem (KStr "k") (PyTuple [PyStr "two"; PyNone]))
        :: [(1, Collect); (2, Collect); (50, Collect)]) = true ∧
  (__getitem__ 60 (KStr "k")
     (run ([] ++ (0, SetItem (KStr "k") (PyTuple [PyStr "one"; PyInt 1]))
              :: [] ++ (0, SetItem (KStr "k") (PyTuple [PyStr "two"; PyNone]))
              :: [(1, Collect); (2, Collect); (50, Collect)]))).1
  = Returned (PyStr "two").
Proof.
  split_and!; [reflexivity | reflexivity |].
  apply (overwrite_resets_deadline [] 0 (KStr "k") (PyStr "one") [] 0
           (PyStr "two"));
    reflexivity.
Defined.

(** X18.  A sweep that returns has nothing left to do: for every state
    of the store and the index, reachable or not, and every time [now], if
    the sweep returns then a second sweep at the same [now] returns and
    leaves the state of the first one untouched.  The sweep returns when
    the keys of the index can be ordered, and on the empty index it does
    nothing. *)
Theorem sweep_idempotent now s :
  (comparable_items (expiry_times s) = true →
   (_clean_expired_unsafe now s).1 = Returned tt) ∧
  ((_clean_expired_unsafe now s).1 = Returned tt →
   _clean_expired_unsafe now (_clean_expired_unsafe now s).2
   = (Returned tt, (_clean_expired_unsafe now s).2)) ∧
  _clean_expired_unsafe now __init__ = (Returned tt, __init__).
Proof.
  split_and!.
  - intros Hcmp. by apply _clean_expired_unsafe_returns, comparable_items_all.
  - intros Hret. by apply clean_loop_stop, _clean_expired_unsafe_exit.
  - reflexivity.
Qed.

Lemma sweep_idempotent_witness :
  (_clean_expired_unsafe 3
     (mkTTL [(KStr "a", PyStr "x"); (KInt 1, PyStr "y")]
            [(Finite 1, KStr "a"); (Finite 5, KInt 1)])).1 = Returned tt ∧
  _clean_expired_unsafe 3
    (_clean_expired_unsafe 3
       (mkTTL [(KStr "a", PyStr "x"); (KInt 1, PyStr "y")]
              [(Finite 1, KStr "a"); (Finite 5, KInt 1)])).2
  = (Returned tt,
     (_clean_expired_unsafe 3
        (mkTTL [(KStr "a", PyStr "x"); (KInt 1, PyStr "y")]
               [(Finite 1, KStr "a"); (Finite 5, KInt 1)])).2).
Proof.
  split; [reflexivity|].
  apply (sweep_idempotent 3
           (mkTTL [(KStr "a", PyStr "x"); (KInt 1, PyStr "y")]
                  [(Finite 1, KStr "a"); (Finite 5, KInt 1)])).
  reflexivity.
Defined.

Lemma heappop_Returned_head (heap : list item) e k h :
  heapq.heappop heap = (Returned (e, k), h) → ∃ h0, heap = (e, k) :: h0.
Proof.
  destruct heap as [|x heap]; [by rewrite heapq_facts.heappop_nil|].
  destruct (heapq_facts.heappop_cons x heap) as (h' & _ & [-> | ->]);
    intros ?; simplify_eq. by exists heap.
Qed.

(** X19.  No stale pairs when the keys can be ordered: after a history
    in which any two written keys are comparable, the store has no
    duplicate key and the keys of the index, counted with multiplicity, are
    exactly the keys of the store: every stored key is in exactly one pair
    and every pair's key is stored.  Hence, in every state a sweep started
    from such a state passes through, the pair it pops has a stored key,
    and the [except KeyError] branch is not taken. *)
Theorem index_keys_are_store_keys tr :
  orderable tr = true →
  NoDup (data (run tr)).*1 ∧
  (expiry_times (run tr)).*2 ≡ₚ (data (run tr)).*1 ∧
  NoDup (expiry_times (run tr)).*2 ∧
  (∀ e k, (e, k) ∈ expiry_times (run tr) →
          is_Some (dict_get k (data (run tr)))) ∧
  (∀ now s e k h,
      sweeping now (run tr) s →
      heapq.heappop (expiry_times s) = (Returned (e, k), h) →
      is_Some (dict_del k (data s))).
Proof.
  intros Ho.
  pose proof (consistent_run tr Ho) as Hc. destruct Hc as [Hnd Hperm] eqn:E.
  clear E. split_and!; [done | done | by rewrite Hperm | |].
  - intros e k Hin. apply dict_get_is_Some.
    by apply (consistent_mem _ e); [split|].
  - intros now s e k h Hsw Hpop.
    assert (consistent s) as Hs by (by eapply consistent_sweeping; [|split]).
    apply heappop_Returned_head in Hpop as [h0 Hh0].
    destruct (consistent_pop s e k h0 h0 Hs Hh0) as (d & -> & _); [done|].
    by eexists.
Qed.

Lemma index_keys_are_store_keys_witness :
  orderable
    [(0, SetItem (KStr "a") (PyTuple [PyStr "x"; PyInt 1]));
     (0, SetItem (KStr "b") (PyTuple [PyStr "y"; PyInt 2]))] = true ∧
  (expiry_times
     (run [(0, SetItem (KStr "a") (PyTuple [PyStr "x"; PyInt 1]));
           (0, SetItem (KStr "b") (PyTuple [PyStr "y"; PyInt 2]))])).*2
  ≡ₚ (data
        (run [(0, SetItem (KStr "a") (PyTuple [PyStr "x"; PyInt 1]));
              (0, SetItem (KStr "b") (PyTuple [PyStr "y"; PyInt 2]))])).*1.
Proof.
  split; [reflexivity|].
  apply (index_keys_are_store_keys
           [(0, SetItem (KStr "a") (PyTuple [PyStr "x"; PyInt 1]));
            (0, SetItem (KStr "b") (PyTuple [PyStr "y"; PyInt 2]))]).
  reflexivity.
Defined.

(** X20.  Arguments that are rejected: in every state a tuple argument
    that does not have exactly two components raises [ValueError], a
    2-tuple whose second component is a string or a tuple raises
    [TypeError], and a 2-tuple whose second component is an integer of
    magnitude [2 ** 1024] or more raises [OverflowError]; in each case the
    store and the index are unchanged.  An integer TTL below [2 ** 53] in
    magnitude is never rejected, whatever its sign. *)
Theorem malformed_arguments_rejected now k s :
  (∀ items, length items ≠ 2%nat →
     __setitem__ now k (PyTuple items) s = (Raised ValueError, s)) ∧
  (∀ v str,
     __setitem__ now k (PyTuple [v; PyStr str]) s = (Raised TypeError, s)) ∧
  (∀ v l,
     __setitem__ now k (PyTuple [v; PyTuple l]) s = (Raised TypeError, s)) ∧
  (∀ v n, float_limit ≤ Z.abs n →
     __setitem__ now k (PyTuple [v; PyInt n]) s = (Raised OverflowError, s)) ∧
  (∀ v n, exact n →
     ∃ e, unpack_value_and_ttl now (PyTuple [v; PyInt n]) = Returned (v, e)).
Proof.
  split_and!.
  - intros items Hlen. apply setitem_unpack_raises.
    by destruct items as [|v [|b [|x rest]]].
  - intros v str. by apply setitem_unpack_raises.
  - intros v l. by apply setitem_unpack_raises.
  - intros v n Hn. apply setitem_unpack_raises. simpl.
    by rewrite float_of_int_overflow.
  - intros v n Hn. simpl. rewrite float_of_int_exact by done. eauto.
Qed.

Lemma malformed_arguments_rejected_witness :
  float_limit ≤ Z.abs (2 ^ 1024) ∧
  __setitem__ 7 (KStr "k") (PyTuple [PyStr "v"; PyInt (2 ^ 1024)])
    (mkTTL [(KStr "k", PyStr "old")] [(Never, KStr "k")])
  = (Raised OverflowError,
     mkTTL [(KStr "k", PyStr "old")] [(Never, KStr "k")]).
Proof.
  assert (float_limit ≤ Z.abs (2 ^ 1024)) as H by (vm_compute; discriminate).
  split; [exact H|].
  apply (malformed_arguments_rejected 7 (KStr "k")
           (mkTTL [(KStr "k", PyStr "old")] [(Never, KStr "k")])).
  exact H.
Defined.
